(** * Maze generator and solver: a shallow embedding of [maze.cc]

    The [Maze] class of [maze.cc] is modelled as a record with one field per
    data member; each member function becomes a function on that record.
    C++ [int] values are integers of [Z].  An expression whose behaviour the
    C++ standard leaves undefined (indexing a [std::vector] outside its
    bounds) and a loop that does not finish within its fuel both evaluate to
    [None]; the theorems show that neither occurs on the states the program
    can reach. *)

From Stdlib Require Import ZArith List Bool Lia Permutation.
From stdpp Require Import base option list numbers strings gmap.

Open Scope Z_scope.

(** ** Constants and plain data *)

Definition MAZE_WIDTH : Z := 21.
Definition MAZE_HEIGHT : Z := 21.

Inductive CellType := WALL | PATH | PLAYER | TARGET.

Record Cell := mkCell {
  cell_x : Z;
  cell_y : Z;
  type : CellType;
  visited : bool
}.

Record Vector2i := V2 { vx : Z; vy : Z }.

#[global] Instance CellType_eq_dec : EqDecision CellType.
Proof. solve_decision. Defined.

#[global] Instance Vector2i_eq_dec : EqDecision Vector2i.
Proof. solve_decision. Defined.

(** [Vector2i::operator==] *)
Definition Vector2i_eqb (a b : Vector2i) : bool :=
  (vx a =? vx b) && (vy a =? vy b).

Definition CellType_eqb (a b : CellType) : bool :=
  match a, b with
  | WALL, WALL | PATH, PATH | PLAYER, PLAYER | TARGET, TARGET => true
  | _, _ => false
  end.

(** Range of the C++ type [int].  Additions that involve a value coming from
    outside the grid ([dx], [dy], the animation index) are written with the
    two's-complement wrap-around of the 32-bit targets of the program;
    coordinate arithmetic inside the 21x21 grid cannot leave the range and is
    written with the operations of [Z]. *)
Definition INT_MIN : Z := - 2 ^ 31.
Definition INT_MAX : Z := 2 ^ 31 - 1.

Definition is_int (z : Z) : Prop := INT_MIN ≤ z ≤ INT_MAX.

Definition wrap_int (z : Z) : Z := (z + 2 ^ 31) mod 2 ^ 32 - 2 ^ 31.

Definition int_add (a b : Z) : Z := wrap_int (a + b).

(** Conversion of an [int] to [size_t], as in the comparison of
    [autoMoveStep]: reduction modulo [2^64]. *)
Definition SIZE_MOD : Z := 2 ^ 64.
Definition to_size_t (z : Z) : Z := z mod SIZE_MOD.

(** ** The grid: [std::vector<std::vector<Cell>>] *)

Abbreviation Grid := (list (list Cell)).

(** [cells[y][x]] as an rvalue.  A negative index becomes a huge [size_t];
    every index outside the vector is undefined behaviour. *)
Definition cellAt (cells : Grid) (x y : Z) : option Cell :=
  if (0 <=? x) && (0 <=? y) then
    row ← cells !! Z.to_nat y; row !! Z.to_nat x
  else None.

(** [cells[y][x] = f(cells[y][x])] *)
Definition updCell (f : Cell → Cell) (cells : Grid) (x y : Z) : option Grid :=
  if (0 <=? x) && (0 <=? y) then
    row ← cells !! Z.to_nat y;
    c ← row !! Z.to_nat x;
    Some (<[Z.to_nat y := <[Z.to_nat x := f c]> row]> cells)
  else None.

Definition withType (t : CellType) (c : Cell) : Cell :=
  mkCell (cell_x c) (cell_y c) t (visited c).

Definition withVisited (b : bool) (c : Cell) : Cell :=
  mkCell (cell_x c) (cell_y c) (type c) b.

Definition setType (t : CellType) := updCell (withType t).
Definition setVisited (b : bool) := updCell (withVisited b).

(** A loop over a list whose body may be undefined. *)
Fixpoint forEach {A S : Type} (body : A → S → option S) (l : list A) (s : S)
  : option S :=
  match l with
  | [] => Some s
  | a :: l' => s' ← body a s; forEach body l' s'
  end.

(** ** The random engine

    [std::mt19937] together with [std::shuffle] and
    [std::uniform_int_distribution<int>] is kept abstract: an engine state
    and two operations that consume it. *)

Class RandomEngine := {
  Rng : Type;
  shuffle : list Vector2i → Rng → list Vector2i * Rng;
  uniform_int : Z → Z → Rng → Z * Rng
}.

(** What the C++ library guarantees of those operations. *)
Record RandomEngineLaws (R : RandomEngine) : Prop := {
  shuffle_perm : ∀ l r, Permutation l (fst (shuffle l r));
  uniform_int_range : ∀ lo hi r, lo ≤ hi →
    lo ≤ fst (uniform_int lo hi r) ≤ hi
}.

(** A small concrete engine, used to run the model on examples: a linear
    congruential state; [shuffle] reverses on odd states. *)
Definition lcg_next (s : Z) : Z := (s * 1103515245 + 12345) mod 2147483648.

Definition LcgEngine : RandomEngine := {|
  Rng := Z;
  shuffle := λ l s, (if Z.odd (s / 65536) then reverse l else l, lcg_next s);
  uniform_int := λ lo hi s, (lo + (s / 65536) mod (hi - lo + 1), lcg_next s)
|}.

(** ** The [Maze] object *)

Section MazeModel.
Context {R : RandomEngine}.

Record Maze := mkMaze {
  cells : Grid;
  path : list Vector2i;
  movePath : list Vector2i;
  playerPos : Vector2i;
  targetPos : Vector2i;
  pathFound : bool;
  autoMoving : bool;
  currentMoveIndex : Z;
  rng : Rng
}.

Definition directions : list Vector2i :=
  [V2 1 0; V2 (-1) 0; V2 0 1; V2 0 (-1)].

Definition withCells (c : Grid) (m : Maze) : Maze :=
  mkMaze c (path m) (movePath m) (playerPos m) (targetPos m)
         (pathFound m) (autoMoving m) (currentMoveIndex m) (rng m).

Definition withRng (r : Rng) (m : Maze) : Maze :=
  mkMaze (cells m) (path m) (movePath m) (playerPos m) (targetPos m)
         (pathFound m) (autoMoving m) (currentMoveIndex m) r.

Definition withPath (p : list Vector2i) (m : Maze) : Maze :=
  mkMaze (cells m) p (movePath m) (playerPos m) (targetPos m)
         (pathFound m) (autoMoving m) (currentMoveIndex m) (rng m).

Definition withPathFound (b : bool) (m : Maze) : Maze :=
  mkMaze (cells m) (path m) (movePath m) (playerPos m) (targetPos m)
         b (autoMoving m) (currentMoveIndex m) (rng m).

Definition withPlayerPos (p : Vector2i) (m : Maze) : Maze :=
  mkMaze (cells m) (path m) (movePath m) p (targetPos m)
         (pathFound m) (autoMoving m) (currentMoveIndex m) (rng m).

Definition withTargetPos (p : Vector2i) (m : Maze) : Maze :=
  mkMaze (cells m) (path m) (movePath m) (playerPos m) p
         (pathFound m) (autoMoving m) (currentMoveIndex m) (rng m).

Definition withAutoMoving (b : bool) (m : Maze) : Maze :=
  mkMaze (cells m) (path m) (movePath m) (playerPos m) (targetPos m)
         (pathFound m) b (currentMoveIndex m) (rng m).

Definition withMovePath (p : list Vector2i) (m : Maze) : Maze :=
  mkMaze (cells m) (path m) p (playerPos m) (targetPos m)
         (pathFound m) (autoMoving m) (currentMoveIndex m) (rng m).

Definition withCurrentMoveIndex (i : Z) (m : Maze) : Maze :=
  mkMaze (cells m) (path m) (movePath m) (playerPos m) (targetPos m)
         (pathFound m) (autoMoving m) i (rng m).

(** [isValidPosition] *)
Definition isValidPosition (x y : Z) : bool :=
  (0 <=? x) && (x <? MAZE_WIDTH) && (0 <=? y) && (y <? MAZE_HEIGHT).

(** [resetVisited] *)
Definition clearVisited (g : Grid) : Grid := map (map (withVisited false)) g.

Definition resetVisited (m : Maze) : Maze :=
  withPathFound false (withPath [] (withCells (clearVisited (cells m)) m)).

(** ** Maze generation *)

(** [getUnvisitedNeighbors]: the body of the loop over [dirs] *)
Definition neighborDirs : list Vector2i :=
  [V2 2 0; V2 (-2) 0; V2 0 2; V2 0 (-2)].

Definition pushIfUnvisited (g : Grid) (x y : Z) (dir : Vector2i)
    (neighbors : list Vector2i) : option (list Vector2i) :=
  let nx := x + vx dir in
  let ny := y + vy dir in
  if (1 <=? nx) && (nx <? MAZE_WIDTH - 1) &&
     (1 <=? ny) && (ny <? MAZE_HEIGHT - 1) then
    c ← cellAt g nx ny;
    if negb (visited c) then Some (neighbors ++ [V2 nx ny]) else Some neighbors
  else Some neighbors.

Definition getUnvisitedNeighbors (g : Grid) (x y : Z) (r : Rng)
  : option (list Vector2i * Rng) :=
  neighbors ← forEach (pushIfUnvisited g x y) neighborDirs [];
  Some (shuffle neighbors r).

(** The first double loop of [generateMaze]: [cells[y][x] = {x, y, WALL}]. *)
Definition seqZ0 (n : Z) : list Z := map Z.of_nat (seq 0 (Z.to_nat n)).

Definition blankCell (x y : Z) (g : Grid) : option Grid :=
  updCell (λ _, mkCell x y WALL false) g x y.

Definition blankAll (g : Grid) : option Grid :=
  forEach (λ y, forEach (λ x, blankCell x y) (seqZ0 MAZE_WIDTH))
          (seqZ0 MAZE_HEIGHT) g.

(** One iteration of the [while (!stack.empty())] loop, for a stack whose
    top is [current]. *)
Definition carveStep (current : Vector2i) (rest : list Vector2i)
    (g : Grid) (r : Rng) : option (Grid * list Vector2i * Rng) :=
  let x := vx current in
  let y := vy current in
  '(neighbors, r1) ← getUnvisitedNeighbors g x y r;
  match neighbors with
  | _ :: _ =>
      let '(i, r2) := uniform_int 0 (Z.of_nat (length neighbors) - 1) r1 in
      next ← (if 0 <=? i then neighbors !! Z.to_nat i else None);
      let nx := vx next in
      let ny := vy next in
      let midX := Z.quot (x + nx) 2 in
      let midY := Z.quot (y + ny) 2 in
      g1 ← setType PATH g midX midY;
      g2 ← setType PATH g1 nx ny;
      g3 ← setVisited true g2 nx ny;
      Some (g3, V2 nx ny :: current :: rest, r2)
  | [] => Some (g, rest, r1)
  end.

Fixpoint carveLoop (fuel : nat) (stack : list Vector2i) (g : Grid) (r : Rng)
  : option (Grid * Rng) :=
  match stack with
  | [] => Some (g, r)
  | current :: rest =>
      match fuel with
      | O => None
      | S fuel' =>
          '(g', stack', r') ← carveStep current rest g r;
          carveLoop fuel' stack' g' r'
      end
  end.

Definition generateMazeFuel (fuel : nat) (m : Maze) : option Maze :=
  g0 ← blankAll (cells m);
  g1 ← setType PATH g0 1 1;
  g2 ← setType PATH g1 (MAZE_WIDTH - 2) (MAZE_HEIGHT - 2);
  g3 ← setVisited true g2 1 1;
  '(g4, r) ← carveLoop fuel [V2 1 1] g3 (rng m);
  Some (withRng r (withCells g4 m)).

(** Every loop of the class runs for at most one iteration per cell and per
    stack or queue operation; this fuel is never exhausted (see
    [generateMaze_total] and [findPathBFS_total]). *)
Definition LOOP_FUEL : nat := Z.to_nat (2 * MAZE_WIDTH * MAZE_HEIGHT).

Definition generateMaze (m : Maze) : option Maze :=
  generateMazeFuel LOOP_FUEL m.

(** ** Session operations *)

(** The body of the loop of [reset] *)
Definition resetCell (c : Cell) : Cell :=
  mkCell (cell_x c) (cell_y c)
         (if CellType_eqb (type c) PLAYER then PATH else type c) false.

Definition reset (m : Maze) : option Maze :=
  let g0 := map (map resetCell) (cells m) in
  let player := V2 1 1 in
  g1 ← setType PLAYER g0 (vx player) (vy player);
  let target := V2 (MAZE_WIDTH - 2) (MAZE_HEIGHT - 2) in
  g2 ← setType TARGET g1 (vx target) (vy target);
  Some (mkMaze g2 (path m) [] player target false false 0 (rng m)).

Definition generateNewMaze (m : Maze) : option Maze :=
  m1 ← generateMaze m; reset m1.

(** The constructor [Maze()]; [seed] is the engine after [rng.seed]. *)
Definition defaultCell : Cell := mkCell 0 0 WALL false.

Definition newMaze (seed : Rng) : option Maze :=
  let g := replicate (Z.to_nat MAZE_HEIGHT)
                     (replicate (Z.to_nat MAZE_WIDTH) defaultCell) in
  m1 ← generateMaze (mkMaze g [] [] (V2 0 0) (V2 0 0) false false 0 seed);
  reset m1.

Definition movePlayer (dx dy : Z) (m : Maze) : option (bool * Maze) :=
  let newX := int_add (vx (playerPos m)) dx in
  let newY := int_add (vy (playerPos m)) dy in
  if isValidPosition newX newY then
    c ← cellAt (cells m) newX newY;
    if negb (CellType_eqb (type c) WALL) then
      g1 ← setType PATH (cells m) (vx (playerPos m)) (vy (playerPos m));
      g2 ← setType PLAYER g1 newX newY;
      Some (true, withCells g2 (withPlayerPos (V2 newX newY) m))
    else Some (false, m)
  else Some (false, m).

(** ** Breadth-first search *)

Definition parentKey (x y : Z) : Z := y * MAZE_WIDTH + x.

(** [reconstructPath]; [parentMap[k]] on an absent key yields a
    value-initialised [Vector2i]. *)
Fixpoint reconstructLoop (fuel : nat) (parentMap : gmap Z Vector2i)
    (player current : Vector2i) (acc : list Vector2i)
  : option (list Vector2i) :=
  if Vector2i_eqb current player then Some acc
  else
    match fuel with
    | O => None
    | S fuel' =>
        reconstructLoop fuel' parentMap player
          (default (V2 0 0)
                   (parentMap !! parentKey (vx current) (vy current)))
          (acc ++ [current])
    end.

Definition reconstructPath (parentMap : gmap Z Vector2i) (m : Maze)
  : option Maze :=
  p ← reconstructLoop LOOP_FUEL parentMap (playerPos m) (targetPos m) (path m);
  Some (withPath (reverse p) m).

(** The body of [for (const auto& dir : directions)] *)
Definition bfsVisit (current dir : Vector2i)
    (st : Grid * list Vector2i * gmap Z Vector2i)
  : option (Grid * list Vector2i * gmap Z Vector2i) :=
  let '(g, queue, parentMap) := st in
  let newX := vx current + vx dir in
  let newY := vy current + vy dir in
  if isValidPosition newX newY then
    c ← cellAt g newX newY;
    if negb (visited c) && negb (CellType_eqb (type c) WALL) then
      g' ← setVisited true g newX newY;
      Some (g', queue ++ [V2 newX newY],
            <[parentKey newX newY := current]> parentMap)
    else Some st
  else Some st.

Fixpoint bfsLoop (fuel : nat) (m : Maze) (queue : list Vector2i)
    (parentMap : gmap Z Vector2i) : option Maze :=
  match queue with
  | [] => Some m
  | current :: queue' =>
      match fuel with
      | O => None
      | S fuel' =>
          if Vector2i_eqb current (targetPos m) then
            reconstructPath parentMap (withPathFound true m)
          else
            '(g, queue'', parentMap') ←
              forEach (bfsVisit current) directions
                      (cells m, queue', parentMap);
            bfsLoop fuel' (withCells g m) queue'' parentMap'
      end
  end.

Definition findPathBFSFuel (fuel : nat) (m : Maze) : option Maze :=
  let m1 := resetVisited m in
  g ← setVisited true (cells m1) (vx (playerPos m1)) (vy (playerPos m1));
  bfsLoop fuel (withCells g m1) [playerPos m1] ∅.

Definition findPathBFS (m : Maze) : option Maze :=
  findPathBFSFuel LOOP_FUEL m.

(** ** Animated auto-solve *)

Definition prepareAutoMove (m : Maze) : option Maze :=
  m1 ← findPathBFS m;
  if pathFound m1 then
    Some (withMovePath (playerPos m1 :: path m1)
            (withCurrentMoveIndex 0 (withAutoMoving true m1)))
  else Some m1.

Definition autoMoveStep (m : Maze) : option (bool * Maze) :=
  if negb (autoMoving m) ||
     (to_size_t (Z.of_nat (length (movePath m)) - 1)
        <=? to_size_t (currentMoveIndex m)) then
    Some (false, withAutoMoving false m)
  else
    let idx := int_add (currentMoveIndex m) 1 in
    nextPos ← (if 0 <=? idx then movePath m !! Z.to_nat idx else None);
    g1 ← setType PATH (cells m) (vx (playerPos m)) (vy (playerPos m));
    g2 ← setType PLAYER g1 (vx nextPos) (vy nextPos);
    let m' := withCells g2 (withPlayerPos nextPos
                (withCurrentMoveIndex idx m)) in
    Some (true,
          if Vector2i_eqb nextPos (targetPos m') then withAutoMoving false m'
          else m').

(** ** The input adapter and the operations as data *)

Inductive SpecialKey :=
  GLUT_KEY_UP | GLUT_KEY_DOWN | GLUT_KEY_LEFT | GLUT_KEY_RIGHT | GLUT_KEY_OTHER.

(** [specialKeys], without the redisplay request *)
Definition specialKeys (key : SpecialKey) (m : Maze) : option Maze :=
  if autoMoving m then Some m
  else
    match key with
    | GLUT_KEY_UP => snd <$> movePlayer 0 (-1) m
    | GLUT_KEY_DOWN => snd <$> movePlayer 0 1 m
    | GLUT_KEY_LEFT => snd <$> movePlayer (-1) 0 m
    | GLUT_KEY_RIGHT => snd <$> movePlayer 1 0 m
    | GLUT_KEY_OTHER => Some m
    end.

Inductive Op :=
  | OpMovePlayer (dx dy : Z)
  | OpFindPathBFS
  | OpPrepareAutoMove
  | OpAutoMoveStep
  | OpReset
  | OpGenerateNewMaze.

Definition perform (o : Op) (m : Maze) : option Maze :=
  match o with
  | OpMovePlayer dx dy => snd <$> movePlayer dx dy m
  | OpFindPathBFS => findPathBFS m
  | OpPrepareAutoMove => prepareAutoMove m
  | OpAutoMoveStep => snd <$> autoMoveStep m
  | OpReset => reset m
  | OpGenerateNewMaze => generateNewMaze m
  end.

End MazeModel.

Arguments Maze : clear implicits.
Arguments generateMaze : simpl never.
Arguments generateNewMaze : simpl never.
Arguments newMaze : simpl never.
Arguments findPathBFS : simpl never.
Arguments prepareAutoMove : simpl never.
Arguments LOOP_FUEL : simpl never.


(** * Specification vocabulary *)

(** The shape the constructor gives the grid and every operation keeps. *)
Definition gridOK (g : Grid) : Prop :=
  length g = Z.to_nat MAZE_HEIGHT ∧
  Forall (λ row, length row = Z.to_nat MAZE_WIDTH) g.

Definition validPos (p : Vector2i) : Prop :=
  isValidPosition (vx p) (vy p) = true.

Definition cellP (g : Grid) (p : Vector2i) : option Cell :=
  cellAt g (vx p) (vy p).

Definition typeAt (g : Grid) (p : Vector2i) : CellType :=
  from_option type WALL (cellP g p).

Definition visitedAt (g : Grid) (p : Vector2i) : bool :=
  from_option visited false (cellP g p).

(** In bounds and not a wall: the nodes of the grid graph. *)
Definition walkable (g : Grid) (p : Vector2i) : bool :=
  isValidPosition (vx p) (vy p) && negb (CellType_eqb (typeAt g p) WALL).

Definition offset (p d : Vector2i) : Vector2i :=
  V2 (vx p + vx d) (vy p + vy d).

Definition adjacent (p q : Vector2i) : Prop :=
  ∃ d, d ∈ directions ∧ q = offset p d.

(** [walk g src n q]: a 4-connected path of [n] edges from [src] to [q]
    whose cells after [src] are all walkable. *)
Inductive walk (g : Grid) (src : Vector2i) : nat → Vector2i → Prop :=
  | walk_here : walk g src 0 src
  | walk_step n q r :
      walk g src n q → adjacent q r → walkable g r = true →
      walk g src (S n) r.

Definition reachable (g : Grid) (src q : Vector2i) : Prop :=
  ∃ n, walk g src n q.

(** The BFS layer distance. *)
Definition distance (g : Grid) (src q : Vector2i) (n : nat) : Prop :=
  walk g src n q ∧ ∀ k, walk g src k q → (n ≤ k)%nat.

(** All positions of the grid, row by row. *)
Definition allPositions : list Vector2i :=
  y ← seqZ0 MAZE_HEIGHT; x ← seqZ0 MAZE_WIDTH; [V2 x y].

Definition CELL_COUNT : nat := Z.to_nat (MAZE_WIDTH * MAZE_HEIGHT).

Definition unvisitedCount (g : Grid) : nat :=
  length (filter (λ p, visitedAt g p = false) allPositions).

(** Every walkable neighbour of [p] carries the visited flag. *)
Definition closedAt (g : Grid) (p : Vector2i) : Prop :=
  ∀ q, adjacent p q → walkable g q = true → visitedAt g q = true.

(** [trail g src l q]: [l] lists the cells after [src] of a path from [src]
    to [q], in order. *)
Inductive trail (g : Grid) (src : Vector2i) : list Vector2i → Vector2i → Prop :=
  | trail_nil : trail g src [] src
  | trail_snoc l q r :
      trail g src l q → adjacent q r → walkable g r = true →
      trail g src (l ++ [r]) r.

(** A trail along which the [i]-th cell lies at distance [i+1]. *)
Definition geodesic (g : Grid) (src : Vector2i) (l : list Vector2i)
    (q : Vector2i) : Prop :=
  trail g src l q ∧ ∀ i p, l !! i = Some p → distance g src p (S i).


(** ** The invariant of the breadth-first search

    [g0] is the grid when the search starts, [src] the player and [tgt] the
    target.  The queue is [A ++ B]: the cells of [A] lie at distance [d], the
    cells of [B] at distance [d+1]; [current] is the cell being expanded, if
    any. *)

(** What the parent map records of a visited cell at distance [n]. *)
Definition parentOK (g0 : Grid) (src : Vector2i) (g : Grid)
    (parentMap : gmap Z Vector2i) (p : Vector2i) (n : nat) : Prop :=
  (p = src ∧ n = 0%nat) ∨
  (p ≠ src ∧ ∃ par n', n = S n' ∧
     parentMap !! parentKey (vx p) (vy p) = Some par ∧
     visitedAt g par = true ∧ adjacent par p ∧ walkable g0 p = true ∧
     distance g0 src par n').

Record bfsInv (g0 : Grid) (src tgt : Vector2i) (d : nat)
    (A B : list Vector2i) (current : option Vector2i)
    (g : Grid) (parentMap : gmap Z Vector2i) : Prop := {
  inv_grid : gridOK g;
  inv_types : ∀ p, typeAt g p = typeAt g0 p;
  inv_src : validPos src ∧ visitedAt g src = true;
  inv_visited : ∀ p, visitedAt g p = true →
    validPos p ∧ ∃ n, distance g0 src p n ∧
      (n + unvisitedCount g < CELL_COUNT)%nat ∧
      parentOK g0 src g parentMap p n;
  inv_A : ∀ p, p ∈ A → visitedAt g p = true ∧ distance g0 src p d;
  inv_B : ∀ p, p ∈ B → visitedAt g p = true ∧ distance g0 src p (S d);
  inv_current : ∀ c, current = Some c →
    visitedAt g c = true ∧ distance g0 src c d ∧ c ≠ tgt;
  inv_closed : ∀ p, visitedAt g p = true → p ∉ A → p ∉ B →
    current ≠ Some p → closedAt g p ∧ p ≠ tgt;
  inv_near : ∀ p k, walk g0 src k p → (k ≤ d)%nat → visitedAt g p = true
}.


(** What [findPathBFS] leaves behind when started on grid [g0] in session
    [m]: only [cells] (the visited flags), [path] and [pathFound] differ. *)
Definition bfsResult {R : RandomEngine} (g0 : Grid) (m m' : Maze R) : Prop :=
  m' = withPath (path m') (withPathFound (pathFound m') (withCells (cells m') m)) ∧
  gridOK (cells m') ∧
  (∀ p, typeAt (cells m') p = typeAt g0 p) ∧
  if pathFound m' then
    geodesic g0 (playerPos m) (path m') (targetPos m) ∧
    (length (path m') < CELL_COUNT)%nat
  else path m' = [] ∧ ¬ reachable g0 (playerPos m) (targetPos m).


(** What a run of [findPathBFS] lets the rest of the program observe. *)
Definition searchOutcome {R : RandomEngine} (m : Maze R)
  : Grid * list Vector2i * bool :=
  (cells m, path m, pathFound m).


(** ** The room lattice of the generator *)

(** Rooms are the interior cells with two odd coordinates. *)
Definition isRoom (p : Vector2i) : bool :=
  (1 <=? vx p) && (vx p <? MAZE_WIDTH - 1) && Z.odd (vx p) &&
  (1 <=? vy p) && (vy p <? MAZE_HEIGHT - 1) && Z.odd (vy p).

Definition rooms : list Vector2i := filter (λ p, isRoom p = true) allPositions.

Definition latticeAdj (a b : Vector2i) : Prop :=
  isRoom a = true ∧ isRoom b = true ∧ ∃ d, d ∈ neighborDirs ∧ b = offset a d.

(** The cell between two rooms, computed as in [generateMaze]. *)
Definition midpoint (a b : Vector2i) : Vector2i :=
  V2 (Z.quot (vx a + vx b) 2) (Z.quot (vy a + vy b) 2).

(** Every pair of neighbouring rooms, once: towards +x and towards +y. *)
Definition latticeEdges : list (Vector2i * Vector2i) :=
  a ← rooms;
  filter (λ e, isRoom (snd e) = true) [(a, offset a (V2 2 0)); (a, offset a (V2 0 2))].

(** A carved connection: two neighbouring rooms whose midpoint is [PATH]. *)
Definition passage (g : Grid) (a b : Vector2i) : Prop :=
  latticeAdj a b ∧ typeAt g (midpoint a b) = PATH.

Definition connections (g : Grid) : list (Vector2i * Vector2i) :=
  filter (λ e, typeAt g (midpoint (fst e) (snd e)) = PATH) latticeEdges.

(** ** Trees and cycles *)

Definition linked {V} (es : list (V * V)) (a b : V) : Prop :=
  (a, b) ∈ es ∨ (b, a) ∈ es.

(** A tree grown from a root by attaching one fresh leaf at a time. *)
Inductive growsTree {V} : list V → list (V * V) → Prop :=
  | tree_root r : growsTree [r] []
  | tree_leaf vs es u v :
      growsTree vs es → u ∈ vs → v ∉ vs → growsTree (v :: vs) ((u, v) :: es).

(** The cyclic successor of index [i] in a list of length [n]. *)
Definition nextIndex (n i : nat) : nat := if decide (S i = n) then 0%nat else S i.

(** A cycle: at least three distinct nodes, each linked to its cyclic
    successor. *)
Definition cycle {V} (E : V → V → Prop) (c : list V) : Prop :=
  NoDup c ∧ (3 ≤ length c)%nat ∧
  ∀ i a b, c !! i = Some a → c !! nextIndex (length c) i = Some b → E a b.

(** Connected by a chain of links. *)
Inductive connected {V} (E : V → V → Prop) (a : V) : V → Prop :=
  | connected_refl : connected E a a
  | connected_step b c : connected E a b → E b c → connected E a c.

(** ** The invariant of the carving loop

    [vs] lists the visited rooms, newest first, and [es] the connections
    carved so far, each from the older room to the newer. *)
Record genInv (g : Grid) (stack : list Vector2i)
    (vs : list Vector2i) (es : list (Vector2i * Vector2i)) : Prop := {
  gen_grid : gridOK g;
  gen_visited : ∀ p, visitedAt g p = true ↔ p ∈ vs;
  gen_rooms : ∀ p, p ∈ vs → isRoom p = true ∧ typeAt g p = PATH;
  gen_tree : growsTree vs es;
  gen_root : V2 1 1 ∈ vs;
  gen_edges : ∀ a b, (a, b) ∈ es →
    latticeAdj a b ∧ typeAt g (midpoint a b) = PATH;
  gen_carved : ∀ a b, latticeAdj a b → typeAt g (midpoint a b) ≠ WALL →
    linked es a b;
  gen_open : ∀ p, typeAt g p ≠ WALL →
    typeAt g p = PATH ∧
    ((isRoom p = true ∧ (p ∈ vs ∨ p = V2 (MAZE_WIDTH - 2) (MAZE_HEIGHT - 2))) ∨
     ∃ a b, linked es a b ∧ p = midpoint a b);
  gen_stack : ∀ p, p ∈ stack → p ∈ vs;
  gen_closed : ∀ p, p ∈ vs → p ∉ stack → ∀ q, latticeAdj p q → q ∈ vs;
  gen_count : (length (connections g) + 1 = length vs)%nat;
  gen_reach : ∀ p, p ∈ vs → reachable g (V2 1 1) p
}.


(** A perfect maze: only walls and paths, every path cell reachable from
    (1,1), every room a path cell, and the carved connections a spanning
    tree of the room lattice (connected, no cycle, one connection less
    than there are rooms). *)
Definition perfectMaze (g : Grid) : Prop :=
  gridOK g ∧
  (∀ p, typeAt g p = WALL ∨ typeAt g p = PATH) ∧
  (∀ p, typeAt g p = PATH → reachable g (V2 1 1) p) ∧
  (∀ r, isRoom r = true → typeAt g r = PATH) ∧
  (∀ r, isRoom r = true → connected (passage g) (V2 1 1) r) ∧
  (∀ c, ¬ cycle (passage g) c) ∧
  (length (connections g) = length rooms - 1)%nat.


(** ** Sessions *)

Definition exactlyOne (t : CellType) (g : Grid) : Prop :=
  ∃ p, typeAt g p = t ∧ ∀ q, typeAt g q = t → q = p.

Definition atMostOneAt (t : CellType) (g : Grid) (p : Vector2i) : Prop :=
  ∀ q, typeAt g q = t → q = p.

Section SessionVocabulary.
Context {R : RandomEngine}.

(** What the constructor establishes and every operation keeps. *)
Record WF (m : Maze R) : Prop := {
  wf_grid : gridOK (cells m);
  wf_player : validPos (playerPos m);
  wf_player_cell : typeAt (cells m) (playerPos m) = PLAYER;
  wf_player_unique : atMostOneAt PLAYER (cells m) (playerPos m);
  wf_target : targetPos m = V2 (MAZE_WIDTH - 2) (MAZE_HEIGHT - 2);
  wf_target_unique : atMostOneAt TARGET (cells m) (targetPos m);
  wf_auto : autoMoving m = true → movePath m ≠ [];
  wf_movePath : Forall validPos (movePath m) ∧
                (length (movePath m) ≤ CELL_COUNT)%nat;
  wf_index : is_int (currentMoveIndex m)
}.

(** The states of a session: the constructed one and those any sequence of
    operations leads to. *)
Inductive reachableState : Maze R → Prop :=
  | reachable_new seed m : newMaze seed = Some m → reachableState m
  | reachable_perform o m m' :
      reachableState m → perform o m = Some m' → reachableState m'.

Fixpoint performAll (ops : list Op) (m : Maze R) : option (Maze R) :=
  match ops with
  | [] => Some m
  | o :: ops' => m' ← perform o m; performAll ops' m'
  end.

(** [k] calls of [autoMoveStep] in a row, with their return values. *)
Fixpoint autoMoveSteps (k : nat) (m : Maze R) : option (list bool * Maze R) :=
  match k with
  | O => Some ([], m)
  | S k' =>
      '(b, m1) ← autoMoveStep m;
      '(bs, m2) ← autoMoveSteps k' m1;
      Some (b :: bs, m2)
  end.

End SessionVocabulary.


(** ** Checking a path by computation *)

Definition adjacentb (p q : Vector2i) : bool :=
  existsb (λ d, Vector2i_eqb q (offset p d)) directions.

Fixpoint checkTrail (g : Grid) (src : Vector2i) (l : list Vector2i)
    (q : Vector2i) : bool :=
  match l with
  | [] => Vector2i_eqb src q
  | p :: l' => adjacentb src p && walkable g p && checkTrail g p l' q
  end.

#[global] Instance gridOK_dec g : Decision (gridOK g).
Proof. unfold gridOK. apply _. Defined.

(** The animation state that a cancelled animation leaves. *)
Definition animationCleared {R : RandomEngine} (m : Maze R) : Prop :=
  autoMoving m = false ∧ movePath m = [].

(** ** A concrete session

    The session built with the engine [LcgEngine] seeded with 42, the
    same session after [prepareAutoMove], after the 60 animation steps that
    bring the player to the target, and after a manual move or a second
    [prepareAutoMove] from there. *)
Definition lcgSeed (z : Z) : @Rng LcgEngine := z.

Definition emptySession : Maze LcgEngine :=
  mkMaze [] [] [] (V2 0 0) (V2 0 0) false false 0 (lcgSeed 0).

Definition exampleStart : Maze LcgEngine :=
  default emptySession (newMaze (lcgSeed 42)).

Definition exampleSolving : Maze LcgEngine :=
  default emptySession (prepareAutoMove exampleStart).

Definition exampleArrived : Maze LcgEngine :=
  default emptySession
    (performAll (replicate 60 OpAutoMoveStep) exampleSolving).

Definition exampleMoved : Maze LcgEngine :=
  default emptySession (snd <$> movePlayer 0 1 exampleSolving).

Definition exampleResolved : Maze LcgEngine :=
  default emptySession (prepareAutoMove exampleArrived).


(** ** The open cells of a session

    [connectedMaze m]: every open (in bounds, non-wall) cell can be reached
    from (1,1), and (1,1), the player, the target and the cells of the
    animation path are open. *)
Definition connectedMaze {R : RandomEngine} (m : Maze R) : Prop :=
  (∀ p, walkable (cells m) p = true → reachable (cells m) (V2 1 1) p) ∧
  walkable (cells m) (V2 1 1) = true ∧
  walkable (cells m) (playerPos m) = true ∧
  walkable (cells m) (targetPos m) = true ∧
  Forall (λ p, walkable (cells m) p = true) (movePath m).


Definition exampleSearched : Maze LcgEngine :=
  default emptySession (findPathBFS exampleStart).


(** The kind that [reset] gives the cell at [p] whose kind was [t]. *)
Definition resetKind (p : Vector2i) (t : CellType) : CellType :=
  if decide (p = V2 (MAZE_WIDTH - 2) (MAZE_HEIGHT - 2)) then TARGET
  else if decide (p = V2 1 1) then PLAYER
  else if CellType_eqb t PLAYER then PATH else t.


(** ** Distances on the grid and walking by keys *)

(** The number of steps between two cells when no wall is in the way. *)
Definition manhattan (p q : Vector2i) : Z :=
  Z.abs (vx q - vx p) + Z.abs (vy q - vy p).

(** [stepsFrom g p l]: [l] lists, in order, the cells of a path that leaves
    [p]: each is open and next to the one before. *)
Fixpoint stepsFrom (g : Grid) (p : Vector2i) (l : list Vector2i) : Prop :=
  match l with
  | [] => True
  | q :: l' => adjacent p q ∧ walkable g q = true ∧ stepsFrom g q l'
  end.

(** The arrow key that takes the player from [p] to the neighbouring cell
    [q] (the y axis points down the screen). *)
Definition keyToward (p q : Vector2i) : SpecialKey :=
  if decide (q = offset p (V2 0 (-1))) then GLUT_KEY_UP
  else if decide (q = offset p (V2 0 1)) then GLUT_KEY_DOWN
  else if decide (q = offset p (V2 (-1) 0)) then GLUT_KEY_LEFT
  else if decide (q = offset p (V2 1 0)) then GLUT_KEY_RIGHT
  else GLUT_KEY_OTHER.

Fixpoint keysAlong (p : Vector2i) (l : list Vector2i) : list SpecialKey :=
  match l with
  | [] => []
  | q :: l' => keyToward p q :: keysAlong q l'
  end.

(** A sequence of calls of [specialKeys]. *)
Fixpoint pressAll {R : RandomEngine} (keys : list SpecialKey) (m : Maze R)
  : option (Maze R) :=
  match keys with
  | [] => Some m
  | k :: keys' => m' ← specialKeys k m; pressAll keys' m'
  end.


(** ** The layout of the open cells *)

(** The cells that the generator can open: the interior cells with at least
    one odd coordinate, that is the rooms and the cells between two
    neighbouring rooms. *)
Definition isSite (p : Vector2i) : bool :=
  (1 <=? vx p) && (vx p <? MAZE_WIDTH - 1) &&
  (1 <=? vy p) && (vy p <? MAZE_HEIGHT - 1) &&
  (Z.odd (vx p) || Z.odd (vy p)).

Definition openCells (g : Grid) : list Vector2i :=
  filter (λ p, walkable g p = true) allPositions.

(** Everything in a session but the stored solution path. *)
Definition sessionCore {R : RandomEngine} (m : Maze R) :=
  (cells m, rng m, movePath m, playerPos m, targetPos m,
   pathFound m, autoMoving m, currentMoveIndex m).


(** ** Rendering: [draw]

    [draw] reads the session and issues OpenGL commands.  It is modelled by
    the list of calls it makes, in order; [drawCell] and [drawPathCell],
    which turn a cell into the four vertices of a quad, are recorded as
    calls with their arguments.  A colour component is the decimal literal
    of the source, as a rational. *)

Definition CELL_SIZE : Z := 50.

Definition dec (n : Z) (d : positive) : QArith_base.Q := QArith_base.Qmake n d.

Record Color := mkColor {
  color_r : QArith_base.Q;
  color_g : QArith_base.Q;
  color_b : QArith_base.Q
}.

Inductive DrawCall :=
  | GlClear
  | DrawCell (x y : Z) (color : Color)
  | DrawPathCell (x y : Z) (color : Color)
  | GlutSwapBuffers.

(** The [switch] on the kind of a cell *)
Definition cellColor (t : CellType) : Color :=
  match t with
  | WALL => mkColor (dec 3 10) (dec 3 10) (dec 3 10)
  | PATH => mkColor (dec 9 10) (dec 9 10) (dec 9 10)
  | PLAYER => mkColor (dec 26 100) (dec 53 100) (dec 96 100)
  | TARGET => mkColor (dec 96 100) (dec 26 100) (dec 26 100)
  end.

Definition pathColor : Color := mkColor (dec 26 100) (dec 96 100) (dec 68 100).

(** The body of the double loop over the grid *)
Definition drawGridCell (g : Grid) (x y : Z) (calls : list DrawCall)
  : option (list DrawCall) :=
  c ← cellAt g x y;
  Some (calls ++ [DrawCell x y (cellColor (type c))]).

(** The body of the loop over [path] *)
Definition drawOverlayCell (g : Grid) (pos : Vector2i) (calls : list DrawCall)
  : option (list DrawCall) :=
  c ← cellAt g (vx pos) (vy pos);
  if negb (CellType_eqb (type c) PLAYER) && negb (CellType_eqb (type c) TARGET)
  then Some (calls ++ [DrawPathCell (vx pos) (vy pos) pathColor])
  else Some calls.

Definition draw {R : RandomEngine} (m : Maze R) : option (list DrawCall) :=
  calls1 ← forEach (λ y, forEach (λ x, drawGridCell (cells m) x y)
                                 (seqZ0 MAZE_WIDTH))
                   (seqZ0 MAZE_HEIGHT) [GlClear];
  calls2 ← (if pathFound m
            then forEach (drawOverlayCell (cells m)) (path m) calls1
            else Some calls1);
  Some (calls2 ++ [GlutSwapBuffers]).

(** The calls that paint the grid, and those that lay the solution over the
    cells of [l]. *)
Definition gridCalls (g : Grid) : list DrawCall :=
  (λ p, DrawCell (vx p) (vy p) (cellColor (typeAt g p))) <$> allPositions.

Definition overlayCalls (l : list Vector2i) : list DrawCall :=
  (λ p, DrawPathCell (vx p) (vy p) pathColor) <$> l.

(** The solution path is shown only while [pathFound] is set. *)
Definition shownPath {R : RandomEngine} (m : Maze R) : list Vector2i :=
  if pathFound m then path m else [].

(** While [pathFound] is set, the stored path runs through open cells. *)
Definition pathOpen {R : RandomEngine} (m : Maze R) : Prop :=
  Forall (λ p, walkable (cells m) p = true) (shownPath m).


(** ** The GLUT callbacks

    The callbacks act on two globals: [Maze::instance], a pointer to the
    session that is null until [main] has built it, and [lastAutoMoveTime].
    A callback is a function from the globals to the new globals and to what
    it sends outside: console lines, requests to GLUT and the calls of
    [draw].  The steady clock is kept abstract: the events carry the time
    points that [steady_clock::now()] returns, and the comparison of the
    elapsed time with [autoMoveInterval] is an operation of the clock. *)

Class SteadyClock := {
  TimePoint : Type;
  (** [duration<float>(now - last).count() >= autoMoveInterval] *)
  intervalElapsed : TimePoint → TimePoint → bool
}.

(** A concrete clock, used to run the model on examples: time points in
    nanoseconds. *)
Definition NanoClock : SteadyClock := {|
  TimePoint := Z;
  intervalElapsed := λ last now, 20000000 <=? now - last
|}.

Inductive Effect :=
  | Cout (line : string)
  | Render (calls : list DrawCall)
  | GlutPostRedisplay
  | GlutTimerFunc (msecs : Z).

Section Callbacks.
Context {R : RandomEngine} {C : SteadyClock}.

Record App := mkApp {
  instance : option (Maze R);
  lastAutoMoveTime : TimePoint
}.

(** What a callback leaves: [Exited] after [exit(0)]. *)
Inductive Outcome :=
  | Exited
  | Running (a : App) (out : list Effect).

Definition isAutoMoving (m : Maze R) : bool := autoMoving m.

Definition display (a : App) : option Outcome :=
  match instance a with
  | Some m => calls ← draw m; Some (Running a [Render calls])
  | None => Some (Running a [])
  end.

(** [keyboard]; [key] is the [unsigned char] of the key: 32 is the space,
    114 and 82 are r and R, 110 and 78 are n and N, 97 and 65 are a and A,
    27 is ESC. *)
Definition keyboard (key : Z) (now : TimePoint) (a : App) : option Outcome :=
  match instance a with
  | None => Some (Running a [])
  | Some m =>
      if key =? 32 then
        m' ← findPathBFS m;
        Some (Running (mkApp (Some m') (lastAutoMoveTime a))
                      [Cout "Show shortest path"; GlutPostRedisplay])
      else if (key =? 114) || (key =? 82) then
        m' ← reset m;
        Some (Running (mkApp (Some m') (lastAutoMoveTime a))
                      [Cout "Reset maze"; GlutPostRedisplay])
      else if (key =? 110) || (key =? 78) then
        m' ← generateNewMaze m;
        Some (Running (mkApp (Some m') (lastAutoMoveTime a))
                      [Cout "Generate new maze"; GlutPostRedisplay])
      else if (key =? 97) || (key =? 65) then
        m' ← prepareAutoMove m;
        Some (Running (mkApp (Some m') now)
                      [Cout "Start auto-solve"; GlutPostRedisplay])
      else if key =? 27 then Some Exited
      else Some (Running a [GlutPostRedisplay])
  end.

(** The callback [specialKeys] with its request to redraw; the function
    [specialKeys] above is its effect on the session. *)
Definition specialKeysCallback (key : SpecialKey) (a : App) : option Outcome :=
  match instance a with
  | None => Some (Running a [])
  | Some m =>
      if isAutoMoving m then Some (Running a [])
      else
        m' ← specialKeys key m;
        Some (Running (mkApp (Some m') (lastAutoMoveTime a)) [GlutPostRedisplay])
  end.

Definition timer (now : TimePoint) (a : App) : option Outcome :=
  match instance a with
  | Some m =>
      if isAutoMoving m then
        if intervalElapsed (lastAutoMoveTime a) now then
          '(_, m') ← autoMoveStep m;
          Some (Running (mkApp (Some m') now)
                        [GlutPostRedisplay; GlutTimerFunc 16])
        else Some (Running a [GlutTimerFunc 16])
      else Some (Running a [GlutTimerFunc 16])
  | None => Some (Running a [GlutTimerFunc 16])
  end.

(** [main] up to [glutMainLoop]: the session is built and registered, the
    timer is armed and the controls are printed.  [seed] is the engine after
    [rng.seed] and [t0] the initial value of [lastAutoMoveTime]; the set-up
    of the window and of the projection is left out. *)
Definition main (seed : Rng) (t0 : TimePoint) : option Outcome :=
  m ← newMaze seed;
  Some (Running (mkApp (Some m) t0)
          [GlutTimerFunc 0;
           Cout "Maze controls:";
           Cout "Arrow keys - move player";
           Cout "Space      - show shortest path";
           Cout "R          - reset maze";
           Cout "N          - generate new maze";
           Cout "A          - auto-solve";
           Cout "ESC        - quit"]).

(** What [glutMainLoop] delivers. *)
Inductive Event :=
  | EvDisplay
  | EvKeyboard (key : Z) (now : TimePoint)
  | EvSpecial (key : SpecialKey)
  | EvTimer (now : TimePoint).

Definition dispatch (e : Event) (a : App) : option Outcome :=
  match e with
  | EvDisplay => display a
  | EvKeyboard key now => keyboard key now a
  | EvSpecial key => specialKeysCallback key a
  | EvTimer now => timer now a
  end.

(** The globals of a running program: those that [main] sets up and those
    that any sequence of events leads to. *)
Inductive appState : App → Prop :=
  | app_main seed t0 a out : main seed t0 = Some (Running a out) → appState a
  | app_event e a a' out :
      appState a → dispatch e a = Some (Running a' out) → appState a'.

(** The player follows the animation path: while an animation runs, the
    player stands on the cell that [currentMoveIndex] designates on
    [movePath], a path of neighbouring cells that ends on the target. *)
Definition onTrack (m : Maze R) : Prop :=
  autoMoving m = true →
  ∃ i : nat,
    currentMoveIndex m = Z.of_nat i ∧
    movePath m !! i = Some (playerPos m) ∧
    last (movePath m) = Some (targetPos m) ∧
    ∀ j p q, movePath m !! j = Some p → movePath m !! S j = Some q →
             adjacent p q.

(** The operations that the callbacks run, with the guards of
    [specialKeys] and [timer]. *)
Definition guarded (o : Op) (m : Maze R) : Prop :=
  match o with
  | OpMovePlayer _ _ => autoMoving m = false
  | OpAutoMoveStep => autoMoving m = true
  | _ => True
  end.

End Callbacks.

Arguments App : clear implicits.
Arguments Outcome : clear implicits.

(** The program started with the engine seeded with 42 at time 0, after the
    key A has been pressed at time 0. *)
Definition exampleApp : App LcgEngine NanoClock :=
  mkApp (Some exampleSolving) (0 : @TimePoint NanoClock).


(** The cell that [reset] leaves at [(x, y)] of the grid [g]. *)
Definition resetView (g : Grid) (x y : Z) : option Cell :=
  (λ c, mkCell (cell_x c) (cell_y c) (resetKind (V2 x y) (type c)) false)
    <$> cellAt g x y.


(** ** Simple paths

    [spath E a l b]: [l] lists the nodes after [a] of a path from [a] to [b]
    along [E] that visits no node twice. *)
Inductive spath {V} (E : V → V → Prop) : V → list V → V → Prop :=
  | spath_nil a : spath E a [] a
  | spath_cons a x l b :
      E a x → a ∉ x :: l → spath E x l b → spath E a (x :: l) b.

(** A simple path through the open cells of a grid, from [a] to [b]. *)
Definition simpleTrail (g : Grid) (a : Vector2i) (l : list Vector2i)
    (b : Vector2i) : Prop :=
  stepsFrom g a l ∧ NoDup (a :: l) ∧ last (a :: l) = Some b.

(** Between two open cells there is at most one simple path. *)
Definition uniquePaths (g : Grid) : Prop :=
  ∀ a b l1 l2, walkable g a = true →
    simpleTrail g a l1 b → simpleTrail g a l2 b → l1 = l2.

(** The solution of the concrete session, cell by cell. *)
Definition exampleSolution : list Vector2i :=
  Eval vm_compute in path exampleSearched.


(** The cells that [getUnvisitedNeighbors] may return: inside the outer
    ring. *)
Definition isInterior (p : Vector2i) : bool :=
  (1 <=? vx p) && (vx p <? MAZE_WIDTH - 1) &&
  (1 <=? vy p) && (vy p <? MAZE_HEIGHT - 1).


(** ** The order in which the search expands

    [findPathBFS] tries the neighbours of a cell in the order of
    [directions].  The rank of a step is the position of its direction in
    that list; a path is read as the list of the ranks of its steps, and
    two paths are compared in the lexicographic order of those lists. *)

Fixpoint rankIn (dirs : list Vector2i) (p q : Vector2i) : nat :=
  match dirs with
  | [] => 0
  | d :: dirs' => if decide (q = offset p d) then 0 else S (rankIn dirs' p q)
  end.

Definition stepRank (p q : Vector2i) : nat := rankIn directions p q.

Fixpoint ranks (p : Vector2i) (l : list Vector2i) : list nat :=
  match l with
  | [] => []
  | q :: l' => stepRank p q :: ranks q l'
  end.

Fixpoint lexLt (s t : list nat) : Prop :=
  match s, t with
  | a :: s', b :: t' => (a < b)%nat ∨ (a = b ∧ lexLt s' t')
  | _, _ => False
  end.

(** The invariant of the search on the order of discovery.  [tp p] is the
    path from [src] to the visited cell [p] that the parent map records;
    [k] counts the directions already tried for the cell being expanded. *)
Record bfsOrd (g0 : Grid) (src : Vector2i) (A B : list Vector2i)
    (current : option Vector2i) (k : nat) (g : Grid)
    (parentMap : gmap Z Vector2i) (tp : Vector2i → list Vector2i) : Prop := {
  ord_src : tp src = [];
  ord_parent : ∀ p, visitedAt g p = true → p ≠ src →
    ∃ par, parentMap !! parentKey (vx p) (vy p) = Some par ∧
           visitedAt g par = true ∧ tp p = tp par ++ [p];
  ord_trail : ∀ p, visitedAt g p = true → trail g0 src (tp p) p;
  ord_len : ∀ p, visitedAt g p = true → distance g0 src p (length (tp p));
  ord_min : ∀ p l, visitedAt g p = true → trail g0 src l p →
    length l = length (tp p) →
    l = tp p ∨ lexLt (ranks src (tp p)) (ranks src l);
  ord_A : ∀ i j a b, (i < j)%nat → A !! i = Some a → A !! j = Some b →
    lexLt (ranks src (tp a)) (ranks src (tp b));
  ord_B : ∀ i j a b, (i < j)%nat → B !! i = Some a → B !! j = Some b →
    lexLt (ranks src (tp a)) (ranks src (tp b));
  ord_cur : ∀ c a, current = Some c → a ∈ A →
    lexLt (ranks src (tp c)) (ranks src (tp a));
  ord_kids : ∀ b, b ∈ B →
    ∃ par, visitedAt g par = true ∧ tp b = tp par ++ [b] ∧
      (∀ a, a ∈ A → lexLt (ranks src (tp par)) (ranks src (tp a))) ∧
      (∀ c, current = Some c →
         (par = c ∧ (stepRank c b < k)%nat) ∨
         lexLt (ranks src (tp par)) (ranks src (tp c)))
}.

(** ** Two more concrete sessions

    A grid of walls with a block of 2x2 open cells, the player in one corner
    of the block and the target in the opposite corner: two paths of two
    steps lead to the target.  And the maze of the concrete session after a
    search, with the two cells next to the target turned into walls: the
    target cannot be reached, while the flags, the path and [pathFound] of
    the earlier search are still in place. *)
Definition blankGrid : Grid :=
  replicate (Z.to_nat MAZE_HEIGHT) (replicate (Z.to_nat MAZE_WIDTH) defaultCell).

Definition tieGrid : Grid :=
  default []
    (g1 ← setType PLAYER blankGrid 1 1;
     g2 ← setType PATH g1 2 1;
     g3 ← setType PATH g2 1 2;
     setType TARGET g3 2 2).

Definition exampleTie : Maze LcgEngine :=
  mkMaze tieGrid [] [] (V2 1 1) (V2 2 2) false false 0 (lcgSeed 0).

Definition exampleTieSearched : Maze LcgEngine :=
  default emptySession (findPathBFS exampleTie).

Definition exampleTieStale : Maze LcgEngine :=
  withRng (lcgSeed 5) (withMovePath [V2 3 3] exampleTieSearched).

Definition wallOff (g : Grid) : Grid :=
  default g (g1 ← setType WALL g 18 19; setType WALL g1 19 18).

Definition exampleWalled : Maze LcgEngine :=
  withCells (wallOff (cells exampleSearched)) exampleSearched.


(** * Proofs *)

Ltac zlia := Z.to_euclidean_division_equations; lia.

(** Reduce the projections of an explicit [Maze] and nothing else. *)
Ltac fields :=
  cbn [cells path movePath playerPos targetPos pathFound autoMoving
       currentMoveIndex rng withCells withRng withPath withPathFound
       withPlayerPos withTargetPos withAutoMoving withMovePath
       withCurrentMoveIndex] in *.

(** ** Integers *)

Lemma Vector2i_eqb_eq a b : Vector2i_eqb a b = true ↔ a = b.
Proof.
  unfold Vector2i_eqb. destruct a, b; simpl.
  rewrite andb_true_iff, !Z.eqb_eq. split; [intros [-> ->]|intros [= -> ->]]; done.
Qed.

Lemma Vector2i_eqb_refl a : Vector2i_eqb a a = true.
Proof. by apply Vector2i_eqb_eq. Qed.

Lemma Vector2i_eqb_neq a b : Vector2i_eqb a b = false ↔ a ≠ b.
Proof.
  rewrite <- Vector2i_eqb_eq. destruct (Vector2i_eqb a b); split; congruence.
Qed.

Lemma CellType_eqb_eq a b : CellType_eqb a b = true ↔ a = b.
Proof. destruct a, b; simpl; split; congruence. Qed.

Lemma CellType_eqb_neq a b : CellType_eqb a b = false ↔ a ≠ b.
Proof. destruct a, b; simpl; split; congruence. Qed.

Lemma wrap_int_small z : is_int z → wrap_int z = z.
Proof.
  unfold is_int, INT_MIN, INT_MAX, wrap_int. intros H.
  rewrite Z.mod_small; lia.
Qed.

Lemma wrap_int_range z : is_int (wrap_int z).
Proof.
  unfold is_int, INT_MIN, INT_MAX, wrap_int.
  pose proof (Z.mod_pos_bound (z + 2 ^ 31) (2 ^ 32)). lia.
Qed.

Lemma isValidPosition_spec x y :
  isValidPosition x y = true ↔ 0 ≤ x < MAZE_WIDTH ∧ 0 ≤ y < MAZE_HEIGHT.
Proof. unfold isValidPosition. lia. Qed.

(** For a coordinate of the grid and an [int] offset, the wrapped sum is in
    range exactly when the mathematical sum is. *)
Lemma int_add_in_range a d n :
  0 ≤ a < n → n ≤ 1000 → is_int d →
  (0 ≤ int_add a d < n ↔ 0 ≤ a + d < n) ∧
  (0 ≤ a + d < n → int_add a d = a + d).
Proof.
  unfold is_int, INT_MIN, INT_MAX, int_add, wrap_int. intros Ha Hn Hd.
  destruct (Z_lt_le_dec (a + d) (2 ^ 31)) as [Hlt|Hge].
  - rewrite Z.mod_small by lia. lia.
  - replace (a + d + 2 ^ 31) with (a + d - 2 ^ 31 + 1 * 2 ^ 32) by lia.
    rewrite Z.mod_add by lia. rewrite Z.mod_small by lia. lia.
Qed.

(** ** The grid *)

Lemma cellAt_Some g x y c :
  cellAt g x y = Some c →
  0 ≤ x ∧ 0 ≤ y ∧ ∃ row, g !! Z.to_nat y = Some row ∧ row !! Z.to_nat x = Some c.
Proof.
  unfold cellAt. destruct (0 <=? x) eqn:Hx, (0 <=? y) eqn:Hy; simpl; try done.
  destruct (g !! Z.to_nat y) as [row|] eqn:Hrow; simpl; [|done].
  intros Hc. repeat split; [lia..|eauto].
Qed.

Lemma cellAt_valid g x y :
  gridOK g → isValidPosition x y = true → is_Some (cellAt g x y).
Proof.
  intros [Hlen Hrows] Hv. apply isValidPosition_spec in Hv.
  unfold cellAt. replace ((0 <=? x) && (0 <=? y)) with true by lia.
  destruct (lookup_lt_is_Some_2 g (Z.to_nat y)) as [row Hrow]; [lia|].
  rewrite Hrow. simpl. apply lookup_lt_is_Some_2.
  rewrite Forall_lookup in Hrows. rewrite (Hrows _ _ Hrow). lia.
Qed.

Lemma cellAt_Some_valid g x y c :
  gridOK g → cellAt g x y = Some c → isValidPosition x y = true.
Proof.
  intros [Hlen Hrows] (Hx & Hy & row & Hrow & Hc)%cellAt_Some.
  apply isValidPosition_spec.
  apply lookup_lt_Some in Hrow as Hy'.
  rewrite Forall_lookup in Hrows. apply Hrows in Hrow.
  apply lookup_lt_Some in Hc. lia.
Qed.

Lemma updCell_Some f g x y g' :
  updCell f g x y = Some g' →
  ∃ c, cellAt g x y = Some c ∧ cellAt g' x y = Some (f c).
Proof.
  unfold updCell, cellAt.
  destruct ((0 <=? x) && (0 <=? y)); [|done].
  destruct (g !! Z.to_nat y) as [row|] eqn:Hrow; simpl; [|done].
  destruct (row !! Z.to_nat x) as [c|] eqn:Hc; simpl; [|done].
  intros [= <-]. exists c. split; [done|].
  rewrite list_lookup_insert_eq by (by eapply lookup_lt_Some). simpl.
  apply list_lookup_insert_eq. by eapply lookup_lt_Some.
Qed.

Lemma updCell_other f g x y g' x' y' :
  updCell f g x y = Some g' → (x', y') ≠ (x, y) →
  cellAt g' x' y' = cellAt g x' y'.
Proof.
  unfold updCell, cellAt.
  destruct (0 <=? x) eqn:Hx, (0 <=? y) eqn:Hy; simpl; try done.
  destruct (g !! Z.to_nat y) as [row|] eqn:Hrow; simpl; [|done].
  destruct (row !! Z.to_nat x) as [c|] eqn:Hc; simpl; [|done].
  intros [= <-] Hne.
  destruct ((0 <=? x') && (0 <=? y')) eqn:Hpos; [|done].
  destruct (decide (Z.to_nat y' = Z.to_nat y)) as [Hy'|Hy'].
  - rewrite Hy', list_lookup_insert_eq by (by eapply lookup_lt_Some).
    rewrite Hrow. simpl. apply list_lookup_insert_ne.
    intros Hx'. apply Hne. f_equal; lia.
  - by rewrite list_lookup_insert_ne.
Qed.

Lemma updCell_defined f g x y :
  is_Some (cellAt g x y) → is_Some (updCell f g x y).
Proof.
  unfold updCell, cellAt. intros [c Hc].
  destruct ((0 <=? x) && (0 <=? y)); [|done].
  destruct (g !! Z.to_nat y) as [row|]; simpl in *; [|done].
  rewrite Hc. simpl. eauto.
Qed.

Lemma updCell_gridOK f g x y g' :
  gridOK g → updCell f g x y = Some g' → gridOK g'.
Proof.
  unfold updCell. intros [Hlen Hrows].
  destruct ((0 <=? x) && (0 <=? y)); [|done].
  destruct (g !! Z.to_nat y) as [row|] eqn:Hrow; simpl; [|done].
  destruct (row !! Z.to_nat x) as [c|] eqn:Hc; simpl; [|done].
  intros [= <-]. split; [by rewrite length_insert|].
  rewrite Forall_lookup in Hrows. apply Forall_insert; [by apply Forall_lookup|].
  rewrite length_insert. eauto.
Qed.

Lemma cellAt_map f (g : Grid) x y :
  cellAt (map (map f) g) x y = f <$> cellAt g x y.
Proof.
  unfold cellAt. destruct ((0 <=? x) && (0 <=? y)); [|done].
  rewrite list_lookup_fmap. destruct (g !! Z.to_nat y) as [row|]; simpl; [|done].
  apply list_lookup_fmap.
Qed.

Lemma map_gridOK f (g : Grid) : gridOK g → gridOK (map (map f) g).
Proof.
  intros [Hlen Hrows]. split; [by rewrite length_map|].
  apply Forall_fmap. eapply Forall_impl; [done|].
  intros row Hrow. simpl. by rewrite length_map.
Qed.

Lemma V2_eta p : V2 (vx p) (vy p) = p.
Proof. by destruct p. Qed.

Lemma pos_neq p x y : p ≠ V2 x y → (vx p, vy p) ≠ (x, y).
Proof. intros Hne [= <- <-]. by destruct p. Qed.

(** Views of a cell after an assignment to one field of one cell. *)
Lemma setType_typeAt t g x y g' p :
  setType t g x y = Some g' →
  typeAt g' p = if decide (p = V2 x y) then t else typeAt g p.
Proof.
  intros H. unfold typeAt, cellP. case_decide as Hp.
  - subst p. simpl. apply updCell_Some in H as (c & _ & ->). done.
  - by rewrite (updCell_other _ _ _ _ _ _ _ H (pos_neq _ _ _ Hp)).
Qed.

Lemma setType_visitedAt t g x y g' p :
  setType t g x y = Some g' → visitedAt g' p = visitedAt g p.
Proof.
  intros H. unfold visitedAt, cellP. destruct (decide (p = V2 x y)) as [->|Hp].
  - simpl. apply updCell_Some in H as (c & -> & ->). done.
  - by rewrite (updCell_other _ _ _ _ _ _ _ H (pos_neq _ _ _ Hp)).
Qed.

Lemma setVisited_typeAt b g x y g' p :
  setVisited b g x y = Some g' → typeAt g' p = typeAt g p.
Proof.
  intros H. unfold typeAt, cellP. destruct (decide (p = V2 x y)) as [->|Hp].
  - simpl. apply updCell_Some in H as (c & -> & ->). done.
  - by rewrite (updCell_other _ _ _ _ _ _ _ H (pos_neq _ _ _ Hp)).
Qed.

Lemma setVisited_visitedAt b g x y g' p :
  setVisited b g x y = Some g' →
  visitedAt g' p = if decide (p = V2 x y) then b else visitedAt g p.
Proof.
  intros H. unfold visitedAt, cellP. case_decide as Hp.
  - subst p. simpl. apply updCell_Some in H as (c & _ & ->). done.
  - by rewrite (updCell_other _ _ _ _ _ _ _ H (pos_neq _ _ _ Hp)).
Qed.

Lemma setType_typeAt_pos t g q g' :
  setType t g (vx q) (vy q) = Some g' →
  ∀ p, typeAt g' p = if decide (p = q) then t else typeAt g p.
Proof. intros H p. rewrite (setType_typeAt _ _ _ _ _ p H). by rewrite V2_eta. Qed.

Lemma setVisited_visitedAt_pos b g q g' :
  setVisited b g (vx q) (vy q) = Some g' →
  ∀ p, visitedAt g' p = if decide (p = q) then b else visitedAt g p.
Proof. intros H p. rewrite (setVisited_visitedAt _ _ _ _ _ p H). by rewrite V2_eta. Qed.

Lemma setType_defined t g x y :
  gridOK g → isValidPosition x y = true → is_Some (setType t g x y).
Proof. intros. by apply updCell_defined, cellAt_valid. Qed.

Lemma setVisited_defined b g x y :
  gridOK g → isValidPosition x y = true → is_Some (setVisited b g x y).
Proof. intros. by apply updCell_defined, cellAt_valid. Qed.

Lemma setType_gridOK t g x y g' :
  gridOK g → setType t g x y = Some g' → gridOK g'.
Proof. apply updCell_gridOK. Qed.

Lemma setVisited_gridOK b g x y g' :
  gridOK g → setVisited b g x y = Some g' → gridOK g'.
Proof. apply updCell_gridOK. Qed.

Lemma clearVisited_typeAt g p : typeAt (clearVisited g) p = typeAt g p.
Proof.
  unfold typeAt, cellP, clearVisited. rewrite cellAt_map.
  by destruct (cellAt g (vx p) (vy p)).
Qed.

Lemma clearVisited_visitedAt g p : visitedAt (clearVisited g) p = false.
Proof.
  unfold visitedAt, cellP, clearVisited. rewrite cellAt_map.
  by destruct (cellAt g (vx p) (vy p)).
Qed.

Lemma typeAt_not_WALL_valid g p : gridOK g → typeAt g p ≠ WALL → validPos p.
Proof.
  unfold typeAt, cellP, validPos. intros Hg Ht.
  destruct (cellAt g (vx p) (vy p)) eqn:Hc; [|done].
  by eapply cellAt_Some_valid.
Qed.

Lemma walkable_spec g p :
  walkable g p = true ↔ validPos p ∧ typeAt g p ≠ WALL.
Proof.
  unfold walkable, validPos. rewrite andb_true_iff, negb_true_iff.
  by rewrite CellType_eqb_neq.
Qed.

(** ** Manual movement *)

Section Movement.
Context {R : RandomEngine}.

Lemma movePlayer_target_valid (m : Maze R) dx dy :
  validPos (playerPos m) → is_int dx → is_int dy →
  let newX := int_add (vx (playerPos m)) dx in
  let newY := int_add (vy (playerPos m)) dy in
  isValidPosition newX newY
    = isValidPosition (vx (playerPos m) + dx) (vy (playerPos m) + dy) ∧
  (isValidPosition newX newY = true →
   newX = vx (playerPos m) + dx ∧ newY = vy (playerPos m) + dy).
Proof.
  intros Hp Hdx Hdy newX newY. apply isValidPosition_spec in Hp as [Hx Hy].
  destruct (int_add_in_range (vx (playerPos m)) dx MAZE_WIDTH) as [Hx1 Hx2];
    [done|unfold MAZE_WIDTH; lia|done|].
  destruct (int_add_in_range (vy (playerPos m)) dy MAZE_HEIGHT) as [Hy1 Hy2];
    [done|unfold MAZE_HEIGHT; lia|done|].
  split.
  - apply eq_true_iff_eq. rewrite !isValidPosition_spec. subst newX newY. lia.
  - intros Hv%isValidPosition_spec. subst newX newY. split; [apply Hx2|apply Hy2]; lia.
Qed.

(** C3, as the code has it: the move succeeds exactly when the destination is
    in bounds and not a wall.  On success the old player cell is written
    [PATH] and then the destination [PLAYER], so the destination ends
    [PLAYER], the old cell ends [PATH] when it is another cell, no other cell
    changes and no other field of the session does; on failure the whole
    state is unchanged. *)
Theorem movePlayer_spec (m : Maze R) (dx dy : Z) :
  gridOK (cells m) → validPos (playerPos m) → is_int dx → is_int dy →
  let dest := V2 (vx (playerPos m) + dx) (vy (playerPos m) + dy) in
  ∃ m', movePlayer dx dy m = Some (walkable (cells m) dest, m') ∧
    if walkable (cells m) dest then
      m' = withCells (cells m') (withPlayerPos dest m) ∧
      gridOK (cells m') ∧
      typeAt (cells m') dest = PLAYER ∧
      (dest ≠ playerPos m → typeAt (cells m') (playerPos m) = PATH) ∧
      (∀ q, q ≠ dest → q ≠ playerPos m →
            typeAt (cells m') q = typeAt (cells m) q) ∧
      (∀ q, visitedAt (cells m') q = visitedAt (cells m) q)
    else m' = m.
Proof.
  intros Hg Hp Hdx Hdy dest.
  destruct (movePlayer_target_valid m dx dy Hp Hdx Hdy) as [Hv Hsum].
  unfold movePlayer. unfold walkable, dest at 1 2. simpl vx. simpl vy.
  rewrite Hv.
  destruct (isValidPosition (vx (playerPos m) + dx) (vy (playerPos m) + dy))
    eqn:Hvalid; simpl; [|by eexists].
  destruct Hsum as [-> ->]; [by rewrite Hv|].
  destruct (cellAt_valid _ _ _ Hg Hvalid) as [c Hc]. rewrite Hc. simpl.
  assert (typeAt (cells m) dest = type c) as Ht.
  { unfold typeAt, cellP, dest. simpl. by rewrite Hc. }
  fold dest. rewrite Ht.
  destruct (CellType_eqb (type c) WALL) eqn:Hw; simpl; [by eexists|].
  destruct (setType_defined PATH _ _ _ Hg Hp) as [g1 Hg1]. rewrite Hg1. simpl.
  pose proof (setType_gridOK _ _ _ _ _ Hg Hg1) as Hgok1.
  destruct (setType_defined PLAYER _ _ _ Hgok1 Hvalid) as [g2 Hg2].
  rewrite Hg2. simpl. eexists. split; [done|]. simpl.
  split; [done|]. split; [by eapply setType_gridOK|].
  split; [|split; [|split]].
  - rewrite (setType_typeAt _ _ _ _ _ dest Hg2). by rewrite decide_True.
  - intros Hne. rewrite (setType_typeAt _ _ _ _ _ _ Hg2).
    rewrite decide_False by done.
    rewrite (setType_typeAt_pos _ _ _ _ Hg1). by rewrite decide_True.
  - intros q Hq1 Hq2. rewrite (setType_typeAt _ _ _ _ _ _ Hg2).
    rewrite decide_False by done.
    rewrite (setType_typeAt_pos _ _ _ _ Hg1). by rewrite decide_False.
  - intros q. rewrite (setType_visitedAt _ _ _ _ _ _ Hg2).
    by rewrite (setType_visitedAt _ _ _ _ _ _ Hg1).
Qed.

End Movement.

(** ** Positions, counting and paths *)

Lemma elem_of_seqZ0 n x : x ∈ seqZ0 n ↔ 0 ≤ x < n.
Proof.
  unfold seqZ0. rewrite list_elem_of_fmap. split.
  - intros (k & -> & Hk%elem_of_seq). lia.
  - intros Hx. exists (Z.to_nat x). rewrite elem_of_seq. lia.
Qed.

Lemma elem_of_allPositions p : p ∈ allPositions ↔ validPos p.
Proof.
  unfold allPositions, validPos. rewrite isValidPosition_spec, list_elem_of_bind.
  split.
  - intros (y & (x & Hp & Hx%elem_of_seqZ0)%list_elem_of_bind & Hy%elem_of_seqZ0).
    apply list_elem_of_singleton in Hp as ->. done.
  - intros [Hx Hy]. exists (vy p). split; [|by apply elem_of_seqZ0].
    apply list_elem_of_bind. exists (vx p). split; [|by apply elem_of_seqZ0].
    apply list_elem_of_singleton. by destruct p.
Qed.

Lemma NoDup_allPositions : NoDup allPositions.
Proof. apply (bool_decide_unpack _). by vm_compute. Qed.

Lemma length_allPositions : length allPositions = CELL_COUNT.
Proof. reflexivity. Qed.

Lemma filter_length_same {A} (P Q : A → Prop)
    `{!∀ x, Decision (P x)} `{!∀ x, Decision (Q x)} (l : list A) :
  (∀ p, p ∈ l → P p ↔ Q p) → length (filter P l) = length (filter Q l).
Proof.
  induction l as [|x l IH]; [done|]. intros Hiff.
  rewrite !filter_cons.
  assert (length (filter P l) = length (filter Q l)) as Hl.
  { apply IH. intros p Hp. apply Hiff. by right. }
  pose proof (Hiff x (list_elem_of_here x l)) as Hx.
  destruct (decide (P x)), (decide (Q x)); simpl; rewrite ?Hl; try done; tauto.
Qed.

(** Flipping a decidable predicate at one point of a duplicate-free list
    changes the number of elements that satisfy it by one. *)
Lemma filter_length_flip {A} (P Q : A → Prop)
    `{!∀ x, Decision (P x)} `{!∀ x, Decision (Q x)} (l : list A) (q : A) :
  NoDup l → q ∈ l → P q → ¬ Q q → (∀ p, p ∈ l → p ≠ q → P p ↔ Q p) →
  length (filter P l) = S (length (filter Q l)).
Proof.
  intros Hnd Hq HP HQ Hiff. induction Hnd as [|x l Hx Hnd IH]; [by inversion Hq|].
  apply elem_of_cons in Hq as [<-|Hq].
  - rewrite filter_cons_True, filter_cons_False by done. simpl. f_equal.
    apply filter_length_same. intros p Hp. apply Hiff; [by right|]. by intros ->.
  - assert (x ≠ q) as Hne by (by intros ->).
    rewrite !filter_cons. pose proof (Hiff x (list_elem_of_here _ _) Hne) as Hx'.
    assert (length (filter P l) = S (length (filter Q l))) as IH'.
    { apply IH; [done|]. intros p Hp. apply Hiff. by right. }
    destruct (decide (P x)), (decide (Q x));
      simpl; rewrite ?IH'; try done; tauto.
Qed.

Lemma unvisitedCount_setVisited g q g' :
  validPos q → visitedAt g q = false →
  setVisited true g (vx q) (vy q) = Some g' →
  unvisitedCount g = S (unvisitedCount g').
Proof.
  intros Hq Hu Hset. unfold unvisitedCount.
  apply (filter_length_flip _ _ _ q).
  - apply NoDup_allPositions.
  - by apply elem_of_allPositions.
  - done.
  - rewrite (setVisited_visitedAt_pos _ _ _ _ Hset). by rewrite decide_True.
  - intros p _ Hp. rewrite (setVisited_visitedAt_pos _ _ _ _ Hset).
    by rewrite decide_False.
Qed.

Lemma unvisitedCount_bound g : (unvisitedCount g ≤ CELL_COUNT)%nat.
Proof. unfold unvisitedCount. rewrite <- length_allPositions. apply length_filter. Qed.

Lemma parentKey_inj p q :
  validPos p → validPos q →
  parentKey (vx p) (vy p) = parentKey (vx q) (vy q) → p = q.
Proof.
  unfold validPos, parentKey. rewrite !isValidPosition_spec.
  unfold MAZE_WIDTH, MAZE_HEIGHT. destruct p, q; simpl. intros ? ? ?.
  f_equal; lia.
Qed.

Lemma adjacent_offset p d : d ∈ directions → adjacent p (offset p d).
Proof. intros Hd. by exists d. Qed.

Lemma walkable_ext g g' p :
  (∀ q, typeAt g q = typeAt g' q) → walkable g p = walkable g' p.
Proof. intros H. unfold walkable. by rewrite H. Qed.

Lemma walk_ext g g' src n q :
  (∀ p, typeAt g p = typeAt g' p) → walk g src n q → walk g' src n q.
Proof.
  intros H Hw. induction Hw as [|n q r Hw IH Hadj Hr]; [constructor|].
  econstructor; [done..|]. by rewrite <- (walkable_ext g g').
Qed.

Lemma walk_zero g src q : walk g src 0 q → q = src.
Proof. by inversion 1. Qed.

Lemma distance_ext g g' src n q :
  (∀ p, typeAt g p = typeAt g' p) → distance g src q n → distance g' src q n.
Proof.
  intros H [Hw Hmin]. split; [by eapply walk_ext|].
  intros k Hk. apply Hmin. eapply walk_ext; [|done]. done.
Qed.

Lemma distance_unique g src q n n' :
  distance g src q n → distance g src q n' → n = n'.
Proof. intros [Hw Hmin] [Hw' Hmin']. apply Hmin in Hw'. apply Hmin' in Hw. lia. Qed.

Lemma distance_src g src : distance g src src 0.
Proof. split; [constructor|]. intros; lia. Qed.

Lemma trail_walk g src l q : trail g src l q → walk g src (length l) q.
Proof.
  induction 1 as [|l q r Ht IH Hadj Hr]; [constructor|].
  rewrite length_app. simpl. rewrite Nat.add_1_r. by econstructor.
Qed.

Lemma walk_reachable_valid g src n q :
  walk g src n q → q = src ∨ validPos q.
Proof.
  destruct 1 as [|n q r _ _ Hr]; [by left|right].
  by apply walkable_spec in Hr as [? _].
Qed.

(** ** Breadth-first search *)

Lemma visitedAt_true_valid g p : gridOK g → visitedAt g p = true → validPos p.
Proof.
  unfold visitedAt, cellP, validPos. intros Hg Hv.
  destruct (cellAt g (vx p) (vy p)) eqn:Hc; [|done].
  by eapply cellAt_Some_valid.
Qed.

Lemma cellAt_views g p c :
  cellAt g (vx p) (vy p) = Some c → typeAt g p = type c ∧ visitedAt g p = visited c.
Proof. unfold typeAt, visitedAt, cellP. by intros ->. Qed.

Lemma parentOK_mono g0 src g g' pm pm' p n :
  (∀ q, visitedAt g q = true → visitedAt g' q = true) →
  (p ≠ src → pm' !! parentKey (vx p) (vy p) = pm !! parentKey (vx p) (vy p)) →
  parentOK g0 src g pm p n → parentOK g0 src g' pm' p n.
Proof.
  intros Hvis Hpm [H|(Hne & par & n' & -> & Hlook & Hpar & Hrest)]; [by left|].
  right. split; [done|]. exists par, n'. rewrite Hpm by done. eauto.
Qed.

(** One direction of the expansion of [cur]. *)
Lemma bfsVisit_inv g0 src tgt d A B cur g pm dir :
  bfsInv g0 src tgt d A B (Some cur) g pm → dir ∈ directions →
  ∃ g' B' pm',
    bfsVisit cur dir (g, A ++ B, pm) = Some (g', A ++ B', pm') ∧
    bfsInv g0 src tgt d A B' (Some cur) g' pm' ∧
    (∀ q, visitedAt g q = true → visitedAt g' q = true) ∧
    (walkable g0 (offset cur dir) = true →
       visitedAt g' (offset cur dir) = true) ∧
    (length B' + unvisitedCount g' = length B + unvisitedCount g)%nat.
Proof.
  intros Inv Hdir. pose proof Inv as [Hg Hty Hsrc Hvis HA HB Hcur Hcl Hnear].
  destruct (Hcur cur eq_refl) as (Hcv & Hcd & Hct).
  unfold bfsVisit. set (q := offset cur dir).
  change (vx cur + vx dir) with (vx q). change (vy cur + vy dir) with (vy q).
  assert ((walkable g0 q = true → visitedAt g q = true) →
    ∃ g' B' pm', Some (g, A ++ B, pm) = Some (g', A ++ B', pm') ∧
    bfsInv g0 src tgt d A B' (Some cur) g' pm' ∧
    (∀ q, visitedAt g q = true → visitedAt g' q = true) ∧
    (walkable g0 q = true → visitedAt g' q = true) ∧
    (length B' + unvisitedCount g' = length B + unvisitedCount g)%nat) as Hsame.
  { intros HX. by exists g, B, pm. }
  destruct (isValidPosition (vx q) (vy q)) eqn:Hvalid; cycle 1.
  { apply Hsame. intros [? _]%walkable_spec. unfold validPos in *. congruence. }
  destruct (cellAt_valid _ _ _ Hg Hvalid) as [c Hc]. rewrite Hc. simpl.
  destruct (cellAt_views _ _ _ Hc) as [Htc Hvc].
  destruct (visited c) eqn:Hvisc; simpl.
  { apply Hsame. by rewrite Hvc. }
  destruct (CellType_eqb (type c) WALL) eqn:Hwall; simpl.
  { apply Hsame. intros [_ Hw]%walkable_spec.
    apply CellType_eqb_eq in Hwall. rewrite <- Hty, Htc in Hw. done. }
  clear Hsame. apply CellType_eqb_neq in Hwall.
  change (vx cur + vx dir) with (vx q). change (vy cur + vy dir) with (vy q).
  change (V2 (vx q) (vy q)) with q.
  destruct (setVisited_defined true _ _ _ Hg Hvalid) as [g' Hg']. rewrite Hg'.
  simpl. exists g', (B ++ [q]), (<[parentKey (vx q) (vy q) := cur]> pm).
  pose proof (setVisited_visitedAt_pos _ _ _ _ Hg') as Hv'.
  assert (∀ p, visitedAt g p = true → visitedAt g' p = true) as Hmono.
  { intros p Hp. rewrite Hv'. by case_decide. }
  assert (walkable g0 q = true) as Hwq.
  { apply walkable_spec. split; [done|]. by rewrite <- Hty, Htc. }
  assert (distance g0 src q (S d)) as Hqd.
  { split; [econstructor; [apply Hcd|by apply adjacent_offset|done]|].
    intros k Hk. destruct (decide (k ≤ d)%nat) as [Hle|]; [|lia].
    rewrite (Hnear _ _ Hk Hle) in Hvc. done. }
  assert (unvisitedCount g = S (unvisitedCount g')) as Hcount.
  { apply (unvisitedCount_setVisited g q); [done|by rewrite Hvc|done]. }
  split; [by rewrite app_assoc|]. split; [|split; [done|split]].
  - split.
    + by eapply setVisited_gridOK.
    + intros p. by rewrite (setVisited_typeAt _ _ _ _ _ p Hg').
    + destruct Hsrc. split; [done|]. by apply Hmono.
    + intros p Hp. rewrite Hv' in Hp. case_decide as Hpq.
      * subst p. split; [done|]. exists (S d). split; [done|].
        split.
        { destruct (Hvis _ Hcv) as (_ & n & Hn & Hlt & _).
          rewrite (distance_unique _ _ _ _ _ Hn Hcd) in Hlt. lia. }
        right. split.
        { intros ->. destruct Hsrc as [_ Hs]. rewrite Hs in Hvc. done. }
        exists cur, d. rewrite lookup_insert_eq. repeat split; try done.
        -- by apply Hmono.
        -- by apply adjacent_offset.
        -- apply Hcd.
        -- apply Hcd.
      * destruct (Hvis _ Hp) as (Hpv & n & Hn & Hlt & Hpar).
        split; [done|]. exists n. split; [done|]. split; [lia|].
        eapply parentOK_mono; [exact Hmono| |exact Hpar].
        intros _. apply lookup_insert_ne. intros Hk.
        apply Hpq. symmetry. by apply parentKey_inj.
    + intros p Hp. destruct (HA _ Hp). split; [by apply Hmono|done].
    + intros p [Hp| ->%list_elem_of_singleton]%elem_of_app.
      * destruct (HB _ Hp). split; [by apply Hmono|done].
      * split; [|done]. rewrite Hv'. by rewrite decide_True.
    + intros c' [= <-]. split; [by apply Hmono|done].
    + intros p Hp HpA HpB Hpc. apply not_elem_of_app in HpB as [HpB Hpq].
      rewrite list_elem_of_singleton in Hpq.
      rewrite Hv', decide_False in Hp by done.
      destruct (Hcl p Hp HpA HpB Hpc) as [Hclosed Hpt]. split; [|done].
      intros r Hadj Hr. apply Hmono. apply Hclosed; [done|].
      rewrite <- Hr. apply walkable_ext. intros. symmetry.
      by rewrite (setVisited_typeAt _ _ _ _ _ _ Hg').
    + intros p k Hk Hle. apply Hmono. by eapply Hnear.
  - intros _. rewrite Hv'. by rewrite decide_True.
  - rewrite length_app. simpl. lia.
Qed.

Lemma bfsExpand_dirs g0 src tgt d A cur dirs :
  (∀ dir, dir ∈ dirs → dir ∈ directions) →
  ∀ B g pm, bfsInv g0 src tgt d A B (Some cur) g pm →
  ∃ g' B' pm',
    forEach (bfsVisit cur) dirs (g, A ++ B, pm) = Some (g', A ++ B', pm') ∧
    bfsInv g0 src tgt d A B' (Some cur) g' pm' ∧
    (∀ q, visitedAt g q = true → visitedAt g' q = true) ∧
    (∀ dir, dir ∈ dirs → walkable g0 (offset cur dir) = true →
       visitedAt g' (offset cur dir) = true) ∧
    (length B' + unvisitedCount g' = length B + unvisitedCount g)%nat.
Proof.
  induction dirs as [|dir dirs IH]; intros Hdirs B g pm Inv.
  - exists g, B, pm. do 3 (split; [done|]). split; [|done].
    intros dir Hdir. by inversion Hdir.
  - destruct (bfsVisit_inv _ _ _ _ _ _ _ _ _ dir Inv)
      as (g1 & B1 & pm1 & Hstep & Inv1 & Hmono1 & Hdone1 & Hcount1).
    { apply Hdirs. by left. }
    destruct (IH (λ x Hx, Hdirs x (list_elem_of_further _ _ _ Hx)) B1 g1 pm1 Inv1)
      as (g2 & B2 & pm2 & Hrest & Inv2 & Hmono2 & Hdone2 & Hcount2).
    exists g2, B2, pm2. cbn [forEach]. rewrite Hstep. cbn [mbind option_bind].
    rewrite Hrest.
    do 2 (split; [done|]). split; [|split].
    + intros q Hq. by apply Hmono2, Hmono1.
    + intros dir' [->|Hin]%elem_of_cons Hw; [by apply Hmono2, Hdone1|].
      by apply Hdone2.
    + lia.
Qed.

(** The whole [for] loop over [directions]: afterwards [cur] is closed. *)
Lemma bfsExpand_inv g0 src tgt d A B cur g pm :
  bfsInv g0 src tgt d A B (Some cur) g pm →
  ∃ g' B' pm',
    forEach (bfsVisit cur) directions (g, A ++ B, pm) = Some (g', A ++ B', pm') ∧
    bfsInv g0 src tgt d A B' None g' pm' ∧
    (length B' + unvisitedCount g' = length B + unvisitedCount g)%nat.
Proof.
  intros Inv.
  destruct (bfsExpand_dirs g0 src tgt d A cur directions (λ _ H, H) B g pm Inv)
    as (g' & B' & pm' & Hrun & Inv' & _ & Hdone & Hcount).
  exists g', B', pm'. split; [done|]. split; [|done].
  destruct Inv' as [Hg Hty Hsrc Hvis HA HB Hcur Hcl Hnear].
  split; try done.
  intros p Hp HpA HpB _. destruct (decide (p = cur)) as [->|Hne].
  - destruct (Hcur cur eq_refl) as (_ & _ & Hct). split; [|done].
    intros q (dir & Hdir & ->) Hq. apply Hdone; [done|].
    rewrite <- Hq. by apply walkable_ext.
  - apply Hcl; try done. congruence.
Qed.

(** When the cells at distance [d] are used up, the queue holds the next
    layer. *)
Lemma bfs_relevel g0 src tgt d B g pm :
  bfsInv g0 src tgt d [] B None g pm → bfsInv g0 src tgt (S d) B [] None g pm.
Proof.
  intros [Hg Hty Hsrc Hvis HA HB Hcur Hcl Hnear]. split; try done.
  - intros p Hp. by inversion Hp.
  - intros p Hp HpB _ Hc. apply Hcl; [done|by intros ?%elem_of_nil|done|done].
  - intros p k Hk Hle. destruct (decide (k ≤ d)%nat) as [Hle'|Hgt].
    { by eapply Hnear. }
    assert (k = S d) as -> by lia.
    inversion Hk as [|n q r Hq Hadj Hr]; subst.
    pose proof (Hnear q d Hq (le_n _)) as Hqv.
    destruct (Hcl q Hqv) as [Hclosed _]; try done.
    + intros Hin. inversion Hin.
    + intros Hin. destruct (HB _ Hin) as [_ [_ Hmin]]. apply Hmin in Hq. lia.
    + apply Hclosed; [done|]. rewrite <- Hr. by apply walkable_ext.
Qed.

Lemma bfs_dequeue g0 src tgt d cur A B g pm :
  cur ≠ tgt →
  bfsInv g0 src tgt d (cur :: A) B None g pm →
  bfsInv g0 src tgt d A B (Some cur) g pm.
Proof.
  intros Hne [Hg Hty Hsrc Hvis HA HB Hcur Hcl Hnear]. split; try done.
  - intros p Hp. apply HA. by right.
  - intros c [= <-]. destruct (HA cur) as [? ?]; [by left|done].
  - intros p Hp HpA HpB Hpc. apply Hcl; try done.
    apply not_elem_of_cons. split; [congruence|done].
Qed.

(** [reconstructPath]: following the parents of a visited cell at distance
    [n] takes [n] steps and yields a geodesic. *)
Lemma reconstructLoop_correct g0 src tgt d A B cur g pm :
  bfsInv g0 src tgt d A B cur g pm →
  ∀ n p acc fuel,
    visitedAt g p = true → distance g0 src p n → (n ≤ fuel)%nat →
    ∃ l, reconstructLoop fuel pm src p acc = Some (acc ++ reverse l) ∧
         geodesic g0 src l p ∧ length l = n.
Proof.
  intros Inv. induction n as [|n IH]; intros p acc fuel Hp Hd Hfuel.
  - destruct (inv_visited _ _ _ _ _ _ _ _ _ Inv p Hp) as (_ & n & Hn & _ & Hpar).
    rewrite (distance_unique _ _ _ _ _ Hn Hd) in Hpar.
    destruct Hpar as [[-> _]|(_ & par & n' & Hz & _)]; [|done].
    exists []. destruct fuel; simpl; rewrite Vector2i_eqb_refl, app_nil_r.
    + split; [done|]. split; [|done]. split; [constructor|]. by intros i q Hq.
    + split; [done|]. split; [|done]. split; [constructor|]. by intros i q Hq.
  - destruct (inv_visited _ _ _ _ _ _ _ _ _ Inv p Hp) as (_ & n0 & Hn & _ & Hpar).
    rewrite (distance_unique _ _ _ _ _ Hn Hd) in Hpar.
    destruct Hpar as [[_ ?]|(Hne & par & n' & [= <-] & Hlook & Hparv & Hadj & Hw & Hpd)];
      [done|].
    destruct fuel as [|fuel]; [lia|]. simpl.
    apply Vector2i_eqb_neq in Hne. rewrite Hne, Hlook. simpl.
    destruct (IH par (acc ++ [p]) fuel Hparv Hpd) as (l & Hrun & [Htr Hdist] & Hlen);
      [lia|].
    exists (l ++ [p]). rewrite Hrun. split.
    { by rewrite reverse_app, <- app_assoc. }
    split; [|rewrite length_app; simpl; lia].
    split; [by econstructor|].
    intros i q Hq. destruct (decide (i < length l)%nat) as [Hlt|Hge].
    + rewrite lookup_app_l in Hq by done. by apply Hdist.
    + rewrite lookup_app_r in Hq by lia.
      destruct (i - length l)%nat as [|k] eqn:Hk; simpl in Hq; [|done].
      injection Hq as <-. replace i with n by lia. done.
Qed.

Lemma CELL_COUNT_lt_LOOP_FUEL : (CELL_COUNT < LOOP_FUEL)%nat.
Proof. apply Nat.ltb_lt. by vm_compute. Qed.

Lemma bfsLoop_unfold {R : RandomEngine} fuel (m : Maze R) cur rest pm :
  bfsLoop (S fuel) m (cur :: rest) pm =
  if Vector2i_eqb cur (targetPos m) then
    reconstructPath pm (withPathFound true m)
  else
    '(g, queue'', parentMap') ←
      forEach (bfsVisit cur) directions (cells m, rest, pm);
    bfsLoop fuel (withCells g m) queue'' parentMap'.
Proof. reflexivity. Qed.

Section Search.
Context {R : RandomEngine}.

Lemma bfsResult_withCells g0 g (m m' : Maze R) :
  bfsResult g0 (withCells g m) m' → bfsResult g0 m m'.
Proof. destruct m. unfold bfsResult. simpl. done. Qed.

(** The [while (!queue.empty())] loop: it finishes within its fuel, with the
    target found along a geodesic, or with an empty queue when the target
    cannot be reached. *)
Lemma bfsLoop_correct g0 fuel :
  ∀ (m : Maze R) queue pm d A B,
    queue = A ++ B →
    bfsInv g0 (playerPos m) (targetPos m) d A B None (cells m) pm →
    (length queue + unvisitedCount (cells m) < fuel)%nat →
    path m = [] → pathFound m = false →
    ∃ m', bfsLoop fuel m queue pm = Some m' ∧ bfsResult g0 m m'.
Proof.
  induction fuel as [|fuel IH]; intros m queue pm d A B Hq Inv Hfuel Hpath Hfound;
    [lia|].
  destruct queue as [|cur rest].
  - symmetry in Hq. apply app_eq_nil in Hq as [-> ->].
    exists m. split; [done|]. split; [by destruct m|].
    split; [apply Inv|]. split; [apply Inv|]. rewrite Hfound. split; [done|].
    intros [k Hk].
    assert (∀ k p, walk g0 (playerPos m) k p →
              visitedAt (cells m) p = true ∧ p ≠ targetPos m) as Hall.
    { clear k Hk. intros k p Hw.
      assert (∀ q, visitedAt (cells m) q = true →
                closedAt (cells m) q ∧ q ≠ targetPos m) as Hcl.
      { intros q Hqv.
        apply (inv_closed _ _ _ _ _ _ _ _ _ Inv); [done|..|done];
          by intros ?%elem_of_nil. }
      induction Hw as [|n q r Hw [IHv _] Hadj Hr].
      - destruct (inv_src _ _ _ _ _ _ _ _ _ Inv) as [_ Hs].
        split; [done|]. by apply Hcl.
      - assert (visitedAt (cells m) r = true) as Hrv.
        { apply (Hcl q IHv); [done|]. rewrite <- Hr. apply walkable_ext, Inv. }
        split; [done|]. by apply Hcl. }
    by destruct (Hall _ _ Hk).
  - assert (∃ d' A' B', rest = A' ++ B' ∧
        bfsInv g0 (playerPos m) (targetPos m) d' (cur :: A') B' None (cells m) pm)
      as (d' & A' & B' & -> & Inv').
    { destruct A as [|a A]; simpl in Hq.
      - subst B. exists (S d), rest, []. rewrite app_nil_r. split; [done|].
        by apply bfs_relevel.
      - injection Hq as <- ->. by exists d, A, B. }
    clear Inv Hq d A B. rewrite bfsLoop_unfold.
    destruct (inv_A _ _ _ _ _ _ _ _ _ Inv' cur) as [Hcv Hcd]; [by left|].
    destruct (Vector2i_eqb cur (targetPos m)) eqn:Htgt.
    + apply Vector2i_eqb_eq in Htgt. subst cur.
      destruct (inv_visited _ _ _ _ _ _ _ _ _ Inv' _ Hcv) as (_ & n & Hn & Hlt & _).
      rewrite (distance_unique _ _ _ _ _ Hn Hcd) in Hlt.
      destruct (reconstructLoop_correct _ _ _ _ _ _ _ _ _ Inv' d' (targetPos m)
                  [] LOOP_FUEL Hcv Hcd) as (l & Hrun & Hgeo & Hlen).
      { pose proof CELL_COUNT_lt_LOOP_FUEL. lia. }
      unfold reconstructPath. cbn [path playerPos targetPos withPathFound].
      rewrite Hpath, Hrun. cbn [mbind option_bind].
      eexists. split; [done|]. rewrite app_nil_l, reverse_involutive.
      split; [by destruct m|]. cbn. split; [apply Inv'|]. split; [apply Inv'|].
      split; [done|]. lia.
    + apply Vector2i_eqb_neq in Htgt.
      destruct (bfsExpand_inv _ _ _ _ _ _ _ _ _ (bfs_dequeue _ _ _ _ _ _ _ _ _ Htgt Inv'))
        as (g' & B'' & pm' & Hrun & Inv'' & Hcount).
      rewrite Hrun. cbn [mbind option_bind].
      destruct (IH (withCells g' m) (A' ++ B'') pm' d' A' B'' eq_refl) as (m' & Hm' & Hres).
      * by destruct m.
      * cbn [cells withCells]. simpl in Hfuel. rewrite length_app in *. lia.
      * by destruct m.
      * by destruct m.
      * exists m'. split; [done|]. by apply (bfsResult_withCells _ g').
Qed.

End Search.

Section FindPath.
Context {R : RandomEngine}.

Lemma clearVisited_gridOK g : gridOK g → gridOK (clearVisited g).
Proof. apply map_gridOK. Qed.

Lemma clearVisited_idemp g : clearVisited (clearVisited g) = clearVisited g.
Proof.
  unfold clearVisited. rewrite map_map. apply map_ext. intros row.
  rewrite map_map. by apply map_ext.
Qed.

Lemma bfsLoop_initial_inv (g0 g : Grid) src tgt :
  gridOK g0 → validPos src →
  setVisited true (clearVisited g0) (vx src) (vy src) = Some g →
  bfsInv g0 src tgt 0 [src] [] None g ∅ ∧ (unvisitedCount g < CELL_COUNT)%nat.
Proof.
  intros Hg0 Hsrc Hset.
  pose proof (setVisited_visitedAt_pos _ _ _ _ Hset) as Hv.
  assert (∀ p, visitedAt g p = true → p = src) as Honly.
  { intros p. rewrite Hv. case_decide; [done|]. by rewrite clearVisited_visitedAt. }
  assert (unvisitedCount g < CELL_COUNT)%nat as Hcount.
  { pose proof (unvisitedCount_setVisited _ src _ Hsrc
                  (clearVisited_visitedAt g0 src) Hset).
    pose proof (unvisitedCount_bound (clearVisited g0)). lia. }
  split; [|done]. split.
  - eapply setVisited_gridOK; [|done]. by apply clearVisited_gridOK.
  - intros p. rewrite (setVisited_typeAt _ _ _ _ _ p Hset).
    apply clearVisited_typeAt.
  - split; [done|]. rewrite Hv. by rewrite decide_True.
  - intros p ->%Honly. split; [done|]. exists 0%nat.
    split; [apply distance_src|]. split; [done|]. by left.
  - intros p ->%list_elem_of_singleton. split; [|apply distance_src].
    rewrite Hv. by rewrite decide_True.
  - intros p Hp. by inversion Hp.
  - done.
  - intros p ->%Honly Hn. exfalso. apply Hn. by left.
  - intros p k Hk Hle. assert (k = 0%nat) as -> by lia.
    apply walk_zero in Hk as ->. rewrite Hv. by rewrite decide_True.
Qed.

(** [findPathBFS] returns on every well-formed state, for any fuel above the
    number of cells. *)
Lemma findPathBFSFuel_correct fuel (m : Maze R) :
  gridOK (cells m) → validPos (playerPos m) → (CELL_COUNT < fuel)%nat →
  ∃ m', findPathBFSFuel fuel m = Some m' ∧ bfsResult (cells m) m m'.
Proof.
  intros Hg Hp Hfuel. unfold findPathBFSFuel.
  destruct (setVisited_defined true (clearVisited (cells m)) _ _
              (clearVisited_gridOK _ Hg) Hp) as [g Hset].
  destruct (bfsLoop_initial_inv _ _ _ (targetPos m) Hg Hp Hset) as [Inv Hcount].
  set (m1 := resetVisited m).
  change (setVisited true (cells m1) (vx (playerPos m1)) (vy (playerPos m1))
          = Some g) in Hset.
  rewrite Hset. cbn [mbind option_bind].
  destruct (bfsLoop_correct (cells m) fuel (withCells g m1) [playerPos m1] ∅
              0%nat [playerPos m] [] eq_refl Inv) as (m' & Hrun & Hres);
    [cbn [cells withCells length]; lia|done|done|].
  exists m'. split; [exact Hrun|]. destruct m.
  unfold bfsResult in *. simpl in *. done.
Qed.

Lemma findPathBFS_correct (m : Maze R) :
  gridOK (cells m) → validPos (playerPos m) →
  ∃ m', findPathBFS m = Some m' ∧ bfsResult (cells m) m m'.
Proof.
  intros. apply findPathBFSFuel_correct; [done..|apply CELL_COUNT_lt_LOOP_FUEL].
Qed.

Lemma geodesic_distance g src l q :
  geodesic g src l q → distance g src q (length l).
Proof.
  intros [Htr Hdist]. destruct Htr as [|l q r Htr Hadj Hr]; [apply distance_src|].
  rewrite length_app. simpl. rewrite Nat.add_1_r. apply Hdist.
  rewrite lookup_app_r by lia. by rewrite Nat.sub_diag.
Qed.

End FindPath.

Section FindPathClaims.
Context {R : RandomEngine}.

(** C2: on every grid of the right shape with the player in bounds and the
    target reachable, [findPathBFS] returns with [pathFound] set and a
    solution path that is a 4-connected path over non-wall cells from the
    player to the target whose number of edges is the BFS layer distance
    between the two cells. *)
Theorem findPathBFS_shortest (m : Maze R) :
  gridOK (cells m) → validPos (playerPos m) →
  reachable (cells m) (playerPos m) (targetPos m) →
  ∃ m', findPathBFS m = Some m' ∧ pathFound m' = true ∧
        trail (cells m) (playerPos m) (path m') (targetPos m) ∧
        distance (cells m) (playerPos m) (targetPos m) (length (path m')).
Proof.
  intros Hg Hp Hreach.
  destruct (findPathBFS_correct m Hg Hp) as (m' & Hrun & _ & _ & _ & Hres).
  exists m'. split; [done|]. destruct (pathFound m').
  - destruct Hres as [Hgeo _]. split; [done|]. split; [apply Hgeo|].
    by apply geodesic_distance.
  - by destruct Hres as [_ Hno].
Qed.

Lemma resetVisited_idemp (m : Maze R) :
  resetVisited (resetVisited m) = resetVisited m.
Proof.
  unfold resetVisited, withPathFound, withPath, withCells. simpl.
  by rewrite clearVisited_idemp.
Qed.

Lemma findPathBFSFuel_resetVisited fuel (m : Maze R) :
  findPathBFSFuel fuel (resetVisited m) = findPathBFSFuel fuel m.
Proof. unfold findPathBFSFuel. by rewrite resetVisited_idemp. Qed.

(** C6: [findPathBFS] starts from [resetVisited], which clears every visited
    flag, the previous path and [pathFound], so that nothing of them
    influences the search; and when no 4-connected path over non-wall cells
    leads from the player to the target it returns (no undefined behaviour,
    no exhausted loop) with [pathFound = false] and an empty path. *)
Theorem findPathBFS_no_path (m : Maze R) :
  gridOK (cells m) → validPos (playerPos m) →
  ((∀ p, visitedAt (cells (resetVisited m)) p = false) ∧
   path (resetVisited m) = [] ∧ pathFound (resetVisited m) = false ∧
   findPathBFS m = findPathBFS (resetVisited m)) ∧
  (¬ reachable (cells m) (playerPos m) (targetPos m) →
   ∃ m', findPathBFS m = Some m' ∧ pathFound m' = false ∧ path m' = []).
Proof.
  intros Hg Hp. split.
  - split; [apply clearVisited_visitedAt|]. do 2 (split; [done|]).
    symmetry. apply findPathBFSFuel_resetVisited.
  - intros Hno.
    destruct (findPathBFS_correct m Hg Hp) as (m' & Hrun & _ & _ & _ & Hres).
    exists m'. split; [done|]. destruct (pathFound m').
    + destruct Hres as [[Htr _] _]. exfalso. apply Hno.
      eexists. by apply trail_walk.
    + by destruct Hres.
Qed.

(** C7: when the player stands on the target position, [findPathBFS]
    returns with [pathFound = true] and an empty solution path. *)
Theorem findPathBFS_at_target (m : Maze R) :
  gridOK (cells m) → validPos (playerPos m) → playerPos m = targetPos m →
  ∃ m', findPathBFS m = Some m' ∧ pathFound m' = true ∧ path m' = [].
Proof.
  intros Hg Hp Heq.
  destruct (findPathBFS_correct m Hg Hp) as (m' & Hrun & _ & _ & _ & Hres).
  exists m'. split; [done|]. rewrite <- Heq in Hres. destruct (pathFound m').
  - split; [done|]. destruct Hres as [Hgeo%geodesic_distance _].
    pose proof (distance_unique _ _ _ _ _ Hgeo (distance_src _ _)) as Hlen.
    by apply nil_length_inv.
  - destruct Hres as [_ Hno]. exfalso. apply Hno. exists 0%nat. constructor.
Qed.

Lemma bfsLoop_congr fuel :
  ∀ (m1 m2 : Maze R) queue pm,
    searchOutcome m1 = searchOutcome m2 →
    playerPos m1 = playerPos m2 → targetPos m1 = targetPos m2 →
    searchOutcome <$> bfsLoop fuel m1 queue pm
    = searchOutcome <$> bfsLoop fuel m2 queue pm.
Proof.
  induction fuel as [|fuel IH]; intros m1 m2 queue pm Hobs Hp Ht;
    destruct queue as [|cur rest]; try (simpl; by rewrite ?Hobs).
  rewrite !bfsLoop_unfold.
  injection Hobs as Hc Hpath Hfound. rewrite <- Ht, <- Hc.
  destruct (Vector2i_eqb cur (targetPos m1)).
  - unfold reconstructPath. cbn [playerPos targetPos path withPathFound].
    rewrite <- Hp, <- Ht, <- Hpath.
    destruct (reconstructLoop _ _ _ _ _); simpl; [|done].
    unfold searchOutcome. simpl. by rewrite Hc.
  - destruct (forEach _ _ _) as [[[g q'] pm']|]; simpl; [|done].
    apply IH; [|done..]. unfold searchOutcome. simpl. by rewrite Hpath, Hfound.
Qed.

Lemma findPathBFSFuel_congr fuel (m1 m2 : Maze R) :
  clearVisited (cells m1) = clearVisited (cells m2) →
  playerPos m1 = playerPos m2 → targetPos m1 = targetPos m2 →
  searchOutcome <$> findPathBFSFuel fuel m1
  = searchOutcome <$> findPathBFSFuel fuel m2.
Proof.
  intros Hc Hp Ht. unfold findPathBFSFuel.
  cbn [resetVisited cells playerPos withPathFound withPath withCells].
  rewrite <- Hc, <- Hp.
  destruct (setVisited true _ _ _) as [g|]; [|done].
  cbn [mbind option_bind]. by apply bfsLoop_congr.
Qed.

End FindPathClaims.

(** ** Trees have no cycles *)

Section Trees.
Context {V : Type} `{!EqDecision V}.
Implicit Types (vs : list V) (es : list (V * V)).

Lemma growsTree_NoDup vs es : growsTree vs es → NoDup vs.
Proof.
  induction 1 as [r|vs es u v _ IH Hu Hv]; [apply NoDup_singleton|].
  by constructor.
Qed.

Lemma growsTree_length vs es : growsTree vs es → length vs = S (length es).
Proof. induction 1; simpl; congruence. Qed.

Lemma growsTree_endpoints vs es a b :
  growsTree vs es → (a, b) ∈ es → a ∈ vs ∧ b ∈ vs.
Proof.
  induction 1 as [r|vs es u v _ IH Hu Hv]; [by intros ?%elem_of_nil|].
  intros [[= -> ->]|Hin]%elem_of_cons.
  - split; [by right|by left].
  - destruct (IH Hin). split; by right.
Qed.

Lemma linked_endpoints vs es a b :
  growsTree vs es → linked es a b → a ∈ vs ∧ b ∈ vs.
Proof.
  intros Ht [H|H]; destruct (growsTree_endpoints _ _ _ _ Ht H); done.
Qed.

Lemma growsTree_connected vs es r :
  growsTree vs es → r ∈ vs → ∀ v, v ∈ vs → connected (linked es) r v.
Proof.
  intros Ht. revert r.
  assert (∀ a b, a ∈ vs → b ∈ vs → connected (linked es) a b) as Hall; [|eauto].
  induction Ht as [r|vs es u v _ IH Hu Hv].
  - intros a b ->%list_elem_of_singleton ->%list_elem_of_singleton. constructor.
  - assert (∀ a b, connected (linked es) a b →
                   connected (linked ((u, v) :: es)) a b) as Hmono.
    { intros a b Hc. induction Hc as [|b c _ IHc Hbc]; [constructor|].
      econstructor; [exact IHc|]. destruct Hbc; [left|right]; by right. }
    assert (∀ a, a ∈ vs → connected (linked ((u, v) :: es)) a v) as Hto.
    { intros a Ha. econstructor; [apply Hmono, IH; [exact Ha|exact Hu]|].
      left. by left. }
    assert (∀ b, b ∈ vs → connected (linked ((u, v) :: es)) v b) as Hfrom.
    { intros b Hb. assert (connected (linked ((u, v) :: es)) v u) as Hvu.
      { econstructor; [constructor|]. right. by left. }
      specialize (Hmono _ _ (IH u b Hu Hb)). clear -Hvu Hmono.
      induction Hmono as [|b c _ IHc Hbc]; [done|]. by econstructor. }
    intros a b [->|Ha]%elem_of_cons [->|Hb]%elem_of_cons; eauto.
    constructor.
Qed.

Lemma nextIndex_lt n i : (i < n)%nat → (nextIndex n i < n)%nat.
Proof. unfold nextIndex. case_decide; lia. Qed.

(** The cyclic predecessor. *)
Lemma nextIndex_pred n i :
  (i < n)%nat → ∃ j, (j < n)%nat ∧ nextIndex n j = i.
Proof.
  intros Hi. destruct i as [|i].
  - exists (n - 1)%nat. split; [lia|]. unfold nextIndex. case_decide; lia.
  - exists i. split; [lia|]. unfold nextIndex. case_decide; lia.
Qed.

Theorem growsTree_acyclic vs es c :
  growsTree vs es → ¬ cycle (linked es) c.
Proof.
  intros Ht. revert c. induction Ht as [r|vs es u v Ht IH Hu Hv];
    intros c (Hnd & Hlen & Hlinks).
  - destruct (lookup_lt_is_Some_2 c 0) as [a Ha]; [lia|].
    destruct (lookup_lt_is_Some_2 c (nextIndex (length c) 0)) as [b Hb].
    { apply nextIndex_lt. lia. }
    destruct (Hlinks _ _ _ Ha Hb) as [H|H]; by apply elem_of_nil in H.
  - assert (∀ b, linked ((u, v) :: es) v b → b = u) as Hleaf.
    { intros b [H|H]; apply elem_of_cons in H as [H|H].
      - injection H as Hvu _. by subst.
      - by destruct (growsTree_endpoints _ _ _ _ Ht H).
      - by injection H.
      - by destruct (growsTree_endpoints _ _ _ _ Ht H). }
    destruct (decide_rel (∈) v c) as [Hin|Hnin].
    + apply list_elem_of_lookup in Hin as [i Hi].
      pose proof (lookup_lt_Some _ _ _ Hi) as Hilt.
      destruct (lookup_lt_is_Some_2 c (nextIndex (length c) i)) as [b Hb].
      { by apply nextIndex_lt. }
      destruct (nextIndex_pred _ _ Hilt) as (j & Hjlt & Hj).
      destruct (lookup_lt_is_Some_2 c j) as [a Ha]; [done|].
      pose proof (Hleaf _ (Hlinks _ _ _ Hi Hb)) as ->.
      assert (linked ((u, v) :: es) v a) as Hva.
      { rewrite <- Hj in Hi. destruct (Hlinks _ _ _ Ha Hi); [by right|by left]. }
      pose proof (Hleaf _ Hva) as ->.
      pose proof (NoDup_lookup _ _ _ _ Hnd Ha Hb) as Heq.
      unfold nextIndex in Heq, Hj. repeat case_decide; lia.
    + apply (IH c). split; [done|]. split; [done|].
      intros i a b Ha Hb.
      assert (a ≠ v) as Hav.
      { intros ->. apply Hnin. by eapply list_elem_of_lookup_2. }
      assert (b ≠ v) as Hbv.
      { intros ->. apply Hnin. by eapply list_elem_of_lookup_2. }
      destruct (Hlinks _ _ _ Ha Hb) as [H|H]; apply elem_of_cons in H as [H|H].
      * by injection H.
      * by left.
      * by injection H.
      * by right.
Qed.

End Trees.

(** ** The room lattice *)

Lemma isRoom_spec p :
  isRoom p = true ↔
  (1 ≤ vx p < MAZE_WIDTH - 1 ∧ vx p mod 2 = 1) ∧
  (1 ≤ vy p < MAZE_HEIGHT - 1 ∧ vy p mod 2 = 1).
Proof.
  unfold isRoom. rewrite !andb_true_iff, !Zodd_mod, !Z.eqb_eq. lia.
Qed.

Lemma isRoom_coords p :
  isRoom p = true →
  ∃ i j, vx p = 2 * i + 1 ∧ vy p = 2 * j + 1 ∧ 0 ≤ i < 10 ∧ 0 ≤ j < 10.
Proof.
  rewrite isRoom_spec. unfold MAZE_WIDTH, MAZE_HEIGHT. intros [Hx Hy].
  exists (vx p / 2), (vy p / 2). zlia.
Qed.

Lemma isRoom_valid p : isRoom p = true → validPos p.
Proof.
  rewrite isRoom_spec. unfold validPos. rewrite isValidPosition_spec. lia.
Qed.

Lemma elem_of_rooms p : p ∈ rooms ↔ isRoom p = true.
Proof.
  unfold rooms. rewrite list_elem_of_filter, elem_of_allPositions.
  split; [by intros [? _]|]. intros H. split; [done|by apply isRoom_valid].
Qed.

Lemma elem_of_neighborDirs d :
  d ∈ neighborDirs ↔ d = V2 2 0 ∨ d = V2 (-2) 0 ∨ d = V2 0 2 ∨ d = V2 0 (-2).
Proof.
  unfold neighborDirs. rewrite !elem_of_cons, elem_of_nil. tauto.
Qed.

Lemma elem_of_directions d :
  d ∈ directions ↔ d = V2 1 0 ∨ d = V2 (-1) 0 ∨ d = V2 0 1 ∨ d = V2 0 (-1).
Proof.
  unfold directions. rewrite !elem_of_cons, elem_of_nil. tauto.
Qed.

Lemma latticeAdj_spec a b :
  latticeAdj a b ↔
  isRoom a = true ∧ isRoom b = true ∧
  ((vx b = vx a + 2 ∨ vx b = vx a - 2) ∧ vy b = vy a ∨
   vx b = vx a ∧ (vy b = vy a + 2 ∨ vy b = vy a - 2)).
Proof.
  unfold latticeAdj. split.
  - intros (Ha & Hb & d & Hd & ->). do 2 (split; [done|]).
    apply elem_of_neighborDirs in Hd as [-> | [-> | [-> | ->]]]; simpl; lia.
  - intros (Ha & Hb & H). do 2 (split; [done|]). destruct a as [ax ay], b as [bx byy].
    simpl in H. unfold offset. simpl.
    destruct H as [[[H1|H1] H2]|[H1 [H2|H2]]];
      [exists (V2 2 0)|exists (V2 (-2) 0)|exists (V2 0 2)|exists (V2 0 (-2))];
      (split; [apply elem_of_neighborDirs; tauto|simpl; f_equal; lia]).
Qed.

Lemma latticeAdj_sym a b : latticeAdj a b → latticeAdj b a.
Proof. rewrite !latticeAdj_spec. intros (Ha & Hb & H). repeat split; try done. lia. Qed.

Lemma midpoint_sym a b : midpoint a b = midpoint b a.
Proof. unfold midpoint. f_equal; f_equal; lia. Qed.

(** The midpoint of two neighbouring rooms is one step from either, has an
    even coordinate and lies in the grid. *)
Lemma midpoint_spec a b :
  latticeAdj a b →
  adjacent a (midpoint a b) ∧ adjacent (midpoint a b) b ∧
  validPos (midpoint a b) ∧ isRoom (midpoint a b) = false ∧
  vx (midpoint a b) * 2 = vx a + vx b ∧ vy (midpoint a b) * 2 = vy a + vy b.
Proof.
  intros (Ha & Hb & H)%latticeAdj_spec.
  apply isRoom_spec in Ha as Ha'. apply isRoom_spec in Hb as Hb'.
  unfold MAZE_WIDTH, MAZE_HEIGHT in *.
  assert (vx (midpoint a b) * 2 = vx a + vx b ∧
          vy (midpoint a b) * 2 = vy a + vy b) as [Hmx Hmy].
  { unfold midpoint. simpl. zlia. }
  assert (∀ p q, (vx q = vx p + 1 ∨ vx q = vx p - 1) ∧ vy q = vy p ∨
                 vx q = vx p ∧ (vy q = vy p + 1 ∨ vy q = vy p - 1) →
                 adjacent p q) as Hadj.
  { intros [px py] [qx qy]. simpl. unfold adjacent, offset. simpl.
    intros [[[H1|H1] H2]|[H1 [H2|H2]]];
      [exists (V2 1 0)|exists (V2 (-1) 0)|exists (V2 0 1)|exists (V2 0 (-1))];
      (split; [apply elem_of_directions; tauto|simpl; f_equal; lia]). }
  split; [apply Hadj; lia|]. split; [apply Hadj; lia|].
  split; [apply isValidPosition_spec; unfold MAZE_WIDTH, MAZE_HEIGHT; lia|].
  split; [|done].
  apply not_true_is_false. rewrite isRoom_spec. zlia.
Qed.

Lemma midpoint_inj a b a' b' :
  latticeAdj a b → latticeAdj a' b' → midpoint a b = midpoint a' b' →
  (a = a' ∧ b = b') ∨ (a = b' ∧ b = a').
Proof.
  intros Hab Hab' Heq.
  destruct (midpoint_spec _ _ Hab) as (_ & _ & _ & _ & Hx & Hy).
  destruct (midpoint_spec _ _ Hab') as (_ & _ & _ & _ & Hx' & Hy').
  rewrite Heq in Hx, Hy. clear Heq.
  apply latticeAdj_spec in Hab as (Ha & Hb & H).
  apply latticeAdj_spec in Hab' as (Ha' & Hb' & H').
  apply isRoom_coords in Ha as (i & j & Hax & Hay & _).
  apply isRoom_coords in Ha' as (i' & j' & Hax' & Hay' & _).
  clear Hb Hb'.
  destruct a as [ax ay], b as [bx byy], a' as [ax' ay'], b' as [bx' by'].
  simpl in *.
  assert ((ax = ax' ∧ ay = ay' ∧ bx = bx' ∧ byy = by') ∨
          (ax = bx' ∧ ay = by' ∧ bx = ax' ∧ byy = ay')) as [?|?];
    [|left; split; f_equal; lia|right; split; f_equal; lia].
  destruct H as [[[?|?] ?]|[? [?|?]]], H' as [[[?|?] ?]|[? [?|?]]];
    subst; lia.
Qed.

Lemma elem_of_latticeEdges a b :
  (a, b) ∈ latticeEdges ↔
  isRoom a = true ∧ isRoom b = true ∧
  (b = offset a (V2 2 0) ∨ b = offset a (V2 0 2)).
Proof.
  unfold latticeEdges. rewrite list_elem_of_bind. split.
  - intros (r & [Hb Hin]%list_elem_of_filter & Hr%elem_of_rooms). simpl in Hb.
    rewrite !elem_of_cons, elem_of_nil in Hin.
    destruct Hin as [[= -> ->]|[[= -> ->]|Hf]]; [tauto|tauto|done].
  - intros (Ha & Hb & H). exists a. split; [|by apply elem_of_rooms].
    apply list_elem_of_filter. split; [done|].
    rewrite !elem_of_cons. destruct H as [-> | ->]; tauto.
Qed.

Lemma NoDup_latticeEdges : NoDup latticeEdges.
Proof. apply (bool_decide_unpack _). by vm_compute. Qed.

Lemma latticeEdges_adj e : e ∈ latticeEdges → latticeAdj (fst e) (snd e).
Proof.
  destruct e as [a b]. intros (Ha & Hb & H)%elem_of_latticeEdges. simpl.
  do 2 (split; [done|]).
  destruct H as [-> | ->]; eexists; (split; [|done]); apply elem_of_neighborDirs; tauto.
Qed.

Lemma latticeAdj_edge a b :
  latticeAdj a b → (a, b) ∈ latticeEdges ∨ (b, a) ∈ latticeEdges.
Proof.
  intros (Ha & Hb & H)%latticeAdj_spec. rewrite !elem_of_latticeEdges.
  destruct a as [ax ay], b as [bx byy]. unfold offset. simpl in *.
  destruct H as [[[H1|H1] H2]|[H1 [H2|H2]]]; subst.
  - left. do 2 (split; [done|]). left. f_equal; lia.
  - right. do 2 (split; [done|]). left. f_equal; lia.
  - left. do 2 (split; [done|]). right. f_equal; lia.
  - right. do 2 (split; [done|]). right. f_equal; lia.
Qed.

(** ** Maze generation *)

Lemma forEach_cons {A S} (body : A → S → option S) a l s :
  forEach body (a :: l) s = body a s ≫= forEach body l.
Proof. reflexivity. Qed.

(** The inner loop of the blanking pass, over the columns [xs] of row [y]. *)
Lemma blankRow_spec y xs :
  0 ≤ y < MAZE_HEIGHT → (∀ x, x ∈ xs → 0 ≤ x < MAZE_WIDTH) →
  ∀ g, gridOK g →
  ∃ g', forEach (λ x, blankCell x y) xs g = Some g' ∧ gridOK g' ∧
        (∀ x, x ∈ xs → cellAt g' x y = Some (mkCell x y WALL false)) ∧
        (∀ x' y', ¬ (y' = y ∧ x' ∈ xs) → cellAt g' x' y' = cellAt g x' y').
Proof.
  intros Hy. induction xs as [|a xs IH]; intros Hxs g Hg.
  - exists g. split; [done|]. split; [done|]. split; [|done].
    by intros x ?%elem_of_nil.
  - assert (isValidPosition a y = true) as Hvalid.
    { apply isValidPosition_spec. split; [|done]. apply Hxs. by left. }
    destruct (updCell_defined (λ _, mkCell a y WALL false) g a y) as [g1 Hg1].
    { by apply cellAt_valid. }
    pose proof (updCell_gridOK _ _ _ _ _ Hg Hg1) as Hgok1.
    destruct (IH (λ x Hx, Hxs x (list_elem_of_further _ _ _ Hx)) g1 Hgok1)
      as (g' & Hrun & Hgok' & Hset & Hframe).
    assert (blankCell a y g = Some g1) as Hb by exact Hg1.
    exists g'. rewrite forEach_cons. cbn beta. rewrite Hb.
    split; [done|]. split; [done|]. split.
    + intros x Hx. destruct (decide (x ∈ xs)) as [Hin|Hnin]; [by apply Hset|].
      apply elem_of_cons in Hx as [->|Hx]; [|done].
      rewrite Hframe by tauto.
      by destruct (updCell_Some _ _ _ _ _ Hg1) as (c & _ & ->).
    + intros x' y' Hn. rewrite Hframe.
      * apply (updCell_other _ _ _ _ _ _ _ Hg1). intros [= -> ->].
        apply Hn. split; [done|by left].
      * intros [-> Hin]. apply Hn. split; [done|by right].
Qed.

Lemma blankRows_spec ys :
  (∀ y, y ∈ ys → 0 ≤ y < MAZE_HEIGHT) →
  ∀ g, gridOK g →
  ∃ g', forEach (λ y, forEach (λ x, blankCell x y) (seqZ0 MAZE_WIDTH)) ys g
        = Some g' ∧ gridOK g' ∧
        (∀ x y, y ∈ ys → 0 ≤ x < MAZE_WIDTH →
                cellAt g' x y = Some (mkCell x y WALL false)) ∧
        (∀ x' y', y' ∉ ys → cellAt g' x' y' = cellAt g x' y').
Proof.
  induction ys as [|b ys IH]; intros Hys g Hg.
  - exists g. split; [done|]. split; [done|]. split; [|done].
    by intros x y ?%elem_of_nil.
  - destruct (blankRow_spec b (seqZ0 MAZE_WIDTH)) with (g := g)
      as (g1 & Hrow & Hgok1 & Hset1 & Hframe1); [apply Hys; by left| |done|].
    { intros x. by rewrite elem_of_seqZ0. }
    destruct (IH (λ y Hy, Hys y (list_elem_of_further _ _ _ Hy)) g1 Hgok1)
      as (g' & Hrun & Hgok' & Hset & Hframe).
    exists g'. rewrite forEach_cons. cbn beta. rewrite Hrow.
    split; [done|]. split; [done|]. split.
    + intros x y Hy Hx. destruct (decide (y ∈ ys)) as [Hin|Hnin]; [by apply Hset|].
      apply elem_of_cons in Hy as [->|Hy]; [|done].
      rewrite Hframe by done. apply Hset1. by apply elem_of_seqZ0.
    + intros x' y' Hn. apply not_elem_of_cons in Hn as [Hne Hn].
      rewrite Hframe by done. apply Hframe1. tauto.
Qed.

(** After the blanking pass every cell is [{x, y, WALL}] with the visited
    flag at its default. *)
Lemma blankAll_spec g :
  gridOK g →
  ∃ g', blankAll g = Some g' ∧ gridOK g' ∧
        ∀ p, validPos p → cellP g' p = Some (mkCell (vx p) (vy p) WALL false).
Proof.
  intros Hg.
  destruct (blankRows_spec (seqZ0 MAZE_HEIGHT)) with (g := g)
    as (g' & Hrun & Hgok & Hset & _); [|done|].
  { intros y. by rewrite elem_of_seqZ0. }
  exists g'. split; [done|]. split; [done|].
  intros p [Hx Hy]%isValidPosition_spec. apply Hset; [|done].
  by apply elem_of_seqZ0.
Qed.

Lemma blank_views g :
  gridOK g →
  (∀ p, validPos p → cellP g p = Some (mkCell (vx p) (vy p) WALL false)) →
  ∀ p, typeAt g p = WALL ∧ visitedAt g p = false.
Proof.
  intros Hg Hall p. unfold typeAt, visitedAt.
  destruct (cellP g p) as [c|] eqn:Hc; [|done].
  rewrite Hall in Hc; [by injection Hc as <-|].
  by eapply cellAt_Some_valid.
Qed.

(** One direction of [getUnvisitedNeighbors]. *)
Lemma pushIfUnvisited_spec g cur d acc :
  gridOK g → isRoom cur = true → d ∈ neighborDirs →
  ∃ acc', pushIfUnvisited g (vx cur) (vy cur) d acc = Some acc' ∧
    ∀ p, p ∈ acc' ↔
      p ∈ acc ∨ p = offset cur d ∧ isRoom p = true ∧ visitedAt g p = false.
Proof.
  intros Hg Hcur Hd. unfold pushIfUnvisited. set (q := offset cur d).
  change (vx cur + vx d) with (vx q). change (vy cur + vy d) with (vy q).
  assert (isRoom q = true ↔
          (1 <=? vx q) && (vx q <? MAZE_WIDTH - 1) &&
          (1 <=? vy q) && (vy q <? MAZE_HEIGHT - 1) = true) as Hroom.
  { rewrite isRoom_spec. apply isRoom_coords in Hcur as (i & j & Hx & Hy & _).
    apply elem_of_neighborDirs in Hd.
    subst q. unfold offset. simpl. rewrite Hx, Hy.
    destruct Hd as [-> | [-> | [-> | ->]]]; simpl; zlia. }
  destruct ((1 <=? vx q) && (vx q <? MAZE_WIDTH - 1) &&
            (1 <=? vy q) && (vy q <? MAZE_HEIGHT - 1)) eqn:Hin.
  - destruct (cellAt_valid g (vx q) (vy q) Hg) as [c Hc].
    { apply isRoom_valid. by apply Hroom. }
    rewrite Hc. cbn [mbind option_bind].
    destruct (cellAt_views _ _ _ Hc) as [_ Hv].
    destruct (visited c) eqn:Hvc; cbn [negb].
    + exists acc. split; [done|]. intros p. split; [by left|].
      intros [?|(-> & _ & ?)]; [done|congruence].
    + change (V2 (vx q) (vy q)) with q. exists (acc ++ [q]). split; [done|].
      intros p. rewrite elem_of_app, list_elem_of_singleton. split.
      * intros [?| ->]; [by left|]. right. split; [done|]. split; [by apply Hroom|done].
      * intros [?|(-> & _)]; [by left|by right].
  - exists acc. split; [done|]. intros p. split; [by left|].
    intros [?|(-> & Hr & _)]; [done|]. apply Hroom in Hr. congruence.
Qed.

(** [getUnvisitedNeighbors], before the shuffle: exactly the unvisited
    neighbouring rooms. *)
Lemma collectNeighbors_spec g cur :
  gridOK g → isRoom cur = true →
  ∀ dirs acc, (∀ d, d ∈ dirs → d ∈ neighborDirs) →
  ∃ N, forEach (pushIfUnvisited g (vx cur) (vy cur)) dirs acc = Some N ∧
       ∀ q, q ∈ N ↔ q ∈ acc ∨
         ∃ d, d ∈ dirs ∧ q = offset cur d ∧ isRoom q = true ∧
              visitedAt g q = false.
Proof.
  intros Hg Hcur. induction dirs as [|d dirs IH]; intros acc Hdirs.
  - exists acc. split; [done|]. intros q. split; [by left|].
    intros [?|(d & Hd%elem_of_nil & _)]; done.
  - destruct (pushIfUnvisited_spec g cur d acc Hg Hcur) as (acc' & Hstep & Hacc').
    { apply Hdirs. by left. }
    destruct (IH acc' (λ x Hx, Hdirs x (list_elem_of_further _ _ _ Hx)))
      as (N & Hrun & HN).
    exists N. rewrite forEach_cons, Hstep. split; [done|].
    intros p. rewrite HN, Hacc'. split.
    + intros [[?|?]|(d0 & Hd0 & Hrest)]; [by left| |].
      * right. exists d. split; [by left|done].
      * right. exists d0. split; [by right|done].
    + intros [?|(d0 & [->|Hd0]%elem_of_cons & Hrest)]; [by left; left| |].
      * left. by right.
      * right. by exists d0.
Qed.

Lemma latticeEdges_oriented a b : (a, b) ∈ latticeEdges → (b, a) ∉ latticeEdges.
Proof.
  rewrite !elem_of_latticeEdges. intros (_ & _ & H) (_ & _ & H').
  destruct a as [ax ay], b as [bx byy]. unfold offset in *. simpl in *.
  destruct H as [[= -> ->]|[= -> ->]], H' as [[= ? ?]|[= ? ?]]; lia.
Qed.

(** Carving the midpoint of two neighbouring rooms adds one connection. *)
Lemma connections_carve g g' a b :
  latticeAdj a b → typeAt g (midpoint a b) ≠ PATH →
  (∀ p, typeAt g' p =
        if decide (p = b ∨ p = midpoint a b) then PATH else typeAt g p) →
  length (connections g') = S (length (connections g)).
Proof.
  intros Hab Hwall Hviews.
  assert (∃ e0, e0 ∈ latticeEdges ∧ midpoint (fst e0) (snd e0) = midpoint a b ∧
                ∀ e, e ∈ latticeEdges → e ≠ e0 →
                     midpoint (fst e) (snd e) ≠ midpoint a b) as (e0 & He0 & Hm0 & Huniq).
  { destruct (latticeAdj_edge _ _ Hab) as [Hin|Hin].
    - exists (a, b). split; [done|]. split; [done|].
      intros [a' b'] He Hne Heq. simpl in Heq.
      pose proof (latticeEdges_adj _ He) as Hadj'. simpl in Hadj'.
      destruct (midpoint_inj _ _ _ _ Hadj' Hab Heq)
        as [[-> ->]|[-> ->]]; [done|].
      by apply (latticeEdges_oriented _ _ Hin).
    - exists (b, a). split; [done|]. split; [apply midpoint_sym|].
      intros [a' b'] He Hne Heq. simpl in Heq.
      pose proof (latticeEdges_adj _ He) as Hadj'. simpl in Hadj'.
      destruct (midpoint_inj _ _ _ _ Hadj' Hab Heq)
        as [[-> ->]|[-> ->]]; [|done].
      by apply (latticeEdges_oriented _ _ Hin). }
  unfold connections. apply (filter_length_flip _ _ _ e0).
  - apply NoDup_latticeEdges.
  - done.
  - simpl. rewrite Hm0, Hviews. rewrite decide_True; [done|by right].
  - simpl. by rewrite Hm0.
  - intros e He Hne. simpl. rewrite Hviews. rewrite decide_False; [done|].
    intros [Hb|Hm]; [|by apply (Huniq e)].
    destruct (midpoint_spec _ _ (latticeEdges_adj _ He)) as (_ & _ & _ & Hnr & _).
    rewrite Hb in Hnr. destruct Hab as (_ & Hrb & _). congruence.
Qed.

Lemma walk_mono g g' src n q :
  (∀ p, walkable g p = true → walkable g' p = true) →
  walk g src n q → walk g' src n q.
Proof.
  intros Hmono Hw. induction Hw as [|n q r Hw IH Hadj Hr]; [constructor|].
  econstructor; [done..|]. by apply Hmono.
Qed.

Lemma reachable_mono g g' src q :
  (∀ p, walkable g p = true → walkable g' p = true) →
  reachable g src q → reachable g' src q.
Proof. intros Hmono [n Hn]. exists n. by eapply walk_mono. Qed.

Lemma reachable_step g src q r :
  reachable g src q → adjacent q r → walkable g r = true → reachable g src r.
Proof. intros [n Hn] Hadj Hr. exists (S n). by econstructor. Qed.

(** The three assignments of a carving step, seen cell by cell. *)
Lemma carve_views g mid next g1 g2 g3 :
  setType PATH g (vx mid) (vy mid) = Some g1 →
  setType PATH g1 (vx next) (vy next) = Some g2 →
  setVisited true g2 (vx next) (vy next) = Some g3 →
  (∀ p, typeAt g3 p = if decide (p = next ∨ p = mid) then PATH else typeAt g p) ∧
  (∀ p, visitedAt g3 p = if decide (p = next) then true else visitedAt g p).
Proof.
  intros H1 H2 H3. split; intros p.
  - rewrite (setVisited_typeAt _ _ _ _ _ p H3).
    rewrite (setType_typeAt_pos _ _ _ _ H2), (setType_typeAt_pos _ _ _ _ H1).
    repeat case_decide; try done; tauto.
  - rewrite (setVisited_visitedAt_pos _ _ _ _ H3).
    by rewrite (setType_visitedAt _ _ _ _ _ p H2), (setType_visitedAt _ _ _ _ _ p H1).
Qed.

Lemma unvisitedCount_ext g g' :
  (∀ p, visitedAt g' p = visitedAt g p) → unvisitedCount g' = unvisitedCount g.
Proof.
  intros H. unfold unvisitedCount. apply filter_length_same.
  intros p _. by rewrite H.
Qed.

Lemma linked_cons {V} (e : V * V) es a b : linked es a b → linked (e :: es) a b.
Proof. intros [H|H]; [left|right]; by right. Qed.

Section Generator.
Context {R : RandomEngine} (laws : RandomEngineLaws R).

Lemma getUnvisitedNeighbors_spec g cur r stack vs es :
  genInv g stack vs es → cur ∈ vs →
  ∃ N, getUnvisitedNeighbors g (vx cur) (vy cur) r = Some (shuffle N r) ∧
       ∀ q, q ∈ fst (shuffle N r) ↔ latticeAdj cur q ∧ q ∉ vs.
Proof.
  intros Inv Hcur. destruct (gen_rooms _ _ _ _ Inv cur Hcur) as [Hroom _].
  destruct (collectNeighbors_spec g cur (gen_grid _ _ _ _ Inv) Hroom
              neighborDirs [] (λ _ H, H)) as (N & Hrun & HN).
  exists N. unfold getUnvisitedNeighbors. rewrite Hrun. split; [done|].
  intros q. rewrite <- (shuffle_perm _ laws N r), HN. split.
  - intros [Hf%elem_of_nil|(d & Hd & -> & Hr & Hv)]; [done|]. split.
    + split; [done|]. split; [done|]. by exists d.
    + rewrite <- (gen_visited _ _ _ _ Inv). congruence.
  - intros [(_ & Hr & d & Hd & ->) Hnv]. right. exists d.
    do 3 (split; [done|]).
    destruct (visitedAt g (offset cur d)) eqn:E; [|done].
    by apply (gen_visited _ _ _ _ Inv) in E.
Qed.

(** One iteration of the carving loop keeps the invariant and lowers the
    measure [2 * unvisited + stack size]. *)
Lemma carveStep_inv cur rest g r vs es :
  genInv g (cur :: rest) vs es →
  ∃ g' stack' r' vs' es',
    carveStep cur rest g r = Some (g', stack', r') ∧
    genInv g' stack' vs' es' ∧
    (2 * unvisitedCount g' + length stack'
     < 2 * unvisitedCount g + length (cur :: rest))%nat.
Proof.
  intros Inv.
  assert (cur ∈ vs) as Hcur by (apply (gen_stack _ _ _ _ Inv); by left).
  destruct (getUnvisitedNeighbors_spec g cur r _ vs es Inv Hcur) as (N & Hget & HN).
  unfold carveStep. rewrite Hget. cbn [mbind option_bind].
  destruct (shuffle N r) as [Sh r1] eqn:Hsh. cbn [fst] in HN.
  destruct Inv as [Hg Hvis Hrooms Htree Hroot Hedges Hcarved Hopen Hstack Hclosed
                   Hcount Hreach].
  destruct Sh as [|s0 Sh'].
  - exists g, rest, r1, vs, es. split; [done|]. split; [|simpl; lia].
    split; try done.
    + intros p Hp. apply Hstack. by right.
    + intros p Hp Hnr q Hq. destruct (decide (p = cur)) as [->|Hne].
      * destruct (decide (q ∈ vs)) as [|Hnv]; [done|]. exfalso.
        eapply elem_of_nil. apply HN. done.
      * apply (Hclosed p); [done| |done]. by apply not_elem_of_cons.
  - remember (s0 :: Sh') as Sh eqn:HS.
    assert (0 < length Sh)%nat as Hlen by (subst Sh; simpl; lia).
    replace (match Sh with [] => Some (g, rest, r1) | _ :: _ => _ end)
      with (let '(i, r2) := uniform_int 0 (Z.of_nat (length Sh) - 1) r1 in
            next ← (if 0 <=? i then Sh !! Z.to_nat i else None);
            g1 ← setType PATH g (vx (midpoint cur next)) (vy (midpoint cur next));
            g2 ← setType PATH g1 (vx next) (vy next);
            g3 ← setVisited true g2 (vx next) (vy next);
            Some (g3, V2 (vx next) (vy next) :: cur :: rest, r2))
      by (by subst Sh).
    pose proof (uniform_int_range _ laws 0 (Z.of_nat (length Sh) - 1) r1) as Hi.
    destruct (uniform_int 0 (Z.of_nat (length Sh) - 1) r1) as [i r2].
    cbn [fst] in Hi. specialize (Hi ltac:(lia)).
    destruct (lookup_lt_is_Some_2 Sh (Z.to_nat i)) as [next Hnext]; [lia|].
    replace (0 <=? i) with true by lia. rewrite Hnext. cbn [mbind option_bind].
    assert (latticeAdj cur next ∧ next ∉ vs) as [Hadj Hfresh].
    { apply HN. by eapply list_elem_of_lookup_2. }
    clear HN Hnext Hi Hsh Hget N HS Hlen.
    set (mid := midpoint cur next).
    destruct (midpoint_spec _ _ Hadj) as (Hadj1 & Hadj2 & Hmv & Hmr & _).
    fold mid in Hadj1, Hadj2, Hmv, Hmr.
    assert (isRoom next = true) as Hnr by apply Hadj.
    pose proof (isRoom_valid _ Hnr) as Hnv.
    change (Z.quot (vx cur + vx next) 2) with (vx mid).
    change (Z.quot (vy cur + vy next) 2) with (vy mid).
    destruct (setType_defined PATH g _ _ Hg Hmv) as [g1 Hg1]. rewrite Hg1.
    cbn [mbind option_bind].
    pose proof (setType_gridOK _ _ _ _ _ Hg Hg1) as Hgok1.
    destruct (setType_defined PATH g1 _ _ Hgok1 Hnv) as [g2 Hg2]. rewrite Hg2.
    cbn [mbind option_bind].
    pose proof (setType_gridOK _ _ _ _ _ Hgok1 Hg2) as Hgok2.
    destruct (setVisited_defined true g2 _ _ Hgok2 Hnv) as [g3 Hg3]. rewrite Hg3.
    cbn [mbind option_bind]. rewrite V2_eta.
    destruct (carve_views _ _ _ _ _ _ Hg1 Hg2 Hg3) as [Hty Hvi].
    assert (visitedAt g next = false) as Hnu.
    { destruct (visitedAt g next) eqn:E; [|done]. by apply Hvis in E. }
    assert (∀ p, typeAt g p = PATH → typeAt g3 p = PATH) as Hpath.
    { intros p Hp. rewrite Hty. by case_decide. }
    assert (∀ p, walkable g p = true → walkable g3 p = true) as Hwalk.
    { intros p [Hpv Hpt]%walkable_spec. apply walkable_spec. split; [done|].
      rewrite Hty. by case_decide. }
    assert (typeAt g3 mid = PATH) as Hmid.
    { rewrite Hty. rewrite decide_True; [done|by right]. }
    assert (typeAt g3 next = PATH) as Hnext.
    { rewrite Hty. rewrite decide_True; [done|by left]. }
    exists g3, (next :: cur :: rest), r2, (next :: vs), ((cur, next) :: es).
    split; [done|]. split.
    + split.
      * by eapply setVisited_gridOK.
      * intros p. rewrite Hvi, elem_of_cons, <- Hvis. case_decide; [|tauto].
        split; [by left|done].
      * intros p [->|Hp]%elem_of_cons; [done|].
        destruct (Hrooms p Hp). split; [done|by apply Hpath].
      * by constructor.
      * by right.
      * intros a b [[= -> ->]|Hin]%elem_of_cons; [done|].
        destruct (Hedges a b Hin). split; [done|by apply Hpath].
      * intros a b Hab. rewrite Hty. case_decide as Hcase.
        -- intros _. destruct Hcase as [Heq|Heq].
           ++ destruct (midpoint_spec _ _ Hab) as (_ & _ & _ & Hnot & _).
              rewrite Heq in Hnot. congruence.
           ++ destruct (midpoint_inj _ _ _ _ Hab Hadj Heq) as [[-> ->]|[-> ->]];
                [left|right]; by left.
        -- intros Hw. by apply linked_cons, Hcarved.
      * intros p. rewrite Hty. case_decide as Hcase.
        -- intros _. split; [done|]. destruct (decide (p = next)) as [->|Hne].
           ++ left. split; [done|]. left. by left.
           ++ right. exists cur, next. split; [left; by left|].
              by destruct Hcase.
        -- intros Hw. destruct (Hopen p Hw) as [Hp [[Hr [Hin|Heq]]|(a & b & Hl & Hm)]].
           ++ split; [done|]. left. split; [done|]. left. by right.
           ++ split; [done|]. left. split; [done|]. by right.
           ++ split; [done|]. right. exists a, b. split; [by apply linked_cons|done].
      * intros p [->|Hp]%elem_of_cons; [by left|]. right. by apply Hstack.
      * intros p [->|Hp]%elem_of_cons Hns q Hq.
        -- exfalso. apply Hns. by left.
        -- right. apply (Hclosed p Hp); [|done].
           intros Hin. apply Hns. by right.
      * simpl. rewrite <- Hcount.
        rewrite (connections_carve g g3 cur next Hadj); [lia| |done].
        intros Hp. apply Hfresh.
        eapply (linked_endpoints vs es cur next Htree).
        apply Hcarved; [done|]. change (typeAt g mid = PATH) in Hp.
        change (typeAt g mid ≠ WALL). congruence.
      * assert (reachable g3 (V2 1 1) cur) as Hrc.
        { eapply reachable_mono; [exact Hwalk|]. by apply Hreach. }
        intros p [->|Hp]%elem_of_cons.
        -- eapply reachable_step; [eapply reachable_step; [exact Hrc|exact Hadj1|]
                                   |exact Hadj2|].
           ++ apply walkable_spec. split; [done|]. by rewrite Hmid.
           ++ apply walkable_spec. split; [done|]. by rewrite Hnext.
        -- eapply reachable_mono; [exact Hwalk|]. by apply Hreach.
    + assert (unvisitedCount g2 = unvisitedCount g) as Hc2.
      { apply unvisitedCount_ext. intros p.
        by rewrite (setType_visitedAt _ _ _ _ _ p Hg2),
                   (setType_visitedAt _ _ _ _ _ p Hg1). }
      assert (unvisitedCount g2 = S (unvisitedCount g3)) as Hc3.
      { apply (unvisitedCount_setVisited g2 next); [done| |done].
        by rewrite (setType_visitedAt _ _ _ _ _ next Hg2),
                   (setType_visitedAt _ _ _ _ _ next Hg1). }
      simpl. lia.
Qed.

End Generator.

Lemma filter_none {A} (P : A → Prop) `{!∀ x, Decision (P x)} (l : list A) :
  (∀ x, x ∈ l → ¬ P x) → filter P l = [].
Proof.
  induction l as [|x l IH]; [done|]. intros Hno.
  rewrite filter_cons_False by (apply Hno; by left).
  apply IH. intros y Hy. apply Hno. by right.
Qed.

Lemma rooms_count : length rooms = 100%nat.
Proof. reflexivity. Qed.

Lemma NoDup_rooms : NoDup rooms.
Proof. apply NoDup_filter, NoDup_allPositions. Qed.

Lemma cycle_impl {V} (E E' : V → V → Prop) c :
  (∀ a b, E a b → E' a b) → cycle E c → cycle E' c.
Proof. intros H (Hnd & Hlen & Hl). repeat split; [done..|]. eauto. Qed.

Lemma connected_impl {V} (E E' : V → V → Prop) a b :
  (∀ x y, E x y → E' x y) → connected E a b → connected E' a b.
Proof. intros H Hc. induction Hc; [constructor|]. econstructor; eauto. Qed.

(** When the stack is empty the visited rooms are closed under lattice
    neighbours, hence they are all the rooms. *)
Lemma genInv_all_rooms g vs es :
  genInv g [] vs es → ∀ r, isRoom r = true → r ∈ vs.
Proof.
  intros Inv.
  assert (∀ p q, p ∈ vs → latticeAdj p q → q ∈ vs) as Hstep.
  { intros p q Hp. apply (gen_closed _ _ _ _ Inv p Hp). by intros ?%elem_of_nil. }
  assert (∀ i : nat, (i < 10)%nat → V2 (2 * Z.of_nat i + 1) 1 ∈ vs) as Hrow.
  { intros i. induction i as [|i IH]; intros Hi;
      [exact (gen_root _ _ _ _ Inv)|].
    apply (Hstep (V2 (2 * Z.of_nat i + 1) 1)); [apply IH; lia|].
    apply latticeAdj_spec. rewrite !isRoom_spec.
    unfold MAZE_WIDTH, MAZE_HEIGHT. simpl. zlia. }
  assert (∀ i j : nat, (i < 10)%nat → (j < 10)%nat →
            V2 (2 * Z.of_nat i + 1) (2 * Z.of_nat j + 1) ∈ vs) as Hall.
  { intros i j Hi. induction j as [|j IH]; intros Hj; [by apply Hrow|].
    apply (Hstep (V2 (2 * Z.of_nat i + 1) (2 * Z.of_nat j + 1))); [apply IH; lia|].
    apply latticeAdj_spec. rewrite !isRoom_spec.
    unfold MAZE_WIDTH, MAZE_HEIGHT. simpl. zlia. }
  intros r (i & j & Hx & Hy & Hi & Hj)%isRoom_coords.
  specialize (Hall (Z.to_nat i) (Z.to_nat j)).
  rewrite !Z2Nat.id in Hall by lia. rewrite <- Hx, <- Hy, V2_eta in Hall.
  apply Hall; lia.
Qed.

Lemma genInv_linked_passage g stack vs es a b :
  genInv g stack vs es → linked es a b → passage g a b.
Proof.
  intros Inv [H|H]; destruct (gen_edges _ _ _ _ Inv _ _ H) as [Hadj Hp].
  - done.
  - split; [by apply latticeAdj_sym|]. by rewrite midpoint_sym.
Qed.

(** What the invariant gives once the loop has ended. *)
Lemma genInv_perfect g vs es : genInv g [] vs es → perfectMaze g.
Proof.
  intros Inv. pose proof (genInv_all_rooms _ _ _ Inv) as Hall.
  split; [apply Inv|]. split; [|split; [|split; [|split; [|split]]]].
  - intros p. destruct (decide (typeAt g p = WALL)) as [|Hw]; [by left|].
    right. by destruct (gen_open _ _ _ _ Inv p Hw).
  - intros p Hp.
    destruct (gen_open _ _ _ _ Inv p) as [_ [[Hr _]|(a & b & Hl & ->)]];
      [congruence| |].
    + by apply (gen_reach _ _ _ _ Inv), Hall.
    + destruct (genInv_linked_passage _ _ _ _ _ _ Inv Hl) as [Hadj Hm].
      destruct (midpoint_spec _ _ Hadj) as (Hadj1 & _ & Hmv & _).
      eapply reachable_step; [|exact Hadj1|].
      * apply (gen_reach _ _ _ _ Inv).
        by destruct (linked_endpoints _ _ _ _ (gen_tree _ _ _ _ Inv) Hl).
      * apply walkable_spec. split; [done|]. congruence.
  - intros r Hr. by apply (gen_rooms _ _ _ _ Inv), Hall.
  - intros r Hr. eapply connected_impl.
    + intros x y. apply (genInv_linked_passage _ _ _ _ _ _ Inv).
    + apply (growsTree_connected vs es);
        [exact (gen_tree _ _ _ _ Inv)|exact (gen_root _ _ _ _ Inv)|by apply Hall].
  - intros c Hc. apply (growsTree_acyclic vs es c (gen_tree _ _ _ _ Inv)).
    eapply cycle_impl; [|exact Hc]. intros a b [Hadj Hp].
    apply (gen_carved _ _ _ _ Inv); [done|congruence].
  - pose proof (gen_count _ _ _ _ Inv) as Hcount.
    assert (length vs = length rooms) as Hlen; [|lia].
    apply Permutation_length, NoDup_Permutation.
    + exact (growsTree_NoDup _ _ (gen_tree _ _ _ _ Inv)).
    + apply NoDup_rooms.
    + intros p. rewrite elem_of_rooms. split; [|apply Hall].
      intros Hp. by destruct (gen_rooms _ _ _ _ Inv p Hp).
Qed.

Section GeneratorLoop.
Context {R : RandomEngine} (laws : RandomEngineLaws R).

(** The carving loop ends within its fuel with an empty stack. *)
Lemma carveLoop_correct fuel :
  ∀ stack g r vs es,
    genInv g stack vs es →
    (2 * unvisitedCount g + length stack ≤ fuel)%nat →
    ∃ g' r' vs' es', carveLoop fuel stack g r = Some (g', r') ∧
                     genInv g' [] vs' es'.
Proof.
  induction fuel as [|fuel IH]; intros stack g r vs es Inv Hfuel;
    destruct stack as [|cur rest]; try (by exists g, r, vs, es).
  - simpl in Hfuel. lia.
  - destruct (carveStep_inv laws cur rest g r vs es Inv)
      as (g1 & stack1 & r1 & vs1 & es1 & Hstep & Inv1 & Hm).
    destruct (IH stack1 g1 r1 vs1 es1 Inv1) as (g' & r' & vs' & es' & Hrun & Inv');
      [lia|].
    exists g', r', vs', es'. split; [|done].
    cbn [carveLoop]. rewrite Hstep. exact Hrun.
Qed.

End GeneratorLoop.

(** The state in which the carving loop starts. *)
Lemma generate_initial_inv g :
  gridOK g →
  ∃ g0 g1 g2 g3,
    blankAll g = Some g0 ∧ setType PATH g0 1 1 = Some g1 ∧
    setType PATH g1 (MAZE_WIDTH - 2) (MAZE_HEIGHT - 2) = Some g2 ∧
    setVisited true g2 1 1 = Some g3 ∧
    genInv g3 [V2 1 1] [V2 1 1] [] ∧ (unvisitedCount g3 < CELL_COUNT)%nat.
Proof.
  intros Hg. destruct (blankAll_spec g Hg) as (g0 & Hblank & Hg0 & Hcells).
  pose proof (blank_views g0 Hg0 Hcells) as Hviews0.
  destruct (setType_defined PATH g0 1 1 Hg0 eq_refl) as [g1 Hg1].
  pose proof (setType_gridOK _ _ _ _ _ Hg0 Hg1) as Hgok1.
  destruct (setType_defined PATH g1 (MAZE_WIDTH - 2) (MAZE_HEIGHT - 2) Hgok1 eq_refl)
    as [g2 Hg2].
  pose proof (setType_gridOK _ _ _ _ _ Hgok1 Hg2) as Hgok2.
  destruct (setVisited_defined true g2 1 1 Hgok2 eq_refl) as [g3 Hg3].
  exists g0, g1, g2, g3. do 4 (split; [done|]).
  set (start := V2 1 1). set (goal := V2 (MAZE_WIDTH - 2) (MAZE_HEIGHT - 2)).
  assert (∀ p, typeAt g3 p = if decide (p = goal ∨ p = start) then PATH else WALL)
    as Hty.
  { intros p. rewrite (setVisited_typeAt _ _ _ _ _ p Hg3).
    rewrite (setType_typeAt _ _ _ _ _ p Hg2), (setType_typeAt _ _ _ _ _ p Hg1).
    destruct (Hviews0 p) as [-> _]. fold start goal.
    repeat case_decide; try done; tauto. }
  assert (∀ p, visitedAt g3 p = if decide (p = start) then true else false) as Hvi.
  { intros p. rewrite (setVisited_visitedAt _ _ _ _ _ p Hg3).
    rewrite (setType_visitedAt _ _ _ _ _ p Hg2), (setType_visitedAt _ _ _ _ _ p Hg1).
    destruct (Hviews0 p) as [_ ->]. done. }
  assert (∀ a b, latticeAdj a b → typeAt g3 (midpoint a b) = WALL) as Hmid.
  { intros a b Hab. rewrite Hty. case_decide as Hc; [|done].
    destruct (midpoint_spec _ _ Hab) as (_ & _ & _ & Hnr & _).
    destruct Hc as [Hc|Hc]; rewrite Hc in Hnr; done. }
  split.
  - split.
    + by eapply setVisited_gridOK.
    + intros p. rewrite Hvi, list_elem_of_singleton. by case_decide.
    + intros p ->%list_elem_of_singleton. split; [done|].
      rewrite Hty. rewrite decide_True; [done|by right].
    + constructor.
    + by left.
    + by intros a b ?%elem_of_nil.
    + intros a b Hab Hw. by rewrite Hmid in Hw.
    + intros p. rewrite Hty. case_decide as Hc; [|done]. intros _.
      split; [done|]. left. destruct Hc as [-> | ->].
      * split; [done|]. by right.
      * split; [done|]. left. by left.
    + done.
    + intros p Hp Hn. done.
    + simpl. unfold connections. rewrite filter_none; [done|].
      intros e He. simpl. by rewrite (Hmid _ _ (latticeEdges_adj _ He)).
    + intros p ->%list_elem_of_singleton. exists 0%nat. constructor.
  - assert (unvisitedCount g2 = S (unvisitedCount g3)) as Hc.
    { apply (unvisitedCount_setVisited g2 start); [done| |done].
      rewrite (setType_visitedAt _ _ _ _ _ start Hg2),
              (setType_visitedAt _ _ _ _ _ start Hg1).
      by destruct (Hviews0 start). }
    pose proof (unvisitedCount_bound g2). lia.
Qed.

Section GenerateMaze.
Context {R : RandomEngine} (laws : RandomEngineLaws R).

Lemma generateMazeFuel_perfect fuel (m : Maze R) :
  gridOK (cells m) → (2 * CELL_COUNT ≤ fuel)%nat →
  ∃ m', generateMazeFuel fuel m = Some m' ∧
        m' = withRng (rng m') (withCells (cells m') m) ∧
        perfectMaze (cells m').
Proof.
  intros Hg Hfuel.
  destruct (generate_initial_inv _ Hg)
    as (g0 & g1 & g2 & g3 & H0 & H1 & H2 & H3 & Inv & Hcount).
  destruct (carveLoop_correct laws fuel [V2 1 1] g3 (rng m) _ _ Inv)
    as (g' & r' & vs' & es' & Hrun & Inv'); [simpl; lia|].
  exists (withRng r' (withCells g' m)). split; [|split].
  - unfold generateMazeFuel. rewrite H0. cbn [mbind option_bind].
    rewrite H1. cbn [mbind option_bind]. rewrite H2. cbn [mbind option_bind].
    rewrite H3. cbn [mbind option_bind]. by rewrite Hrun.
  - by destruct m.
  - by eapply genInv_perfect.
Qed.

Lemma generateMaze_correct (m : Maze R) :
  gridOK (cells m) →
  ∃ m', generateMaze m = Some m' ∧
        m' = withRng (rng m') (withCells (cells m') m) ∧
        perfectMaze (cells m').
Proof.
  intros Hg. apply generateMazeFuel_perfect; [done|].
  apply Nat.leb_le. by vm_compute.
Qed.

End GenerateMaze.

(** ** Sessions: the state invariant *)

Section Sessions.
Context {R : RandomEngine}.

(** Moving the player mark from its cell to [dest], as [movePlayer] and
    [autoMoveStep] both do. *)
Lemma relocate_cells (g g1 g2 : Grid) old dest tgt :
  gridOK g → typeAt g old = PLAYER → atMostOneAt PLAYER g old →
  atMostOneAt TARGET g tgt →
  setType PATH g (vx old) (vy old) = Some g1 →
  setType PLAYER g1 (vx dest) (vy dest) = Some g2 →
  gridOK g2 ∧ typeAt g2 dest = PLAYER ∧ atMostOneAt PLAYER g2 dest ∧
  atMostOneAt TARGET g2 tgt ∧
  (∀ p, typeAt g2 p = if decide (p = dest) then PLAYER
                      else if decide (p = old) then PATH else typeAt g p).
Proof.
  intros Hg Hold Huniq Htgt H1 H2.
  assert (∀ p, typeAt g2 p = if decide (p = dest) then PLAYER
                             else if decide (p = old) then PATH else typeAt g p)
    as Hty.
  { intros p. by rewrite (setType_typeAt_pos _ _ _ _ H2),
                         (setType_typeAt_pos _ _ _ _ H1). }
  split; [eapply setType_gridOK; [eapply setType_gridOK|]; done|].
  split; [rewrite Hty; by rewrite decide_True|].
  split; [|split; [|done]].
  - intros q. rewrite Hty. repeat case_decide; try done.
    intros Hq. by apply Huniq in Hq.
  - intros q. rewrite Hty. repeat case_decide; try done. apply Htgt.
Qed.

Lemma movePlayer_WF dx dy (m m' : Maze R) b :
  WF m → movePlayer dx dy m = Some (b, m') → WF m'.
Proof.
  intros [Hg Hp Hpc Hpu Ht Htu Ha Hmp Hi]. unfold movePlayer.
  set (newX := int_add (vx (playerPos m)) dx).
  set (newY := int_add (vy (playerPos m)) dy).
  destruct (isValidPosition newX newY) eqn:Hvalid; [|by intros [= <- <-]].
  destruct (cellAt (cells m) newX newY) as [c|]; [|done]. cbn [mbind option_bind].
  destruct (negb _); [|by intros [= <- <-]].
  destruct (setType PATH (cells m) _ _) as [g1|] eqn:H1; [|done].
  cbn [mbind option_bind].
  destruct (setType PLAYER g1 newX newY) as [g2|] eqn:H2; [|done].
  cbn [mbind option_bind]. intros [= <- <-].
  destruct (relocate_cells _ _ _ _ (V2 newX newY) _ Hg Hpc Hpu Htu H1 H2)
    as (Hg2 & Hd & Hdu & Htu' & _).
  by split.
Qed.

Lemma trail_valid g src l q : trail g src l q → Forall validPos l.
Proof.
  induction 1 as [|l q r _ IH _ Hr]; [constructor|].
  apply Forall_app. split; [done|]. apply Forall_singleton.
  by apply walkable_spec in Hr as [? _].
Qed.

Lemma findPathBFS_WF (m m' : Maze R) :
  WF m → findPathBFS m = Some m' → WF m'.
Proof.
  intros Hwf Hrun. pose proof Hwf as [Hg Hp Hpc Hpu Ht Htu Ha Hmp Hi].
  destruct (findPathBFS_correct m Hg Hp) as (m'' & Hrun' & Hm & Hg' & Hty & _).
  rewrite Hrun in Hrun'. injection Hrun' as <-.
  rewrite Hm. split; fields; try done.
  - by rewrite Hty.
  - intros q. rewrite Hty. apply Hpu.
  - intros q. rewrite Hty. apply Htu.
Qed.

Lemma prepareAutoMove_WF (m m' : Maze R) :
  WF m → prepareAutoMove m = Some m' → WF m'.
Proof.
  intros Hwf. unfold prepareAutoMove.
  destruct (findPathBFS m) as [m1|] eqn:Hrun; [|done]. cbn [mbind option_bind].
  pose proof (findPathBFS_WF _ _ Hwf Hrun) as Hwf1.
  destruct (pathFound m1) eqn:Hfound; intros [= <-]; [|done].
  destruct Hwf as [Hg Hp _ _ _ _ _ _ _].
  destruct (findPathBFS_correct m Hg Hp) as (m'' & Hrun' & Hm & _ & _ & Hres).
  rewrite Hrun in Hrun'. injection Hrun' as <-. rewrite Hfound in Hres.
  destruct Hres as [[Htr _] Hlen].
  destruct Hwf1 as [Hg1 Hp1 Hpc1 Hpu1 Ht1 Htu1 Ha1 Hmp1 Hi1].
  split; fields; try done.
  split; [|cbn [length]; lia]. constructor; [done|]. by eapply trail_valid.
Qed.

Lemma autoMoveStep_WF (m m' : Maze R) b :
  WF m → autoMoveStep m = Some (b, m') → WF m'.
Proof.
  intros [Hg Hp Hpc Hpu Ht Htu Ha Hmp Hi]. unfold autoMoveStep.
  destruct (negb (autoMoving m) || _).
  { intros [= <- <-]. by split. }
  set (idx := int_add (currentMoveIndex m) 1).
  destruct (if 0 <=? idx then movePath m !! Z.to_nat idx else None)
    as [nextPos|] eqn:Hnext; [|done].
  cbn [mbind option_bind].
  destruct (setType PATH (cells m) _ _) as [g1|] eqn:H1; [|done].
  cbn [mbind option_bind].
  destruct (setType PLAYER g1 _ _) as [g2|] eqn:H2; [|done].
  cbn [mbind option_bind]. intros [= <- <-].
  destruct (relocate_cells _ _ _ _ nextPos _ Hg Hpc Hpu Htu H1 H2)
    as (Hg2 & Hd & Hdu & Htu' & _).
  assert (validPos nextPos) as Hnv.
  { destruct (0 <=? idx); [|done]. destruct Hmp as [Hall _].
    rewrite Forall_lookup in Hall. by eapply Hall. }
  assert (is_int idx) as Hidx by apply wrap_int_range.
  destruct (Vector2i_eqb nextPos _); by split.
Qed.

Lemma reset_WF (m : Maze R) :
  gridOK (cells m) →
  atMostOneAt TARGET (cells m) (V2 (MAZE_WIDTH - 2) (MAZE_HEIGHT - 2)) →
  ∃ m', reset m = Some m' ∧ WF m' ∧ exactlyOne TARGET (cells m') ∧
        autoMoving m' = false ∧ movePath m' = [] ∧ currentMoveIndex m' = 0 ∧
        pathFound m' = false ∧ (∀ p, visitedAt (cells m') p = false).
Proof.
  intros Hg Htu. unfold reset.
  set (g0 := map (map resetCell) (cells m)).
  set (player := V2 1 1). set (target := V2 (MAZE_WIDTH - 2) (MAZE_HEIGHT - 2)).
  assert (gridOK g0) as Hg0 by by apply map_gridOK.
  assert (∀ p, typeAt g0 p = if decide (typeAt (cells m) p = PLAYER) then PATH
                             else typeAt (cells m) p) as Hty0.
  { intros p. unfold typeAt, cellP, g0. rewrite cellAt_map.
    destruct (cellAt (cells m) (vx p) (vy p)) as [c|]; simpl; [|done].
    by destruct (type c). }
  assert (∀ p, visitedAt g0 p = false) as Hvi0.
  { intros p. unfold visitedAt, cellP, g0. rewrite cellAt_map.
    by destruct (cellAt (cells m) (vx p) (vy p)). }
  destruct (setType_defined PLAYER g0 (vx player) (vy player) Hg0 eq_refl)
    as [g1 H1].
  pose proof (setType_gridOK _ _ _ _ _ Hg0 H1) as Hg1.
  destruct (setType_defined TARGET g1 (vx target) (vy target) Hg1 eq_refl)
    as [g2 H2].
  rewrite H1. cbn [mbind option_bind]. rewrite H2. cbn [mbind option_bind].
  assert (∀ p, typeAt g2 p = if decide (p = target) then TARGET
                             else if decide (p = player) then PLAYER
                             else typeAt g0 p) as Hty.
  { intros p. by rewrite (setType_typeAt_pos _ _ _ _ H2),
                         (setType_typeAt_pos _ _ _ _ H1). }
  assert (atMostOneAt TARGET g2 target) as Htu2.
  { intros q. rewrite Hty, Hty0. repeat case_decide; try done. apply Htu. }
  eexists. split; [done|]. split; [|split].
  - split; fields; try done.
    + by eapply setType_gridOK.
    + intros q. rewrite Hty, Hty0. by repeat case_decide.
    + split; [constructor|cbn [length]; lia].
  - exists target. fields. split; [|done]. rewrite Hty. by rewrite decide_True.
  - fields. do 4 (split; [done|]). intros p.
    by rewrite (setType_visitedAt _ _ _ _ _ p H2),
               (setType_visitedAt _ _ _ _ _ p H1).
Qed.

Lemma performAll_reachable ops (m m' : Maze R) :
  reachableState m → performAll ops m = Some m' → reachableState m'.
Proof.
  revert m. induction ops as [|o ops IH]; intros m Hm; cbn [performAll].
  - by intros [= <-].
  - destruct (perform o m) as [m1|] eqn:Hstep; [|done]. cbn [mbind option_bind].
    apply IH. exact (reachable_perform _ _ _ Hm Hstep).
Qed.

Section WithLaws.
Context (laws : RandomEngineLaws R).

Lemma generateMaze_no_marks (m m1 : Maze R) :
  gridOK (cells m) → generateMaze m = Some m1 →
  gridOK (cells m1) ∧ ∀ t p, t ≠ WALL → t ≠ PATH → typeAt (cells m1) p ≠ t.
Proof.
  intros Hg Hrun.
  destruct (generateMaze_correct laws m Hg) as (m' & Hrun' & _ & Hperf).
  rewrite Hrun in Hrun'. injection Hrun' as <-.
  destruct Hperf as (Hg1 & Hkinds & _). split; [done|].
  intros t p Hw Hp. destruct (Hkinds p); congruence.
Qed.

Lemma generateNewMaze_WF (m : Maze R) :
  gridOK (cells m) →
  ∃ m', generateNewMaze m = Some m' ∧ WF m' ∧ exactlyOne TARGET (cells m') ∧
        autoMoving m' = false ∧ movePath m' = [] ∧ currentMoveIndex m' = 0 ∧
        pathFound m' = false ∧ (∀ p, visitedAt (cells m') p = false).
Proof.
  intros Hg. unfold generateNewMaze.
  destruct (generateMaze_correct laws m Hg) as (m1 & Hrun & _ & _).
  destruct (generateMaze_no_marks m m1 Hg Hrun) as [Hg1 Hno].
  rewrite Hrun. cbn [mbind option_bind]. apply reset_WF; [done|].
  intros q Hq. by destruct (Hno TARGET q).
Qed.

Lemma newMaze_unfold seed :
  newMaze seed =
  generateNewMaze
    (mkMaze (replicate (Z.to_nat MAZE_HEIGHT)
                       (replicate (Z.to_nat MAZE_WIDTH) defaultCell))
            [] [] (V2 0 0) (V2 0 0) false false 0 seed).
Proof. reflexivity. Qed.

Lemma newMaze_WF seed :
  ∃ m, newMaze seed = Some m ∧ WF m ∧ exactlyOne TARGET (cells m).
Proof.
  rewrite newMaze_unfold.
  destruct (generateNewMaze_WF
              (mkMaze (replicate (Z.to_nat MAZE_HEIGHT)
                         (replicate (Z.to_nat MAZE_WIDTH) defaultCell))
                      [] [] (V2 0 0) (V2 0 0) false false 0 seed))
    as (m & Hrun & Hwf & Ht & _).
  { split; [done|]. by apply (bool_decide_unpack _). }
  exists m. split; [exact Hrun|]. split; [exact Hwf|exact Ht].
Qed.

Lemma perform_WF o (m m' : Maze R) :
  WF m → perform o m = Some m' → WF m'.
Proof.
  intros Hwf. destruct o; cbn [perform].
  - destruct (movePlayer dx dy m) as [[b m1]|] eqn:Hrun; [|done].
    intros [= <-]. by eapply movePlayer_WF.
  - by apply findPathBFS_WF.
  - by apply prepareAutoMove_WF.
  - destruct (autoMoveStep m) as [[b m1]|] eqn:Hrun; [|done].
    intros [= <-]. by eapply autoMoveStep_WF.
  - destruct (reset_WF m) as (m1 & Hrun & Hwf1 & _); [apply Hwf| |].
    { rewrite <- (wf_target _ Hwf). apply Hwf. }
    rewrite Hrun. by intros [= <-].
  - destruct (generateNewMaze_WF m) as (m1 & Hrun & Hwf1 & _); [apply Hwf|].
    rewrite Hrun. by intros [= <-].
Qed.

Lemma reachableState_WF (m : Maze R) : reachableState m → WF m.
Proof.
  induction 1 as [seed m Hnew|o m m' _ IH Hstep].
  - destruct (newMaze_WF seed) as (m1 & Hrun & Hwf & _).
    rewrite Hnew in Hrun. by injection Hrun as <-.
  - by eapply perform_WF.
Qed.

End WithLaws.

End Sessions.

(** ** Sessions: the claims about marks and animation state *)

Section SessionClaims.
Context {R : RandomEngine} (laws : RandomEngineLaws R).

Lemma exactlyOne_ext t g g' :
  (∀ p, typeAt g' p = typeAt g p) → exactlyOne t g → exactlyOne t g'.
Proof.
  intros Hty (p & Hp & Hu). exists p. rewrite Hty. split; [done|].
  intros q. rewrite Hty. apply Hu.
Qed.

Lemma WF_exactlyOne_PLAYER (m : Maze R) : WF m → exactlyOne PLAYER (cells m).
Proof. intros Hwf. exists (playerPos m). split; apply Hwf. Qed.

(** The [TARGET] mark survives a move of the player to any other cell. *)
Lemma relocate_target_kept (g g1 g2 : Grid) old dest tgt :
  gridOK g → typeAt g old = PLAYER → atMostOneAt PLAYER g old →
  atMostOneAt TARGET g tgt →
  setType PATH g (vx old) (vy old) = Some g1 →
  setType PLAYER g1 (vx dest) (vy dest) = Some g2 →
  exactlyOne TARGET g → dest ≠ tgt → exactlyOne TARGET g2.
Proof.
  intros Hg Hold Hpu Htu H1 H2 (p0 & Hp0 & _) Hne.
  destruct (relocate_cells _ _ _ _ _ _ Hg Hold Hpu Htu H1 H2)
    as (_ & _ & _ & Htu2 & Hty).
  pose proof (Htu _ Hp0) as ->. exists tgt. split; [|done].
  rewrite Hty. rewrite decide_False by done.
  rewrite decide_False; [done|]. intros ->. congruence.
Qed.

Lemma perform_target_kept o (m m' : Maze R) :
  WF m → perform o m = Some m' →
  exactlyOne TARGET (cells m) → playerPos m' ≠ targetPos m' →
  exactlyOne TARGET (cells m').
Proof.
  intros Hwf. pose proof Hwf as [Hg Hp Hpc Hpu Ht Htu Ha Hmp Hi].
  destruct o; cbn [perform].
  - unfold movePlayer.
    set (newX := int_add (vx (playerPos m)) dx).
    set (newY := int_add (vy (playerPos m)) dy).
    destruct (isValidPosition newX newY); [|by intros [= <-]].
    destruct (cellAt (cells m) newX newY) as [c|]; [|done]. cbn [mbind option_bind].
    destruct (negb _); [|by intros [= <-]].
    destruct (setType PATH (cells m) _ _) as [g1|] eqn:H1; [|done].
    cbn [mbind option_bind].
    destruct (setType PLAYER g1 newX newY) as [g2|] eqn:H2; [|done].
    cbn [mbind option_bind fmap option_fmap option_map snd]. intros [= <-]. fields.
    intros Hone Hne.
    by eapply (relocate_target_kept _ _ _ _ (V2 newX newY)).
  - intros Hrun Hone _.
    destruct (findPathBFS_correct m Hg Hp) as (m'' & Hrun' & _ & _ & Hty & _).
    rewrite Hrun in Hrun'. injection Hrun' as <-. by eapply exactlyOne_ext.
  - unfold prepareAutoMove.
    destruct (findPathBFS_correct m Hg Hp) as (m1 & Hrun & _ & _ & Hty & _).
    rewrite Hrun. cbn [mbind option_bind].
    destruct (pathFound m1); intros [= <-] Hone _; fields;
      by eapply exactlyOne_ext.
  - unfold autoMoveStep. destruct (negb (autoMoving m) || _).
    { by intros [= <-]. }
    destruct (if 0 <=? _ then _ else None) as [nextPos|]; [|done].
    cbn [mbind option_bind].
    destruct (setType PATH (cells m) _ _) as [g1|] eqn:H1; [|done].
    cbn [mbind option_bind].
    destruct (setType PLAYER g1 _ _) as [g2|] eqn:H2; [|done].
    cbn [mbind option_bind fmap option_fmap option_map snd]. intros [= <-].
    intros Hone Hne.
    assert (nextPos ≠ targetPos m) as Hne'.
    { destruct (Vector2i_eqb nextPos _); fields; done. }
    assert (exactlyOne TARGET g2) as Hone2.
    { by eapply (relocate_target_kept _ _ _ _ nextPos). }
    destruct (Vector2i_eqb nextPos _); fields; done.
  - intros Hrun _ _. destruct (reset_WF m) as (m1 & Hrun' & _ & Hone & _); [done| |].
    { by rewrite <- Ht. }
    rewrite Hrun in Hrun'. by injection Hrun' as <-.
  - intros Hrun _ _.
    destruct (generateNewMaze_WF laws m Hg) as (m1 & Hrun' & _ & Hone & _).
    rewrite Hrun in Hrun'. by injection Hrun' as <-.
Qed.

(** C4, as the code has it: from the constructor on, exactly one cell is
    tagged [PLAYER], namely the cell at [playerPos]; at most one cell is
    tagged [TARGET], and only the cell at [targetPos]; the constructor,
    [reset] and [generateNewMaze] leave exactly one [TARGET] cell, and every
    operation keeps it as long as it does not put the player on the target
    position. *)
Theorem player_target_marks :
  (∀ seed (m : Maze R), newMaze seed = Some m →
     exactlyOne PLAYER (cells m) ∧ exactlyOne TARGET (cells m)) ∧
  (∀ m : Maze R, reachableState m →
     exactlyOne PLAYER (cells m) ∧
     typeAt (cells m) (playerPos m) = PLAYER ∧
     atMostOneAt TARGET (cells m) (targetPos m) ∧
     ∀ o m', perform o m = Some m' →
       exactlyOne PLAYER (cells m') ∧
       (o = OpReset ∨ o = OpGenerateNewMaze → exactlyOne TARGET (cells m')) ∧
       (exactlyOne TARGET (cells m) → playerPos m' ≠ targetPos m' →
        exactlyOne TARGET (cells m'))).
Proof.
  split.
  - intros seed m Hnew. destruct (newMaze_WF laws seed) as (m1 & Hrun & Hwf & Hone).
    rewrite Hnew in Hrun. injection Hrun as <-.
    split; [by apply WF_exactlyOne_PLAYER|done].
  - intros m Hm. pose proof (reachableState_WF laws m Hm) as Hwf.
    split; [by apply WF_exactlyOne_PLAYER|]. do 2 (split; [apply Hwf|]).
    intros o m' Hstep. split; [|split].
    + apply WF_exactlyOne_PLAYER. by eapply perform_WF.
    + intros [-> | ->]; cbn [perform] in Hstep.
      * destruct (reset_WF m) as (m1 & Hrun' & _ & Hone & _); [apply Hwf| |].
        { rewrite <- (wf_target _ Hwf). apply Hwf. }
        rewrite Hstep in Hrun'. by injection Hrun' as <-.
      * destruct (generateNewMaze_WF laws m) as (m1 & Hrun' & _ & Hone & _);
          [apply Hwf|].
        rewrite Hstep in Hrun'. by injection Hrun' as <-.
    + by eapply perform_target_kept.
Qed.

Lemma size_t_small z : 0 ≤ z < SIZE_MOD → to_size_t z = z.
Proof. intros. unfold to_size_t. by apply Z.mod_small. Qed.

Lemma CELL_COUNT_small : Z.of_nat CELL_COUNT < 2 ^ 31.
Proof. vm_compute. reflexivity. Qed.

(** C9: in every state the session can reach, an active animation has a
    non-empty animation path, so [movePath.size() - 1] does not wrap around
    in the unsigned comparison of [autoMoveStep]. *)
Theorem autoMoving_movePath_nonempty (m : Maze R) :
  reachableState m → autoMoving m = true →
  movePath m ≠ [] ∧ 0 ≤ Z.of_nat (length (movePath m)) - 1 ∧
  to_size_t (Z.of_nat (length (movePath m)) - 1)
  = Z.of_nat (length (movePath m)) - 1.
Proof.
  intros Hm Hauto. pose proof (reachableState_WF laws m Hm) as Hwf.
  pose proof (wf_auto _ Hwf Hauto) as Hne. destruct (wf_movePath _ Hwf) as [_ Hlen].
  split; [done|]. destruct (movePath m) as [|p l]; [done|].
  pose proof CELL_COUNT_small. cbn [length] in *.
  split; [lia|]. apply size_t_small. unfold SIZE_MOD. lia.
Qed.

Lemma movePlayer_frame dx dy (m : Maze R) :
  WF m →
  ∃ b m', movePlayer dx dy m = Some (b, m') ∧
          autoMoving m' = autoMoving m ∧ movePath m' = movePath m ∧
          currentMoveIndex m' = currentMoveIndex m.
Proof.
  intros [Hg Hp Hpc Hpu Ht Htu Ha Hmp Hi]. unfold movePlayer.
  set (newX := int_add (vx (playerPos m)) dx).
  set (newY := int_add (vy (playerPos m)) dy).
  destruct (isValidPosition newX newY) eqn:Hvalid; [|by eexists _, _].
  destruct (cellAt_valid _ _ _ Hg Hvalid) as [c ->]. cbn [mbind option_bind].
  destruct (negb _); [|by eexists _, _].
  destruct (setType_defined PATH _ _ _ Hg Hp) as [g1 H1]. rewrite H1.
  cbn [mbind option_bind].
  destruct (setType_defined PLAYER g1 newX newY) as [g2 H2];
    [by eapply setType_gridOK|done|].
  rewrite H2. cbn [mbind option_bind]. by eexists _, _.
Qed.

Lemma animation_cancellation_WF (m : Maze R) :
  WF m →
  (∃ m', reset m = Some m' ∧
         autoMoving m' = false ∧ movePath m' = [] ∧ currentMoveIndex m' = 0) ∧
  (∃ m', generateNewMaze m = Some m' ∧
         autoMoving m' = false ∧ movePath m' = [] ∧ currentMoveIndex m' = 0) ∧
  (∀ dx dy, ∃ b m', movePlayer dx dy m = Some (b, m') ∧
         autoMoving m' = autoMoving m ∧ movePath m' = movePath m ∧
         currentMoveIndex m' = currentMoveIndex m) ∧
  (∀ key, autoMoving m = true → specialKeys key m = Some m).
Proof.
  intros Hwf. split; [|split; [|split]].
  - destruct (reset_WF m) as (m' & Hrun & _ & _ & H1 & H2 & H3 & _); [apply Hwf| |].
    { rewrite <- (wf_target _ Hwf). apply Hwf. }
    by exists m'.
  - destruct (generateNewMaze_WF laws m) as (m' & Hrun & _ & _ & H1 & H2 & H3 & _);
      [apply Hwf|].
    by exists m'.
  - intros dx dy. by apply movePlayer_frame.
  - intros key Hauto. unfold specialKeys. by rewrite Hauto.
Qed.

End SessionClaims.

(** ** The animation *)

Section Animation.
Context {R : RandomEngine}.

Lemma withAutoMoving_false_id (m : Maze R) :
  autoMoving m = false → withAutoMoving false m = m.
Proof. destruct m. simpl. by intros ->. Qed.

(** Once [autoMoving] is clear, every call is a no-op returning false. *)
Lemma idle_steps (m : Maze R) k :
  autoMoving m = false → autoMoveSteps k m = Some (replicate k false, m).
Proof.
  intros Hauto. induction k as [|k IH]; [done|].
  cbn [autoMoveSteps]. unfold autoMoveStep at 1. rewrite Hauto.
  cbn [negb orb mbind option_bind]. rewrite withAutoMoving_false_id by done.
  by rewrite IH.
Qed.

(** The steps that remain when the animation stands at index [i] of the
    animation path [src :: l]. *)
Lemma anim_steps src tgt (l : list Vector2i) :
  (length l < CELL_COUNT)%nat →
  (∀ j p, l !! j = Some p → validPos p ∧ (p = tgt ↔ S j = length l)) →
  ∀ k i (m : Maze R),
    (i + k = length l)%nat → (1 ≤ k → autoMoving m = true)%nat →
    gridOK (cells m) → validPos (playerPos m) →
    movePath m = src :: l → currentMoveIndex m = Z.of_nat i →
    targetPos m = tgt →
    ∃ m2, autoMoveSteps k m = Some (replicate k true, m2) ∧
          targetPos m2 = tgt ∧
          ((1 ≤ k)%nat → playerPos m2 = tgt ∧ autoMoving m2 = false) ∧
          (k = 0%nat → m2 = m).
Proof.
  intros Hlen Hl. pose proof CELL_COUNT_small as Hsmall.
  induction k as [|k IH]; intros i m Hik Hauto Hg Hp Hmp Hidx Htgt.
  { exists m. split; [done|]. split; [done|]. split; [lia|done]. }
  cbn [autoMoveSteps]. unfold autoMoveStep at 1.
  rewrite Hauto, Hmp, Hidx by lia. cbn [negb orb length].
  rewrite !size_t_small by (unfold SIZE_MOD; lia).
  rewrite (proj2 (Z.leb_gt _ _)) by lia.
  unfold int_add. rewrite wrap_int_small by (unfold is_int, INT_MIN, INT_MAX; lia).
  replace (0 <=? Z.of_nat i + 1) with true by lia.
  replace (Z.to_nat (Z.of_nat i + 1)) with (S i) by lia.
  change ((src :: l) !! S i) with (l !! i).
  destruct (lookup_lt_is_Some_2 l i) as [p Hpi]; [lia|].
  rewrite Hpi. cbn [mbind option_bind].
  destruct (Hl _ _ Hpi) as [Hpv Hpt].
  destruct (setType_defined PATH _ _ _ Hg Hp) as [g1 H1]. rewrite H1.
  cbn [mbind option_bind].
  destruct (setType_defined PLAYER g1 (vx p) (vy p)) as [g2 H2];
    [by eapply setType_gridOK|done|].
  rewrite H2. cbn [mbind option_bind]. fields. rewrite Htgt.
  assert (gridOK g2) as Hg2.
  { eapply setType_gridOK; [eapply setType_gridOK|]; done. }
  destruct (Vector2i_eqb p tgt) eqn:Heq.
  - apply Vector2i_eqb_eq in Heq. apply Hpt in Heq.
    assert (k = 0%nat) as -> by lia. cbn [autoMoveSteps mbind option_bind replicate].
    eexists. split; [done|]. fields. split; [done|]. split; [|done].
    intros _. split; [|done]. apply Hpt. lia.
  - apply Vector2i_eqb_neq in Heq.
    assert (1 ≤ k)%nat as Hk.
    { destruct k; [|lia]. exfalso. apply Heq, Hpt. lia. }
    edestruct (IH (S i)) as (m2 & Hrun & Ht2 & Hend & _); cycle -1.
    + rewrite Hrun. cbn [mbind option_bind replicate].
      exists m2. split; [done|]. split; [done|]. split; [|done].
      intros _. by apply Hend.
    + lia.
    + intros _. fields. by apply Hauto; lia.
    + done.
    + done.
    + done.
    + fields. lia.
    + done.
Qed.

Lemma trail_nil_inv g src q : trail g src [] q → q = src.
Proof.
  inversion 1 as [|l q' r _ _ _ Hl]; [done|]. by destruct l.
Qed.

Lemma geodesic_lookup g src l tgt j p :
  geodesic g src l tgt → l !! j = Some p →
  validPos p ∧ (p = tgt ↔ S j = length l).
Proof.
  intros Hgeo Hj. pose proof (geodesic_distance _ _ _ _ Hgeo) as Hd.
  destruct Hgeo as [Htr Hdist]. split.
  - pose proof (trail_valid _ _ _ _ Htr) as Hall.
    rewrite Forall_lookup in Hall. by eapply Hall.
  - split.
    + intros ->. eapply distance_unique; [by apply Hdist|done].
    + intros Hlen. destruct Htr as [|l q r Htr Hadj Hr]; [done|].
      rewrite length_app in Hlen. simpl in Hlen.
      rewrite lookup_app_r in Hj by lia.
      replace (j - length l)%nat with 0%nat in Hj by lia. by injection Hj.
Qed.

Lemma autoMove_animation_WF (m m1 : Maze R) :
  WF m → prepareAutoMove m = Some m1 → pathFound m1 = true →
  autoMoving m1 = true ∧
  ∃ m2, autoMoveSteps (length (path m1)) m1
        = Some (replicate (length (path m1)) true, m2) ∧
    playerPos m2 = targetPos m2 ∧
    (path m1 ≠ [] → autoMoving m2 = false) ∧
    (path m1 = [] → m2 = m1) ∧
    ∀ k, ∃ m3, autoMoveSteps (S k) m2 = Some (replicate (S k) false, m3) ∧
               autoMoving m3 = false ∧ playerPos m3 = targetPos m3.
Proof.
  intros Hwf Hprep Hfound. pose proof Hwf as [Hg Hp _ _ _ _ _ _ _].
  unfold prepareAutoMove in Hprep.
  destruct (findPathBFS_correct m Hg Hp) as (m0 & Hrun & Hm0 & Hg0 & _ & Hres).
  rewrite Hrun in Hprep. cbn [mbind option_bind] in Hprep.
  destruct (pathFound m0) eqn:Hf0; injection Hprep as <-; fields; [|congruence].
  destruct Hres as [Hgeo Hlen]. split; [done|].
  assert (playerPos m0 = playerPos m ∧ targetPos m0 = targetPos m) as [Hpp Htp].
  { rewrite Hm0. by fields. }
  set (m1 := withMovePath (playerPos m0 :: path m0)
               (withCurrentMoveIndex 0 (withAutoMoving true m0))).
  destruct (anim_steps (playerPos m0) (targetPos m) (path m0) Hlen
              (λ j p, geodesic_lookup _ _ _ _ j p Hgeo)
              (length (path m0)) 0%nat m1) as (m2 & Hsteps & Ht2 & Hend & Hzero);
    try done.
  { change (validPos (playerPos m0)). by rewrite Hpp. }
  exists m2. split; [done|].
  destruct (path m0) as [|p0 l0] eqn:Hpath.
  - specialize (Hzero eq_refl). subst m2. destruct Hgeo as [Htr _].
    apply trail_nil_inv in Htr.
    assert (playerPos m1 = targetPos m1) as Hat.
    { unfold m1. fields. congruence. }
    split; [done|]. split; [done|]. split; [done|]. intros k.
    cbn [autoMoveSteps]. unfold autoMoveStep at 1. unfold m1 at 1 2 3. fields.
    change (negb true ||
            (to_size_t (Z.of_nat (length [playerPos m0]) - 1) <=? to_size_t 0))
      with true.
    cbn [mbind option_bind].
    rewrite idle_steps by done. cbn [mbind option_bind].
    eexists. split; [done|]. split; [done|]. exact Hat.
  - destruct Hend as [Hpt Hoff]; [cbn [length]; lia|].
    split; [congruence|]. split; [done|]. split; [done|]. intros k.
    exists m2. split; [by apply idle_steps|]. split; [done|congruence].
Qed.

End Animation.

(** ** The concrete session *)

Lemma LcgEngine_laws : RandomEngineLaws LcgEngine.
Proof.
  split.
  - intros l r. simpl. destruct (Z.odd _); [|done].
    symmetry. apply reverse_Permutation.
  - intros lo hi r Hle. simpl.
    pose proof (Z.mod_pos_bound (r / 65536) (hi - lo + 1)). lia.
Qed.

(** An option that computes to [Some] is [Some] of its [default]. *)
Lemma default_Some {A} (o : option A) (d : A) :
  (match o with Some _ => true | None => false end) = true →
  o = Some (default d o).
Proof. by destruct o. Qed.

Lemma default_Some_snd {A} (o : option (bool * A)) (d : A) (b : bool) :
  (match o with Some (b', _) => Bool.eqb b b' | None => false end) = true →
  o = Some (b, default d (snd <$> o)).
Proof.
  destruct o as [[b' a]|]; [|done]. simpl. by intros ->%Bool.eqb_prop.
Qed.

Lemma exampleStart_new : newMaze (lcgSeed 42) = Some exampleStart.
Proof. apply default_Some. vm_compute. reflexivity. Qed.

Lemma exampleSolving_prepared : prepareAutoMove exampleStart = Some exampleSolving.
Proof. apply default_Some. vm_compute. reflexivity. Qed.

Lemma exampleArrived_stepped :
  performAll (replicate 60 OpAutoMoveStep) exampleSolving = Some exampleArrived.
Proof. apply default_Some. vm_compute. reflexivity. Qed.

Lemma exampleMoved_moved :
  movePlayer 0 1 exampleSolving = Some (true, exampleMoved).
Proof. apply default_Some_snd. vm_compute. reflexivity. Qed.

Lemma exampleResolved_prepared :
  prepareAutoMove exampleArrived = Some exampleResolved.
Proof. apply default_Some. vm_compute. reflexivity. Qed.

Lemma exampleStart_reachable : reachableState exampleStart.
Proof. exact (reachable_new (lcgSeed 42) _ exampleStart_new). Qed.

Lemma exampleSolving_reachable : reachableState exampleSolving.
Proof.
  exact (reachable_perform OpPrepareAutoMove _ _ exampleStart_reachable
           exampleSolving_prepared).
Qed.

Lemma exampleArrived_reachable : reachableState exampleArrived.
Proof.
  exact (performAll_reachable _ _ _ exampleSolving_reachable
           exampleArrived_stepped).
Qed.

Lemma checkTrail_reachable g src l q :
  checkTrail g src l q = true → reachable g src q.
Proof.
  assert (∀ l p, reachable g src p → checkTrail g p l q = true →
                 reachable g src q) as Hgen.
  { clear l. induction l as [|r l IH]; intros p Hp; simpl.
    - by intros ->%Vector2i_eqb_eq.
    - intros [[Hadj Hw]%andb_true_iff Hrest]%andb_true_iff.
      apply (IH r); [|done]. eapply reachable_step; [done| |done].
      unfold adjacentb in Hadj. apply existsb_exists in Hadj as (d & Hd & Heq).
      exists d. split; [by apply list_elem_of_In|]. by apply Vector2i_eqb_eq. }
  apply Hgen. exists 0%nat. constructor.
Qed.

(** Looking at every cell of a grid settles that a mark is absent. *)
Lemma no_mark_scan g t :
  gridOK g → t ≠ WALL →
  Forall (λ p, typeAt g p ≠ t) allPositions → ∀ p, typeAt g p ≠ t.
Proof.
  intros Hg Ht Hall p Hp. rewrite Forall_forall in Hall.
  apply (Hall p); [|done]. apply elem_of_allPositions.
  apply (typeAt_not_WALL_valid g); [done|congruence].
Qed.

Lemma exampleStart_gridOK : gridOK (cells exampleStart).
Proof. apply (bool_decide_unpack _). vm_compute. exact I. Qed.

Lemma exampleArrived_gridOK : gridOK (cells exampleArrived).
Proof. apply (bool_decide_unpack _). vm_compute. exact I. Qed.

(** * The claims on sessions, and the claims run on the concrete session *)

(** C1: whatever the grid held before and whatever the random engine
    answers, [generateMaze] returns, and the grid it leaves is a perfect
    maze: every [PATH] cell is reachable from (1,1) through 4-connected
    non-wall cells, every room of the odd-coordinate lattice is [PATH], and
    the carved connections form a spanning tree of the rooms: they connect
    every room to (1,1), contain no cycle, and number one less than the
    rooms (99 for the 100 rooms of the 21x21 grid). *)
Theorem generateMaze_perfect {R : RandomEngine} (laws : RandomEngineLaws R)
    (m : Maze R) :
  gridOK (cells m) →
  ∃ m', generateMaze m = Some m' ∧
        m' = withRng (rng m') (withCells (cells m') m) ∧
        perfectMaze (cells m') ∧
        length (connections (cells m')) = 99%nat.
Proof.
  intros Hg.
  destruct (generateMaze_correct laws m Hg) as (m' & Hrun & Hm & Hperf).
  exists m'. do 3 (split; [done|]).
  destruct Hperf as (_ & _ & _ & _ & _ & _ & ->). by rewrite rooms_count.
Qed.

Lemma generateMaze_perfect_witness :
  gridOK (cells exampleStart) ∧
  ∃ m', generateMaze exampleStart = Some m' ∧
        m' = withRng (rng m') (withCells (cells m') exampleStart) ∧
        perfectMaze (cells m') ∧
        length (connections (cells m')) = 99%nat.
Proof.
  split; [exact exampleStart_gridOK|].
  apply (generateMaze_perfect LcgEngine_laws exampleStart).
  exact exampleStart_gridOK.
Defined.

Lemma findPathBFS_shortest_witness :
  reachable (cells exampleStart) (playerPos exampleStart) (targetPos exampleStart) ∧
  ∃ m', findPathBFS exampleStart = Some m' ∧ pathFound m' = true ∧
        trail (cells exampleStart) (playerPos exampleStart) (path m')
              (targetPos exampleStart) ∧
        distance (cells exampleStart) (playerPos exampleStart)
                 (targetPos exampleStart) (length (path m')).
Proof.
  assert (reachable (cells exampleStart) (playerPos exampleStart)
                    (targetPos exampleStart)) as Hreach.
  { apply (checkTrail_reachable _ _ (path exampleSolving)).
    vm_compute. reflexivity. }
  split; [exact Hreach|].
  apply (findPathBFS_shortest exampleStart);
    [exact exampleStart_gridOK|vm_compute; reflexivity|exact Hreach].
Defined.

Lemma movePlayer_spec_witness :
  (∃ m', movePlayer 0 1 exampleStart
         = Some (walkable (cells exampleStart) (V2 (1 + 0) (1 + 1)), m')) ∧
  (∃ m', movePlayer 0 0 exampleStart = Some (true, m') ∧
         typeAt (cells m') (playerPos exampleStart) = PLAYER).
Proof.
  assert (gridOK (cells exampleStart)) as Hg by exact exampleStart_gridOK.
  assert (validPos (playerPos exampleStart)) as Hp by (vm_compute; reflexivity).
  assert (is_int 0 ∧ is_int 1) as [H0 H1]
    by (unfold is_int, INT_MIN, INT_MAX; lia).
  split.
  - destruct (movePlayer_spec exampleStart 0 1 Hg Hp H0 H1) as (m' & Hrun & _).
    exists m'. exact Hrun.
  - pose proof (movePlayer_spec exampleStart 0 0 Hg Hp H0 H0) as Hspec.
    cbv zeta in Hspec.
    assert (V2 (vx (playerPos exampleStart) + 0) (vy (playerPos exampleStart) + 0)
            = playerPos exampleStart) as Hdest by (vm_compute; reflexivity).
    rewrite Hdest in Hspec.
    assert (walkable (cells exampleStart) (playerPos exampleStart) = true)
      as Hopen by (vm_compute; reflexivity).
    rewrite Hopen in Hspec. destruct Hspec as (m' & Hrun & _ & _ & Hplayer & _).
    exists m'. split; [exact Hrun|exact Hplayer].
Defined.

Lemma findPathBFS_at_target_witness :
  playerPos exampleArrived = targetPos exampleArrived ∧
  ∃ m', findPathBFS exampleArrived = Some m' ∧ pathFound m' = true ∧
        path m' = [].
Proof.
  split; [vm_compute; reflexivity|].
  apply (findPathBFS_at_target exampleArrived).
  - exact exampleArrived_gridOK.
  - vm_compute. reflexivity.
  - vm_compute. reflexivity.
Defined.

Lemma player_target_marks_witness :
  exactlyOne PLAYER (cells exampleStart) ∧ exactlyOne TARGET (cells exampleStart).
Proof.
  exact (proj1 (player_target_marks LcgEngine_laws) _ _ exampleStart_new).
Defined.

(** C4 as it is written fails: when the animation has brought the player
    onto the target position, the cell there is tagged [PLAYER] and no cell
    is tagged [TARGET]. *)
Lemma target_mark_lost :
  ¬ (∀ m : Maze LcgEngine, reachableState m →
       exactlyOne PLAYER (cells m) ∧ exactlyOne TARGET (cells m)).
Proof.
  intros H. destruct (H _ exampleArrived_reachable) as [_ (p & Hp & _)].
  revert Hp. apply no_mark_scan; [exact exampleArrived_gridOK|done|].
  apply (bool_decide_unpack _). vm_compute. exact I.
Qed.

(** C5, as the code has it: in every reachable state [reset] and
    [generateNewMaze] end the animation (they clear [autoMoving], empty
    [movePath] and zero the index); [movePlayer] leaves the animation state
    as it is, and it is the input adapter [specialKeys] that ignores the
    arrow keys while [autoMoving] is set. *)
Theorem animation_cancellation {R : RandomEngine} (laws : RandomEngineLaws R)
    (m : Maze R) :
  reachableState m →
  (∃ m', reset m = Some m' ∧
         autoMoving m' = false ∧ movePath m' = [] ∧ currentMoveIndex m' = 0) ∧
  (∃ m', generateNewMaze m = Some m' ∧
         autoMoving m' = false ∧ movePath m' = [] ∧ currentMoveIndex m' = 0) ∧
  (∀ dx dy, ∃ b m', movePlayer dx dy m = Some (b, m') ∧
         autoMoving m' = autoMoving m ∧ movePath m' = movePath m ∧
         currentMoveIndex m' = currentMoveIndex m) ∧
  (∀ key, autoMoving m = true → specialKeys key m = Some m).
Proof.
  intros Hm. by apply animation_cancellation_WF, reachableState_WF.
Qed.

Lemma animation_cancellation_witness :
  autoMoving exampleSolving = true ∧
  ∃ m', reset exampleSolving = Some m' ∧
        autoMoving m' = false ∧ movePath m' = [] ∧ currentMoveIndex m' = 0.
Proof.
  split; [vm_compute; reflexivity|].
  exact (proj1 (animation_cancellation LcgEngine_laws exampleSolving
                  exampleSolving_reachable)).
Defined.

(** C5 as it is written fails: a manual move during the animation leaves
    [autoMoving] set. *)
Lemma movePlayer_keeps_animation :
  ¬ (∀ m : Maze LcgEngine, reachableState m → autoMoving m = true →
       (∀ m', reset m = Some m' → animationCleared m') ∧
       (∀ m', generateNewMaze m = Some m' → animationCleared m') ∧
       (∀ dx dy b m', movePlayer dx dy m = Some (b, m') → animationCleared m')).
Proof.
  intros H. destruct (H _ exampleSolving_reachable) as (_ & _ & Hmove).
  { vm_compute. reflexivity. }
  destruct (Hmove 0 1 _ _ exampleMoved_moved) as [Hauto _].
  revert Hauto. vm_compute. discriminate.
Qed.

(** C8, as the code has it: after [prepareAutoMove] has found a solution
    path of [n] cells, [n] calls of [autoMoveStep] in a row return true and
    leave the player on the target; every further call returns false.
    [autoMoving] is false after those [n] calls when [n >= 1]; when [n = 0]
    (the player already stands on the target) the state is untouched,
    [autoMoving] is still true, and the first further call clears it. *)
Theorem autoMove_animation {R : RandomEngine} (laws : RandomEngineLaws R)
    (m m1 : Maze R) :
  reachableState m → prepareAutoMove m = Some m1 → pathFound m1 = true →
  autoMoving m1 = true ∧
  ∃ m2, autoMoveSteps (length (path m1)) m1
        = Some (replicate (length (path m1)) true, m2) ∧
    playerPos m2 = targetPos m2 ∧
    (path m1 ≠ [] → autoMoving m2 = false) ∧
    (path m1 = [] → m2 = m1) ∧
    ∀ k, ∃ m3, autoMoveSteps (S k) m2 = Some (replicate (S k) false, m3) ∧
               autoMoving m3 = false ∧ playerPos m3 = targetPos m3.
Proof.
  intros Hm. apply autoMove_animation_WF. by apply reachableState_WF.
Qed.

Lemma autoMove_animation_witness :
  length (path exampleSolving) = 60%nat ∧
  autoMoving exampleSolving = true ∧
  ∃ m2, autoMoveSteps (length (path exampleSolving)) exampleSolving
        = Some (replicate (length (path exampleSolving)) true, m2) ∧
    playerPos m2 = targetPos m2 ∧
    (path exampleSolving ≠ [] → autoMoving m2 = false) ∧
    (path exampleSolving = [] → m2 = exampleSolving) ∧
    ∀ k, ∃ m3, autoMoveSteps (S k) m2 = Some (replicate (S k) false, m3) ∧
               autoMoving m3 = false ∧ playerPos m3 = targetPos m3.
Proof.
  split; [vm_compute; reflexivity|].
  apply (autoMove_animation LcgEngine_laws exampleStart exampleSolving).
  - exact exampleStart_reachable.
  - exact exampleSolving_prepared.
  - vm_compute. reflexivity.
Defined.

(** C8 as it is written fails for [n = 0]: with the player on the target,
    [prepareAutoMove] finds the empty path and sets [autoMoving], which is
    therefore still true after zero calls of [autoMoveStep]. *)
Lemma autoMoving_after_empty_path :
  ¬ (∀ m m1 : Maze LcgEngine,
       reachableState m → prepareAutoMove m = Some m1 → pathFound m1 = true →
       ∃ m2, autoMoveSteps (length (path m1)) m1
             = Some (replicate (length (path m1)) true, m2) ∧
         playerPos m2 = targetPos m2 ∧ autoMoving m2 = false ∧
         ∀ k, ∃ m3, autoMoveSteps (S k) m2 = Some (replicate (S k) false, m3)).
Proof.
  intros H.
  destruct (H _ _ exampleArrived_reachable exampleResolved_prepared)
    as (m2 & Hsteps & _ & Hauto & _).
  { vm_compute. reflexivity. }
  assert (path exampleResolved = []) as Hpath by (vm_compute; reflexivity).
  rewrite Hpath in Hsteps. cbn [length autoMoveSteps] in Hsteps.
  apply (f_equal (λ o, match o with
                       | Some (_, m') => autoMoving m'
                       | None => false
                       end)) in Hsteps.
  cbv beta iota in Hsteps. rewrite Hauto in Hsteps.
  revert Hsteps. vm_compute. discriminate.
Qed.

Lemma autoMoving_movePath_nonempty_witness :
  autoMoving exampleSolving = true ∧
  movePath exampleSolving ≠ [] ∧
  0 ≤ Z.of_nat (length (movePath exampleSolving)) - 1 ∧
  to_size_t (Z.of_nat (length (movePath exampleSolving)) - 1)
  = Z.of_nat (length (movePath exampleSolving)) - 1.
Proof.
  split; [vm_compute; reflexivity|].
  apply (autoMoving_movePath_nonempty LcgEngine_laws exampleSolving).
  - exact exampleSolving_reachable.
  - vm_compute. reflexivity.
Defined.

(** * Further properties of the session *)

Section Totality.
Context {R : RandomEngine} (laws : RandomEngineLaws R).

Lemma autoMoveStep_defined (m : Maze R) :
  WF m → ∃ b m', autoMoveStep m = Some (b, m').
Proof.
  intros [Hg Hp Hpc Hpu Ht Htu Ha [Hvalid Hlen] Hi]. unfold autoMoveStep.
  destruct (negb (autoMoving m) || _) eqn:Hcond; [by eexists _, _|].
  apply orb_false_iff in Hcond as [Hauto Hidx].
  apply negb_false_iff in Hauto. specialize (Ha Hauto).
  pose proof CELL_COUNT_small as Hsmall.
  assert (1 ≤ Z.of_nat (length (movePath m))) as Hpos.
  { destruct (movePath m); [done|]. cbn [length]. lia. }
  rewrite (size_t_small (Z.of_nat (length (movePath m)) - 1)) in Hidx
    by (unfold SIZE_MOD; lia).
  apply Z.leb_gt in Hidx.
  assert (0 ≤ currentMoveIndex m < Z.of_nat (length (movePath m)) - 1) as Hrange.
  { unfold is_int, INT_MIN, INT_MAX in Hi. unfold to_size_t, SIZE_MOD in Hidx.
    destruct (Z_lt_le_dec (currentMoveIndex m) 0) as [Hneg|Hnn].
    - replace (currentMoveIndex m) with
        (currentMoveIndex m + 2 ^ 64 + (-1) * 2 ^ 64) in Hidx by lia.
      rewrite Z.mod_add, Z.mod_small in Hidx by lia. lia.
    - rewrite Z.mod_small in Hidx by lia. lia. }
  unfold int_add. rewrite wrap_int_small by (unfold is_int, INT_MIN, INT_MAX; lia).
  rewrite (proj2 (Z.leb_le 0 (currentMoveIndex m + 1))) by lia.
  destruct (lookup_lt_is_Some_2 (movePath m) (Z.to_nat (currentMoveIndex m + 1)))
    as [nextPos Hnext]; [lia|].
  rewrite Hnext. cbn [mbind option_bind].
  assert (validPos nextPos) as Hnv.
  { rewrite Forall_lookup in Hvalid. by eapply Hvalid. }
  destruct (setType_defined PATH _ _ _ Hg Hp) as [g1 H1]. rewrite H1.
  cbn [mbind option_bind].
  destruct (setType_defined PLAYER g1 (vx nextPos) (vy nextPos)) as [g2 H2];
    [by eapply setType_gridOK|done|].
  rewrite H2. cbn [mbind option_bind]. by eexists _, _.
Qed.

Lemma perform_defined_WF o (m : Maze R) : WF m → is_Some (perform o m).
Proof.
  intros Hwf. destruct o; cbn [perform].
  - destruct (movePlayer_frame dx dy m Hwf) as (b & m' & -> & _). by eexists.
  - destruct (findPathBFS_correct m) as (m' & -> & _); [apply Hwf..|]. by eexists.
  - unfold prepareAutoMove.
    destruct (findPathBFS_correct m) as (m' & -> & _); [apply Hwf..|].
    cbn [mbind option_bind]. destruct (pathFound m'); by eexists.
  - destruct (autoMoveStep_defined m Hwf) as (b & m' & ->). by eexists.
  - destruct (reset_WF m) as (m' & -> & _); [apply Hwf| |by eexists].
    rewrite <- (wf_target _ Hwf). apply Hwf.
  - destruct (generateNewMaze_WF laws m) as (m' & -> & _); [apply Hwf|by eexists].
Qed.

End Totality.

(** X1: in every state a session can reach, each of the six operations,
    with any arguments, returns: no vector is indexed out of range and every
    loop ends; and the constructor itself returns for every seed. *)
Theorem operations_never_fail {R : RandomEngine} (laws : RandomEngineLaws R) :
  (∀ seed, is_Some (newMaze seed)) ∧
  (∀ (m : Maze R) o, reachableState m →
     ∃ m', perform o m = Some m' ∧ reachableState m').
Proof.
  split.
  - intros seed. destruct (newMaze_WF laws seed) as (m & -> & _). by eexists.
  - intros m o Hm. pose proof (reachableState_WF laws m Hm) as Hwf.
    destruct (perform_defined_WF laws o m Hwf) as [m' Hrun].
    exists m'. split; [done|]. exact (reachable_perform _ _ _ Hm Hrun).
Qed.

Lemma operations_never_fail_witness :
  ∃ m', perform (OpMovePlayer 5 (-7)) exampleSolving = Some m' ∧
        reachableState m'.
Proof.
  exact (proj2 (operations_never_fail LcgEngine_laws) exampleSolving
           (OpMovePlayer 5 (-7)) exampleSolving_reachable).
Defined.

(** ** Paths can be reversed and composed *)

Lemma adjacent_sym p q : adjacent p q → adjacent q p.
Proof.
  intros (d & Hd & ->). apply elem_of_directions in Hd.
  exists (V2 (- vx d) (- vy d)). split.
  - apply elem_of_directions.
    destruct Hd as [-> | [-> | [-> | ->]]]; simpl; tauto.
  - destruct p as [x y]. unfold offset. simpl. f_equal; lia.
Qed.

Lemma walk_trans g a n b k c :
  walk g a n b → walk g b k c → walk g a (n + k) c.
Proof.
  intros Hab Hbc. induction Hbc as [|k q r Hbq IH Hadj Hr].
  - by rewrite Nat.add_0_r.
  - rewrite Nat.add_succ_r. by econstructor.
Qed.

Lemma walk_end_open g a n q : walk g a n q → q = a ∨ walkable g q = true.
Proof. destruct 1; [by left|by right]. Qed.

Lemma walk_sym g a n b :
  walkable g a = true → walk g a n b → walk g b n a.
Proof.
  intros Ha Hab. induction Hab as [|n q r Haq IH Hadj Hr]; [constructor|].
  assert (walk g r 1 q) as Hrq.
  { econstructor; [constructor|by apply adjacent_sym|].
    by destruct (walk_end_open _ _ _ _ Haq) as [-> |?]. }
  exact (walk_trans _ _ _ _ _ _ Hrq IH).
Qed.

Lemma reachable_via g a b c :
  walkable g a = true → reachable g a b → reachable g a c → reachable g b c.
Proof.
  intros Ha [n Hab] [k Hac]. exists (n + k)%nat.
  eapply walk_trans; [|done]. by apply walk_sym.
Qed.

Lemma reachable_ext g g' src q :
  (∀ p, walkable g' p = walkable g p) → reachable g src q → reachable g' src q.
Proof. intros H. apply reachable_mono. intros p. by rewrite H. Qed.

Lemma wall_outside g p : gridOK g → ¬ validPos p → typeAt g p = WALL.
Proof.
  intros Hg Hp. destruct (decide (typeAt g p = WALL)) as [|Hw]; [done|].
  by apply typeAt_not_WALL_valid in Hw.
Qed.

Lemma walkable_walls g g' :
  gridOK g → gridOK g' → (∀ p, walkable g' p = walkable g p) →
  ∀ p, typeAt g' p = WALL ↔ typeAt g p = WALL.
Proof.
  intros Hg Hg' Hw p. destruct (decide (validPos p)) as [Hp|Hp].
  - specialize (Hw p). unfold walkable in Hw. unfold validPos in Hp.
    rewrite Hp in Hw. simpl in Hw. rewrite <- !CellType_eqb_eq.
    destruct (CellType_eqb (typeAt g' p) WALL), (CellType_eqb (typeAt g p) WALL);
      simpl in Hw; split; congruence.
  - by rewrite !wall_outside.
Qed.

Section Walls.
Context {R : RandomEngine}.

Lemma WF_player_open (m : Maze R) : WF m → walkable (cells m) (playerPos m) = true.
Proof.
  intros Hwf. apply walkable_spec. split; [apply Hwf|].
  rewrite (wf_player_cell _ Hwf). done.
Qed.

(** The cell kinds after [reset]. *)
Lemma reset_types (m m' : Maze R) :
  gridOK (cells m) → reset m = Some m' →
  ∀ p, typeAt (cells m') p =
       if decide (p = V2 (MAZE_WIDTH - 2) (MAZE_HEIGHT - 2)) then TARGET
       else if decide (p = V2 1 1) then PLAYER
       else if decide (typeAt (cells m) p = PLAYER) then PATH
       else typeAt (cells m) p.
Proof.
  intros Hg. unfold reset.
  set (g0 := map (map resetCell) (cells m)).
  destruct (setType PLAYER g0 _ _) as [g1|] eqn:H1; [|done].
  cbn [mbind option_bind].
  destruct (setType TARGET g1 _ _) as [g2|] eqn:H2; [|done].
  cbn [mbind option_bind]. intros [= <-] p. fields.
  rewrite (setType_typeAt_pos _ _ _ _ H2), (setType_typeAt_pos _ _ _ _ H1).
  do 2 (case_decide; [done|]).
  unfold typeAt, cellP, g0. rewrite cellAt_map.
  destruct (cellAt (cells m) (vx p) (vy p)) as [c|]; simpl; [|done].
  by destruct (type c).
Qed.

Lemma reset_open (m m' : Maze R) :
  gridOK (cells m) → reset m = Some m' →
  walkable (cells m) (V2 1 1) = true →
  walkable (cells m) (V2 (MAZE_WIDTH - 2) (MAZE_HEIGHT - 2)) = true →
  ∀ p, walkable (cells m') p = walkable (cells m) p.
Proof.
  intros Hg Hrun Hs Ht p. apply eq_true_iff_eq. rewrite !walkable_spec.
  rewrite (reset_types m m' Hg Hrun p).
  apply walkable_spec in Hs, Ht.
  repeat case_decide; subst; intuition congruence.
Qed.

(** Moving the player mark between two open cells keeps the open cells. *)
Lemma relocate_open (g g1 g2 : Grid) old dest :
  walkable g old = true → walkable g dest = true →
  setType PATH g (vx old) (vy old) = Some g1 →
  setType PLAYER g1 (vx dest) (vy dest) = Some g2 →
  ∀ p, walkable g2 p = walkable g p.
Proof.
  intros Hold Hdest H1 H2 p. apply eq_true_iff_eq. rewrite !walkable_spec.
  rewrite (setType_typeAt_pos _ _ _ _ H2), (setType_typeAt_pos _ _ _ _ H1).
  apply walkable_spec in Hold, Hdest.
  repeat case_decide; subst; intuition congruence.
Qed.

(** Every operation but [generateNewMaze] keeps the set of open cells. *)
Lemma perform_open o (m m' : Maze R) :
  WF m → connectedMaze m → o ≠ OpGenerateNewMaze → perform o m = Some m' →
  ∀ p, walkable (cells m') p = walkable (cells m) p.
Proof.
  intros Hwf (Hall & Hstart & Hplayer & Htarget & Hmove) Ho.
  pose proof Hwf as [Hg Hp Hpc Hpu Ht Htu Ha Hmp Hi].
  destruct o; cbn [perform]; [| | | | |done].
  - unfold movePlayer.
    set (newX := int_add (vx (playerPos m)) dx).
    set (newY := int_add (vy (playerPos m)) dy).
    destruct (isValidPosition newX newY) eqn:Hvalid; [|by intros [= <-]].
    destruct (cellAt (cells m) newX newY) as [c|] eqn:Hc; [|done].
    cbn [mbind option_bind].
    destruct (negb (CellType_eqb (type c) WALL)) eqn:Hw; [|by intros [= <-]].
    destruct (setType PATH (cells m) _ _) as [g1|] eqn:H1; [|done].
    cbn [mbind option_bind].
    destruct (setType PLAYER g1 newX newY) as [g2|] eqn:H2; [|done].
    cbn [mbind option_bind fmap option_fmap option_map snd]. intros [= <-]. fields.
    apply (relocate_open (cells m) g1 g2 (playerPos m) (V2 newX newY)); try done.
    unfold walkable. simpl. rewrite Hvalid. simpl.
    destruct (cellAt_views _ (V2 newX newY) _ Hc) as [-> _]. done.
  - intros Hrun p.
    destruct (findPathBFS_correct m Hg Hp) as (m'' & Hrun' & _ & _ & Hty & _).
    rewrite Hrun in Hrun'. injection Hrun' as <-. by apply walkable_ext.
  - unfold prepareAutoMove.
    destruct (findPathBFS_correct m Hg Hp) as (m1 & Hrun & _ & _ & Hty & _).
    rewrite Hrun. cbn [mbind option_bind].
    destruct (pathFound m1); intros [= <-] p; fields; by apply walkable_ext.
  - unfold autoMoveStep. destruct (negb (autoMoving m) || _).
    { by intros [= <-]. }
    destruct (if 0 <=? _ then _ else None) as [nextPos|] eqn:Hnext; [|done].
    cbn [mbind option_bind].
    destruct (setType PATH (cells m) _ _) as [g1|] eqn:H1; [|done].
    cbn [mbind option_bind].
    destruct (setType PLAYER g1 _ _) as [g2|] eqn:H2; [|done].
    cbn [mbind option_bind fmap option_fmap option_map snd]. intros [= <-].
    assert (walkable (cells m) nextPos = true) as Hopen.
    { destruct (0 <=? _); [|done]. rewrite Forall_lookup in Hmove.
      by eapply Hmove. }
    assert (∀ p, walkable g2 p = walkable (cells m) p) as Hsame.
    { by apply (relocate_open (cells m) g1 g2 (playerPos m) nextPos). }
    destruct (Vector2i_eqb nextPos _); fields; done.
  - intros Hrun. apply reset_open; try done. by rewrite <- Ht.
Qed.

Lemma perform_connected o (m m' : Maze R) :
  WF m → WF m' → connectedMaze m → o ≠ OpGenerateNewMaze →
  perform o m = Some m' → connectedMaze m'.
Proof.
  intros Hwf Hwf' Hconn Ho Hrun.
  pose proof (perform_open o m m' Hwf Hconn Ho Hrun) as Hopen.
  destruct Hconn as (Hall & Hstart & Hplayer & Htarget & Hmove).
  assert (targetPos m' = targetPos m) as Htp.
  { by rewrite (wf_target _ Hwf), (wf_target _ Hwf'). }
  split; [|split; [|split; [|split]]].
  - intros p Hp. apply (reachable_ext (cells m)); [done|].
    apply Hall. by rewrite <- Hopen.
  - by rewrite Hopen.
  - by apply WF_player_open.
  - by rewrite Hopen, Htp.
  - assert (Forall (λ p, walkable (cells m') p = true) (movePath m)) as Hold.
    { eapply Forall_impl; [exact Hmove|]. intros p Hp. simpl. by rewrite Hopen. }
    pose proof Hwf as [Hg Hp _ _ _ _ _ _ _].
    destruct o; cbn [perform] in Hrun; [| | | | |done].
    + destruct (movePlayer_frame dx dy m Hwf) as (b & m1 & Hrun1 & _ & Hmp & _).
      rewrite Hrun1 in Hrun. injection Hrun as <-. by rewrite Hmp.
    + destruct (findPathBFS_correct m Hg Hp) as (m1 & Hrun1 & Hm1 & _).
      rewrite Hrun1 in Hrun. injection Hrun as <-. rewrite Hm1. by fields.
    + unfold prepareAutoMove in Hrun.
      destruct (findPathBFS_correct m Hg Hp) as (m1 & Hrun1 & Hm1 & _ & _ & Hres).
      rewrite Hrun1 in Hrun. cbn [mbind option_bind] in Hrun.
      destruct (pathFound m1); injection Hrun as <-; fields.
      * constructor.
        { replace (playerPos m1) with (playerPos m) by (rewrite Hm1; by fields).
          rewrite Hopen. done. }
        destruct Hres as [[Htr _] _].
        assert (Forall (λ p, walkable (cells m) p = true) (path m1)) as Hpath.
        { clear -Htr. induction Htr as [|l q r _ IH _ Hr]; [constructor|].
          apply Forall_app. split; [done|]. by apply Forall_singleton. }
        eapply Forall_impl; [exact Hpath|]. intros p Hp'. simpl.
        by rewrite Hopen.
      * rewrite Hm1. by fields.
    + unfold autoMoveStep in Hrun. destruct (negb (autoMoving m) || _).
      { injection Hrun as <-. by fields. }
      destruct (if 0 <=? _ then _ else None) as [nextPos|]; [|done].
      cbn [mbind option_bind] in Hrun.
      destruct (setType PATH (cells m) _ _) as [g1|]; [|done].
      cbn [mbind option_bind] in Hrun.
      destruct (setType PLAYER g1 _ _) as [g2|]; [|done].
      cbn [mbind option_bind fmap option_fmap option_map snd] in Hrun.
      injection Hrun as <-. destruct (Vector2i_eqb nextPos _); by fields.
    + destruct (reset_WF m) as (m1 & Hrun1 & _ & _ & _ & Hmp & _); [done| |].
      { rewrite <- (wf_target _ Hwf). apply Hwf. }
      rewrite Hrun1 in Hrun. injection Hrun as <-. rewrite Hmp. constructor.
Qed.

End Walls.

Section Connected.
Context {R : RandomEngine} (laws : RandomEngineLaws R).

Lemma generateNewMaze_connected (m m' : Maze R) :
  gridOK (cells m) → generateNewMaze m = Some m' → connectedMaze m'.
Proof.
  intros Hg Hrun. unfold generateNewMaze in Hrun.
  destruct (generateMaze_correct laws m Hg) as (m1 & Hgen & _ & Hperf).
  rewrite Hgen in Hrun. cbn [mbind option_bind] in Hrun.
  destruct Hperf as (Hg1 & Hkinds & Hreach & Hrooms & _).
  assert (walkable (cells m1) (V2 1 1) = true) as Hs.
  { apply walkable_spec. split; [done|]. by rewrite (Hrooms (V2 1 1)). }
  assert (walkable (cells m1) (V2 (MAZE_WIDTH - 2) (MAZE_HEIGHT - 2)) = true) as Ht.
  { apply walkable_spec. split; [done|].
    by rewrite (Hrooms (V2 (MAZE_WIDTH - 2) (MAZE_HEIGHT - 2))). }
  pose proof (reset_open m1 m' Hg1 Hrun Hs Ht) as Hopen.
  destruct (reset_WF m1 Hg1) as (m2 & Hrun2 & Hwf & _ & _ & Hmp & _).
  { intros q Hq. destruct (Hkinds q); congruence. }
  rewrite Hrun in Hrun2. injection Hrun2 as <-.
  split; [|split; [|split; [|split]]].
  - intros p Hp. apply (reachable_ext (cells m1)); [done|].
    apply Hreach. rewrite Hopen in Hp. apply walkable_spec in Hp as [_ Hw].
    destruct (Hkinds p); congruence.
  - by rewrite Hopen.
  - by apply WF_player_open.
  - by rewrite Hopen, (wf_target _ Hwf).
  - rewrite Hmp. constructor.
Qed.

Lemma reachableState_connected (m : Maze R) : reachableState m → connectedMaze m.
Proof.
  induction 1 as [seed m Hnew|o m m' Hm IH Hstep].
  - rewrite newMaze_unfold in Hnew.
    eapply generateNewMaze_connected; [|exact Hnew].
    split; [done|]. by apply (bool_decide_unpack _).
  - pose proof (reachableState_WF laws m Hm) as Hwf.
    assert (o = OpGenerateNewMaze ∨ o ≠ OpGenerateNewMaze) as [->|Ho]
      by (destruct o; (by left) || (by right)).
    + eapply generateNewMaze_connected; [apply Hwf|exact Hstep].
    + eapply perform_connected; [exact Hwf| |exact IH|exact Ho|exact Hstep].
      by eapply perform_WF.
Qed.

End Connected.

(** X2: in every state a session can reach the maze is solvable: the target
    can be reached from the player through open cells, and [findPathBFS]
    returns with [pathFound] set and a path of minimal length.  The
    "no path" outcome of the search never occurs in a running session. *)
Theorem session_always_solvable {R : RandomEngine} (laws : RandomEngineLaws R)
    (m : Maze R) :
  reachableState m →
  reachable (cells m) (playerPos m) (targetPos m) ∧
  ∃ m', findPathBFS m = Some m' ∧ pathFound m' = true ∧
        distance (cells m) (playerPos m) (targetPos m) (length (path m')).
Proof.
  intros Hm. pose proof (reachableState_WF laws m Hm) as Hwf.
  destruct (reachableState_connected laws m Hm) as (Hall & Hs & Hp & Ht & _).
  assert (reachable (cells m) (playerPos m) (targetPos m)) as Hreach.
  { apply (reachable_via _ (V2 1 1)); [done|by apply Hall..]. }
  split; [done|].
  destruct (findPathBFS_correct m) as (m' & Hrun & _ & _ & _ & Hres);
    [apply Hwf..|].
  exists m'. split; [done|]. destruct (pathFound m').
  - split; [done|]. destruct Hres as [Hgeo _]. by apply geodesic_distance.
  - by destruct Hres as [_ Hno].
Qed.

Lemma session_always_solvable_witness :
  reachable (cells exampleMoved) (playerPos exampleMoved) (targetPos exampleMoved) ∧
  ∃ m', findPathBFS exampleMoved = Some m' ∧ pathFound m' = true ∧
        distance (cells exampleMoved) (playerPos exampleMoved)
                 (targetPos exampleMoved) (length (path m')).
Proof.
  apply (session_always_solvable LcgEngine_laws exampleMoved).
  apply (reachable_perform (OpMovePlayer 0 1) exampleSolving).
  - exact exampleSolving_reachable.
  - cbn [perform]. rewrite exampleMoved_moved. reflexivity.
Defined.

(** X3: the walls of the maze are fixed between two generations: in a
    reachable state no operation other than [generateNewMaze] turns a wall
    into an open cell or an open cell into a wall. *)
Theorem walls_fixed_between_generations {R : RandomEngine}
    (laws : RandomEngineLaws R) (m m' : Maze R) (o : Op) :
  reachableState m → o ≠ OpGenerateNewMaze → perform o m = Some m' →
  ∀ p, typeAt (cells m') p = WALL ↔ typeAt (cells m) p = WALL.
Proof.
  intros Hm Ho Hrun. pose proof (reachableState_WF laws m Hm) as Hwf.
  apply walkable_walls; [apply Hwf| |].
  - eapply wf_grid, perform_WF; [exact laws|exact Hwf|exact Hrun].
  - apply (perform_open o); [done| |done..].
    by apply reachableState_connected.
Qed.

Lemma walls_fixed_between_generations_witness :
  typeAt (cells exampleSolving) (V2 2 1) = WALL
  ↔ typeAt (cells exampleStart) (V2 2 1) = WALL.
Proof.
  refine (walls_fixed_between_generations LcgEngine_laws exampleStart
            exampleSolving OpPrepareAutoMove _ _ _ (V2 2 1)).
  - exact exampleStart_reachable.
  - discriminate.
  - exact exampleSolving_prepared.
Defined.

Lemma geodesic_NoDup g src l q : geodesic g src l q → NoDup (src :: l).
Proof.
  intros [_ Hdist].
  assert (∀ i p, (src :: l) !! i = Some p → distance g src p i) as Hidx.
  { intros [|i] p; simpl; [intros [= <-]; apply distance_src|apply Hdist]. }
  apply NoDup_alt. intros i j p Hi Hj.
  eapply distance_unique; by apply Hidx.
Qed.

Lemma trail_open g src l q :
  trail g src l q → Forall (λ p, walkable g p = true) l.
Proof.
  induction 1 as [|l q r _ IH _ Hr]; [constructor|].
  apply Forall_app. split; [done|]. by apply Forall_singleton.
Qed.

Lemma trail_last g src l q : trail g src l q → last (src :: l) = Some q.
Proof.
  destruct 1 as [|l q r _ _ _]; [done|].
  by rewrite app_comm_cons, last_snoc.
Qed.

(** X4: the solution path that [findPathBFS] stores is a simple path: it
    starts next to the player, ends on the target, runs through open cells
    only, and the player's cell and the cells of the path are pairwise
    distinct. *)
Theorem solution_path_simple {R : RandomEngine} (m m' : Maze R) :
  gridOK (cells m) → validPos (playerPos m) →
  findPathBFS m = Some m' → pathFound m' = true →
  NoDup (playerPos m :: path m') ∧
  last (playerPos m :: path m') = Some (targetPos m) ∧
  Forall (λ p, walkable (cells m) p = true) (path m') ∧
  trail (cells m) (playerPos m) (path m') (targetPos m).
Proof.
  intros Hg Hp Hrun Hfound.
  destruct (findPathBFS_correct m Hg Hp) as (m'' & Hrun' & _ & _ & _ & Hres).
  rewrite Hrun in Hrun'. injection Hrun' as <-. rewrite Hfound in Hres.
  destruct Hres as [Hgeo _]. split; [by eapply geodesic_NoDup|].
  destruct Hgeo as [Htr _]. split; [by eapply trail_last|].
  split; [by eapply trail_open|done].
Qed.

Lemma exampleSearched_found : findPathBFS exampleStart = Some exampleSearched.
Proof. apply default_Some. vm_compute. reflexivity. Qed.

Lemma solution_path_simple_witness :
  NoDup (playerPos exampleStart :: path exampleSearched) ∧
  last (playerPos exampleStart :: path exampleSearched)
  = Some (targetPos exampleStart) ∧
  Forall (λ p, walkable (cells exampleStart) p = true) (path exampleSearched) ∧
  trail (cells exampleStart) (playerPos exampleStart) (path exampleSearched)
        (targetPos exampleStart).
Proof.
  apply (solution_path_simple exampleStart exampleSearched).
  - exact exampleStart_gridOK.
  - vm_compute. reflexivity.
  - exact exampleSearched_found.
  - vm_compute. reflexivity.
Defined.

(** ** What the search leaves untouched *)

Lemma withVisited_false_absorb b c :
  withVisited false (withVisited b c) = withVisited false c.
Proof. done. Qed.

Lemma clearVisited_setVisited b g x y g' :
  setVisited b g x y = Some g' → clearVisited g' = clearVisited g.
Proof.
  unfold setVisited, updCell, clearVisited.
  destruct ((0 <=? x) && (0 <=? y)); [|done].
  destruct (g !! Z.to_nat y) as [row|] eqn:Hrow; simpl; [|done].
  destruct (row !! Z.to_nat x) as [c|] eqn:Hc; simpl; [|done].
  intros [= <-].
  change (map (map (withVisited false))) with (fmap (M := list) (map (withVisited false))).
  rewrite list_fmap_insert.
  change (map (withVisited false)) with (fmap (M := list) (withVisited false)).
  rewrite list_fmap_insert, withVisited_false_absorb.
  rewrite (list_insert_id (withVisited false <$> row)).
  - apply list_insert_id. by rewrite list_lookup_fmap, Hrow.
  - by rewrite list_lookup_fmap, Hc.
Qed.

Lemma bfsVisit_clear cur dir g q pm g' q' pm' :
  bfsVisit cur dir (g, q, pm) = Some (g', q', pm') →
  clearVisited g' = clearVisited g.
Proof.
  unfold bfsVisit. destruct (isValidPosition _ _); [|by intros [= <- _ _]].
  destruct (cellAt g _ _) as [c|]; [|done]. cbn [mbind option_bind].
  destruct (negb (visited c) && _); [|by intros [= <- _ _]].
  destruct (setVisited true g _ _) as [g1|] eqn:Hset; [|done].
  cbn [mbind option_bind]. intros [= <- _ _]. by eapply clearVisited_setVisited.
Qed.

Lemma bfsExpand_clear cur dirs :
  ∀ g q pm g' q' pm',
    forEach (bfsVisit cur) dirs (g, q, pm) = Some (g', q', pm') →
    clearVisited g' = clearVisited g.
Proof.
  induction dirs as [|dir dirs IH]; intros g q pm g' q' pm'.
  - by intros [= <- _ _].
  - rewrite forEach_cons.
    destruct (bfsVisit cur dir (g, q, pm)) as [[[g1 q1] pm1]|] eqn:Hstep; [|done].
    cbn [mbind option_bind]. intros Hrest.
    rewrite (IH _ _ _ _ _ _ Hrest). by eapply bfsVisit_clear.
Qed.

Section Frame.
Context {R : RandomEngine}.

Lemma bfsLoop_frame fuel :
  ∀ (m m' : Maze R) queue pm,
    bfsLoop fuel m queue pm = Some m' →
    clearVisited (cells m') = clearVisited (cells m) ∧
    m' = withPath (path m') (withPathFound (pathFound m') (withCells (cells m') m)).
Proof.
  induction fuel as [|fuel IH]; intros m m' queue pm;
    destruct queue as [|cur rest]; try done.
  - intros [= <-]. split; [done|by destruct m].
  - intros [= <-]. split; [done|by destruct m].
  - rewrite bfsLoop_unfold. destruct (Vector2i_eqb cur (targetPos m)).
    + unfold reconstructPath.
      destruct (reconstructLoop _ _ _ _ _) as [p|]; [|done].
      cbn [mbind option_bind]. intros [= <-]. split; [done|by destruct m].
    + destruct (forEach _ _ _) as [[[g q'] pm']|] eqn:Hexp; [|done].
      cbn [mbind option_bind]. intros Hrun.
      destruct (IH _ _ _ _ Hrun) as [Hclear Hm]. fields.
      split; [|by destruct m].
      rewrite Hclear. by eapply bfsExpand_clear.
Qed.

Lemma findPathBFSFuel_frame fuel (m m' : Maze R) :
  findPathBFSFuel fuel m = Some m' →
  clearVisited (cells m') = clearVisited (cells m) ∧
  m' = withPath (path m') (withPathFound (pathFound m') (withCells (cells m') m)).
Proof.
  unfold findPathBFSFuel.
  destruct (setVisited true _ _ _) as [g|] eqn:Hset; [|done].
  cbn [mbind option_bind]. intros Hrun.
  destruct (bfsLoop_frame _ _ _ _ _ Hrun) as [Hclear Hm]. fields.
  split; [|by destruct m].
  rewrite Hclear, (clearVisited_setVisited _ _ _ _ _ Hset).
  unfold resetVisited. fields. apply clearVisited_idemp.
Qed.

(** X5: [findPathBFS] touches nothing but the visited flags, the stored
    path and [pathFound]: the grid it leaves equals the old one once the
    visited flags are cleared on both, and the player, the target, the
    animation state and the random engine are unchanged. *)
Theorem findPathBFS_frame (m m' : Maze R) :
  findPathBFS m = Some m' →
  clearVisited (cells m') = clearVisited (cells m) ∧
  playerPos m' = playerPos m ∧ targetPos m' = targetPos m ∧
  movePath m' = movePath m ∧ autoMoving m' = autoMoving m ∧
  currentMoveIndex m' = currentMoveIndex m ∧ rng m' = rng m.
Proof.
  intros Hrun. destruct (findPathBFSFuel_frame _ _ _ Hrun) as [Hclear Hm].
  split; [done|]. rewrite Hm. by fields.
Qed.

(** X6: searching twice is the same as searching once: run on the state it
    has produced, [findPathBFS] returns that very state. *)
Theorem findPathBFS_idempotent (m m' : Maze R) :
  findPathBFS m = Some m' → findPathBFS m' = Some m'.
Proof.
  intros Hrun. destruct (findPathBFSFuel_frame _ _ _ Hrun) as [Hclear Hm].
  assert (searchOutcome <$> findPathBFS m' = searchOutcome <$> findPathBFS m)
    as Hsame.
  { apply findPathBFSFuel_congr; [done|rewrite Hm; by fields..]. }
  rewrite Hrun in Hsame.
  destruct (findPathBFS m') as [m''|] eqn:Hrun'; [|done].
  injection Hsame as Hc Hp Hf.
  destruct (findPathBFSFuel_frame _ _ _ Hrun') as [_ Hm''].
  f_equal. rewrite Hm'', Hc, Hp, Hf. by destruct m'.
Qed.

End Frame.

Lemma findPathBFS_frame_witness :
  clearVisited (cells exampleSearched) = clearVisited (cells exampleStart) ∧
  playerPos exampleSearched = playerPos exampleStart ∧
  targetPos exampleSearched = targetPos exampleStart ∧
  movePath exampleSearched = movePath exampleStart ∧
  autoMoving exampleSearched = autoMoving exampleStart ∧
  currentMoveIndex exampleSearched = currentMoveIndex exampleStart ∧
  rng exampleSearched = rng exampleStart.
Proof.
  exact (findPathBFS_frame exampleStart exampleSearched exampleSearched_found).
Defined.

Lemma findPathBFS_idempotent_witness :
  findPathBFS exampleSearched = Some exampleSearched.
Proof.
  exact (findPathBFS_idempotent exampleStart exampleSearched
           exampleSearched_found).
Defined.

(** ** Resetting *)

Lemma cellAt_updCell f g x y g' x' y' :
  updCell f g x y = Some g' →
  cellAt g' x' y' =
  if decide ((x', y') = (x, y)) then f <$> cellAt g x' y' else cellAt g x' y'.
Proof.
  intros H. case_decide as Heq.
  - injection Heq as -> ->. by destruct (updCell_Some _ _ _ _ _ H) as (c & -> & ->).
  - by apply (updCell_other _ _ _ _ _ _ _ H).
Qed.

(** Two grids of the right shape with the same cells are equal. *)
Lemma grid_ext g g' :
  gridOK g → gridOK g' → (∀ x y, cellAt g x y = cellAt g' x y) → g = g'.
Proof.
  intros [Hlen Hrows] [Hlen' Hrows'] Hcells. apply list_eq. intros i.
  destruct (decide (i < length g)%nat) as [Hi|Hi].
  - destruct (lookup_lt_is_Some_2 g i Hi) as [r Hr].
    destruct (lookup_lt_is_Some_2 g' i) as [r' Hr']; [lia|].
    rewrite Hr, Hr'. f_equal. apply list_eq. intros j.
    specialize (Hcells (Z.of_nat j) (Z.of_nat i)). unfold cellAt in Hcells.
    rewrite (proj2 (Z.leb_le 0 (Z.of_nat j))), (proj2 (Z.leb_le 0 (Z.of_nat i)))
      in Hcells by lia. cbn [andb] in Hcells.
    rewrite !Nat2Z.id, Hr, Hr' in Hcells. done.
  - rewrite !lookup_ge_None_2; [done|lia..].
Qed.

Section Reset.
Context {R : RandomEngine}.

Lemma reset_run (m : Maze R) :
  gridOK (cells m) →
  ∃ g, reset m = Some (mkMaze g (path m) [] (V2 1 1)
                         (V2 (MAZE_WIDTH - 2) (MAZE_HEIGHT - 2))
                         false false 0 (rng m)) ∧
       gridOK g ∧
       ∀ x y, cellAt g x y =
         (λ c, mkCell (cell_x c) (cell_y c) (resetKind (V2 x y) (type c)) false)
           <$> cellAt (cells m) x y.
Proof.
  intros Hg. unfold reset.
  set (g0 := map (map resetCell) (cells m)).
  assert (gridOK g0) as Hg0 by by apply map_gridOK.
  destruct (setType_defined PLAYER g0 1 1 Hg0 eq_refl) as [g1 H1].
  pose proof (setType_gridOK _ _ _ _ _ Hg0 H1) as Hg1.
  destruct (setType_defined TARGET g1 (MAZE_WIDTH - 2) (MAZE_HEIGHT - 2) Hg1 eq_refl)
    as [g2 H2].
  cbn [vx vy]. rewrite H1. cbn [mbind option_bind]. rewrite H2.
  cbn [mbind option_bind]. exists g2. split; [done|].
  split; [by eapply setType_gridOK|]. intros x y.
  rewrite (cellAt_updCell _ _ _ _ _ x y H2), (cellAt_updCell _ _ _ _ _ x y H1).
  unfold g0. rewrite cellAt_map. unfold resetKind.
  destruct (cellAt (cells m) x y) as [c|]; [|by repeat case_decide].
  repeat case_decide; simplify_eq; done.
Qed.

(** X7: [reset] is idempotent: applied to the state it has produced, it
    returns that very state. *)
Theorem reset_idempotent (m m' : Maze R) :
  gridOK (cells m) → reset m = Some m' → reset m' = Some m'.
Proof.
  intros Hg Hrun. destruct (reset_run m Hg) as (g & Hrun1 & Hg1 & Hcells1).
  rewrite Hrun in Hrun1. injection Hrun1 as Hm'.
  assert (gridOK (cells m')) as Hg' by by rewrite Hm'.
  destruct (reset_run m' Hg') as (g' & Hrun2 & Hg2 & Hcells2).
  rewrite Hrun2. f_equal. rewrite Hm' in Hcells2 |- *. fields. f_equal.
  apply grid_ext; [done..|]. intros x y.
  rewrite Hcells2, Hcells1. destruct (cellAt (cells m) x y) as [c|]; [|done].
  cbn [fmap option_fmap option_map cell_x cell_y type]. do 2 f_equal.
  unfold resetKind.
  repeat case_decide; try done. by destruct (type c).
Qed.

End Reset.

Lemma reset_idempotent_witness :
  ∃ m', reset exampleSolving = Some m' ∧ reset m' = Some m'.
Proof.
  pose proof (wf_grid _ (reachableState_WF LcgEngine_laws _
                           exampleSolving_reachable)) as Hg.
  destruct (reset_run exampleSolving Hg) as (g & Hrun & _).
  eexists. split; [exact Hrun|].
  exact (reset_idempotent exampleSolving _ Hg Hrun).
Defined.

(** ** The length of a solution *)

Lemma adjacent_cases p q :
  adjacent p q →
  (vx q = vx p + 1 ∧ vy q = vy p) ∨ (vx q = vx p - 1 ∧ vy q = vy p) ∨
  (vx q = vx p ∧ vy q = vy p + 1) ∨ (vx q = vx p ∧ vy q = vy p - 1).
Proof.
  intros (d & Hd & ->). apply elem_of_directions in Hd.
  destruct Hd as [-> |[-> |[-> | ->]]]; simpl; lia.
Qed.

Lemma walk_manhattan g src n q :
  walk g src n q →
  ∃ k, 0 ≤ k ∧ Z.of_nat n = manhattan src q + 2 * k.
Proof.
  unfold manhattan. induction 1 as [|n q r _ (k & Hk & IH) Hadj _].
  - exists 0. lia.
  - apply adjacent_cases in Hadj.
    destruct (decide (Z.abs (vx r - vx src) + Z.abs (vy r - vy src)
                      = Z.abs (vx q - vx src) + Z.abs (vy q - vy src) + 1)).
    + exists k. lia.
    + exists (k + 1). lia.
Qed.

(** X8: a solution is never shorter than the Manhattan distance between the
    player and the target, and exceeds it by an even number of steps. *)
Theorem solution_length_manhattan {R : RandomEngine} (m m' : Maze R) :
  gridOK (cells m) → validPos (playerPos m) →
  findPathBFS m = Some m' → pathFound m' = true →
  ∃ k, 0 ≤ k ∧
       Z.of_nat (length (path m'))
         = manhattan (playerPos m) (targetPos m) + 2 * k.
Proof.
  intros Hg Hp Hrun Hfound.
  destruct (findPathBFS_correct m Hg Hp) as (m'' & Hrun' & _ & _ & _ & Hres).
  rewrite Hrun in Hrun'. injection Hrun' as <-. rewrite Hfound in Hres.
  destruct Hres as [[Htr _] _]. by eapply walk_manhattan, trail_walk.
Qed.

Lemma solution_length_manhattan_witness :
  ∃ k, 0 ≤ k ∧
       Z.of_nat (length (path exampleSearched))
         = manhattan (playerPos exampleStart) (targetPos exampleStart) + 2 * k.
Proof.
  apply (solution_length_manhattan exampleStart exampleSearched).
  - exact exampleStart_gridOK.
  - by vm_compute.
  - exact exampleSearched_found.
  - by vm_compute.
Defined.

(** ** Walking a solution with the arrow keys *)

Lemma stepsFrom_snoc g p l q r :
  stepsFrom g p l → last (p :: l) = Some q → adjacent q r →
  walkable g r = true → stepsFrom g p (l ++ [r]).
Proof.
  revert p. induction l as [|a l IH]; intros p Hs Hlast Hadj Hr.
  - injection Hlast as ->. done.
  - destruct Hs as (Ha & Hw & Hs). simpl. do 2 (split; [done|]).
    apply IH; try done.
Qed.

Lemma trail_stepsFrom g src l q : trail g src l q → stepsFrom g src l.
Proof.
  induction 1 as [|l q r Htr IH Hadj Hr]; [done|].
  eapply stepsFrom_snoc; try done. by eapply trail_last.
Qed.

Lemma stepsFrom_ext g g' p l :
  (∀ q, walkable g' q = walkable g q) → stepsFrom g p l → stepsFrom g' p l.
Proof.
  intros Hext. revert p. induction l as [|a l IH]; intros p; [done|].
  intros (Ha & Hw & Hs). simpl. rewrite Hext. auto.
Qed.

Section Keys.
Context {R : RandomEngine}.

(** A move onto an open neighbouring cell. *)
Lemma movePlayer_onto (m : Maze R) d :
  WF m → d ∈ directions → walkable (cells m) (offset (playerPos m) d) = true →
  ∃ g, movePlayer (vx d) (vy d) m
         = Some (true, withCells g (withPlayerPos (offset (playerPos m) d) m)) ∧
       ∀ p, walkable g p = walkable (cells m) p.
Proof.
  intros Hwf Hd Hopen. pose proof Hwf as [Hg Hp Hpc Hpu Ht Htu Ha Hmp Hi].
  assert (is_int (vx d) ∧ is_int (vy d)) as [Hdx Hdy].
  { apply elem_of_directions in Hd. unfold is_int, INT_MIN, INT_MAX.
    destruct Hd as [-> |[-> |[-> | ->]]]; simpl; lia. }
  destruct (movePlayer_target_valid m _ _ Hp Hdx Hdy) as [Hv Hsum].
  apply walkable_spec in Hopen as Hopen'. destruct Hopen' as [Hvalid Hnw].
  unfold validPos, offset in Hvalid. cbn [vx vy] in Hvalid.
  unfold movePlayer. rewrite Hv, Hvalid.
  destruct Hsum as [-> ->]; [by rewrite Hv|].
  destruct (cellAt_valid _ _ _ Hg Hvalid) as [c Hc]. rewrite Hc.
  cbn [mbind option_bind].
  assert (typeAt (cells m) (offset (playerPos m) d) = type c) as Hty.
  { unfold typeAt, cellP, offset. cbn [vx vy]. by rewrite Hc. }
  rewrite Hty in Hnw. apply CellType_eqb_neq in Hnw. rewrite Hnw. cbn [negb].
  destruct (setType_defined PATH _ _ _ Hg Hp) as [g1 H1]. rewrite H1.
  cbn [mbind option_bind].
  destruct (setType_defined PLAYER g1 (vx (playerPos m) + vx d)
              (vy (playerPos m) + vy d)) as [g2 H2];
    [by eapply setType_gridOK|done|].
  rewrite H2. cbn [mbind option_bind]. exists g2. split; [done|].
  eapply relocate_open; [by apply WF_player_open|exact Hopen|exact H1|exact H2].
Qed.

Lemma specialKeys_toward (m : Maze R) q :
  WF m → autoMoving m = false → adjacent (playerPos m) q →
  walkable (cells m) q = true →
  ∃ m', specialKeys (keyToward (playerPos m) q) m = Some m' ∧
        WF m' ∧ autoMoving m' = false ∧ playerPos m' = q ∧
        targetPos m' = targetPos m ∧
        ∀ p, walkable (cells m') p = walkable (cells m) p.
Proof.
  intros Hwf Hauto (d & Hd & ->) Hopen.
  destruct (movePlayer_onto m d Hwf Hd Hopen) as (g & Hrun & Hkeep).
  assert (specialKeys (keyToward (playerPos m) (offset (playerPos m) d)) m
          = snd <$> movePlayer (vx d) (vy d) m) as Hkey.
  { unfold specialKeys. rewrite Hauto. apply elem_of_directions in Hd.
    unfold keyToward.
    destruct Hd as [-> |[-> |[-> | ->]]]; repeat case_decide; try done;
      exfalso; unfold offset in *; simplify_eq; lia. }
  rewrite Hkey, Hrun. eexists. split; [done|].
  split; [by eapply movePlayer_WF|]. by fields.
Qed.

Lemma pressAll_along l :
  ∀ m : Maze R,
    WF m → autoMoving m = false → stepsFrom (cells m) (playerPos m) l →
    ∃ m', pressAll (keysAlong (playerPos m) l) m = Some m' ∧
          last (playerPos m :: l) = Some (playerPos m') ∧
          targetPos m' = targetPos m.
Proof.
  induction l as [|q l IH]; intros m Hwf Hauto Hs; [by exists m|].
  destruct Hs as (Hadj & Hopen & Hs).
  destruct (specialKeys_toward m q Hwf Hauto Hadj Hopen)
    as (m1 & Hkey & Hwf1 & Hauto1 & Hp1 & Ht1 & Hkeep).
  destruct (IH m1 Hwf1 Hauto1) as (m' & Hrun & Hlast & Ht').
  { rewrite Hp1. by eapply stepsFrom_ext. }
  exists m'. cbn [keysAlong pressAll]. rewrite Hkey. cbn [mbind option_bind].
  rewrite Hp1 in Hrun, Hlast. split; [done|]. split; [|congruence].
  by rewrite last_cons_cons.
Qed.

(** X9: outside an animation, pressing the arrow keys that follow the path
    found by [findPathBFS] moves the player along that path onto the
    target: none of those moves is refused. *)
Theorem solution_walkable_by_keys (m m' : Maze R) :
  WF m → autoMoving m = false →
  findPathBFS m = Some m' → pathFound m' = true →
  ∃ m'', pressAll (keysAlong (playerPos m) (path m')) m' = Some m'' ∧
         playerPos m'' = targetPos m''.
Proof.
  intros Hwf Hauto Hrun Hfound.
  pose proof (findPathBFS_WF _ _ Hwf Hrun) as Hwf'.
  destruct (findPathBFS_correct m) as (m1 & Hrun' & Hm & _ & Hty & Hres);
    [apply Hwf..|].
  rewrite Hrun in Hrun'. injection Hrun' as <-. rewrite Hfound in Hres.
  destruct Hres as [[Htr _] _].
  assert (playerPos m' = playerPos m ∧ targetPos m' = targetPos m ∧
          autoMoving m' = autoMoving m) as (Hp & Ht & Ha)
    by (by rewrite Hm).
  destruct (pressAll_along (path m') m') as (m'' & Hpress & Hlast & Ht'').
  - done.
  - congruence.
  - rewrite Hp. apply (stepsFrom_ext (cells m)).
    + intros q. unfold walkable. by rewrite Hty.
    + by eapply trail_stepsFrom.
  - exists m''. rewrite <- Hp. split; [done|].
    rewrite Hp, (trail_last _ _ _ _ Htr) in Hlast. congruence.
Qed.

End Keys.

Lemma solution_walkable_by_keys_witness :
  ∃ m'', pressAll (keysAlong (playerPos exampleStart) (path exampleSearched))
           exampleSearched = Some m'' ∧
         playerPos m'' = targetPos m''.
Proof.
  apply (solution_walkable_by_keys exampleStart exampleSearched).
  - exact (reachableState_WF LcgEngine_laws _ exampleStart_reachable).
  - by vm_compute.
  - exact exampleSearched_found.
  - by vm_compute.
Defined.

(** ** A new maze owes nothing to the old one *)

Lemma blankAll_forgets g1 g2 : gridOK g1 → gridOK g2 → blankAll g1 = blankAll g2.
Proof.
  intros H1 H2.
  destruct (blankAll_spec g1 H1) as (g1' & -> & Hg1 & Hc1).
  destruct (blankAll_spec g2 H2) as (g2' & -> & Hg2 & Hc2).
  f_equal. apply grid_ext; [done..|]. intros x y.
  destruct (isValidPosition x y) eqn:Hv.
  - specialize (Hc1 (V2 x y) Hv). specialize (Hc2 (V2 x y) Hv).
    unfold cellP in *. cbn [vx vy] in *. congruence.
  - destruct (cellAt g1' x y) as [c|] eqn:E1.
    { apply cellAt_Some_valid in E1; [congruence|done]. }
    destruct (cellAt g2' x y) as [c|] eqn:E2; [|done].
    apply cellAt_Some_valid in E2; [congruence|done].
Qed.

Section Forget.
Context {R : RandomEngine}.

Lemma generateMazeFuel_forgets fuel (m1 m2 : Maze R) :
  gridOK (cells m1) → gridOK (cells m2) → rng m1 = rng m2 →
  (λ m, (cells m, rng m)) <$> generateMazeFuel fuel m1
  = (λ m, (cells m, rng m)) <$> generateMazeFuel fuel m2.
Proof.
  intros H1 H2 Hr. unfold generateMazeFuel.
  rewrite (blankAll_forgets _ _ H1 H2), Hr.
  destruct (blankAll (cells m2)) as [g0|]; [|done]. cbn [mbind option_bind].
  destruct (setType PATH g0 1 1) as [g1|]; [|done]. cbn [mbind option_bind].
  destruct (setType PATH g1 _ _) as [g2|]; [|done]. cbn [mbind option_bind].
  destruct (setVisited true g2 1 1) as [g3|]; [|done]. cbn [mbind option_bind].
  by destruct (carveLoop fuel _ g3 (rng m2)) as [[g4 r]|].
Qed.

(** X10: [generateNewMaze] reads nothing of the session it replaces but the
    state of the random engine: from two sessions with the same engine state
    it builds the same grid and the same session, up to the stale solution
    path that [reset] leaves in place. *)
Theorem generateNewMaze_forgets (m1 m2 : Maze R) :
  gridOK (cells m1) → gridOK (cells m2) → rng m1 = rng m2 →
  sessionCore <$> generateNewMaze m1 = sessionCore <$> generateNewMaze m2.
Proof.
  intros H1 H2 Hr. unfold generateNewMaze, generateMaze.
  pose proof (generateMazeFuel_forgets LOOP_FUEL m1 m2 H1 H2 Hr) as Hgen.
  destruct (generateMazeFuel LOOP_FUEL m1) as [a|],
           (generateMazeFuel LOOP_FUEL m2) as [b|]; try done.
  cbn [fmap option_fmap option_map] in Hgen. injection Hgen as Hc Hrng.
  cbn [mbind option_bind]. unfold reset. rewrite Hc, Hrng.
  destruct (setType PLAYER _ _ _) as [g1|]; [|done]. cbn [mbind option_bind].
  by destruct (setType TARGET g1 _ _) as [g2|].
Qed.

End Forget.

Lemma generateNewMaze_forgets_witness :
  sessionCore <$> generateNewMaze exampleStart
  = sessionCore <$> generateNewMaze exampleArrived.
Proof.
  apply (generateNewMaze_forgets exampleStart exampleArrived).
  - exact exampleStart_gridOK.
  - exact exampleArrived_gridOK.
  - vm_compute. reflexivity.
Defined.

(** ** The layout of the open cells *)

Lemma isRoom_site p : isRoom p = true → isSite p = true.
Proof.
  unfold isRoom, isSite. rewrite !andb_true_iff, orb_true_iff. tauto.
Qed.

Lemma midpoint_site a b : latticeAdj a b → isSite (midpoint a b) = true.
Proof.
  intros Hab. destruct (midpoint_spec _ _ Hab) as (_ & _ & _ & _ & Hx & Hy).
  apply latticeAdj_spec in Hab as (Ha & Hb & H).
  apply isRoom_coords in Ha as (i & j & Hax & Hay & Hi & Hj).
  apply isRoom_coords in Hb as (i' & j' & Hbx & Hby & Hi' & Hj').
  unfold isSite. rewrite !andb_true_iff, orb_true_iff, !Z.odd_spec.
  unfold MAZE_WIDTH, MAZE_HEIGHT.
  split; [lia|].
  destruct H as [[H1 H2]|[H1 H2]].
  - right. exists j. lia.
  - left. exists i. lia.
Qed.

Lemma elem_of_openCells g p : p ∈ openCells g ↔ walkable g p = true.
Proof.
  unfold openCells. rewrite list_elem_of_filter, elem_of_allPositions.
  split; [by intros [? _]|]. intros H. split; [done|].
  by apply walkable_spec in H as [? _].
Qed.

Lemma openCells_ext g g' :
  (∀ p, walkable g' p = walkable g p) → openCells g' = openCells g.
Proof.
  intros Hext. unfold openCells. apply list_filter_iff. intros p. by rewrite Hext.
Qed.

Lemma elem_of_connections g e :
  e ∈ connections g ↔
  e ∈ latticeEdges ∧ typeAt g (midpoint (fst e) (snd e)) = PATH.
Proof. unfold connections. rewrite list_elem_of_filter. tauto. Qed.

(** The open cells of a freshly carved grid: the hundred rooms and one cell
    for each of the ninety-nine connections. *)
Lemma genInv_census g vs es :
  genInv g [] vs es →
  openCells g ≡ₚ rooms ++ ((λ e, midpoint (fst e) (snd e)) <$> connections g).
Proof.
  intros Inv. pose proof (genInv_perfect _ _ _ Inv)
    as (Hg & Hkinds & _ & Hrooms & _).
  apply NoDup_Permutation.
  - apply NoDup_filter, NoDup_allPositions.
  - apply NoDup_app. split; [apply NoDup_rooms|]. split.
    + intros p Hp%elem_of_rooms (e & -> & He)%list_elem_of_fmap.
      apply elem_of_connections in He as [He _].
      destruct (midpoint_spec _ _ (latticeEdges_adj _ He)) as (_ & _ & _ & Hn & _).
      congruence.
    + apply NoDup_fmap_2_strong; [|apply NoDup_filter, NoDup_latticeEdges].
      intros [a b] [a' b'] [He _]%elem_of_connections [He' _]%elem_of_connections Heq.
      cbn [fst snd] in Heq.
      destruct (midpoint_inj a b a' b') as [[-> ->]|[-> ->]]; try done.
      * exact (latticeEdges_adj _ He).
      * exact (latticeEdges_adj _ He').
      * by apply latticeEdges_oriented in He.
  - intros p. rewrite elem_of_openCells, elem_of_app, elem_of_rooms,
      list_elem_of_fmap, walkable_spec. split.
    + intros [Hv Hw]. destruct (gen_open _ _ _ _ Inv p Hw) as [Hp [[Hr _]|Hl]];
        [by left|right].
      destruct Hl as (a & b & Hl & ->).
      destruct (genInv_linked_passage _ _ _ _ _ _ Inv Hl) as [Hadj Hmid].
      destruct (latticeAdj_edge _ _ Hadj) as [He|He].
      * exists (a, b). split; [done|]. by apply elem_of_connections.
      * exists (b, a). cbn [fst snd]. split; [apply midpoint_sym|].
        apply elem_of_connections. split; [done|]. cbn [fst snd].
        by rewrite midpoint_sym.
    + intros [Hr|(e & -> & [He Hmid]%elem_of_connections)].
      * split; [by apply isRoom_valid|]. by rewrite (Hrooms p Hr).
      * destruct (midpoint_spec _ _ (latticeEdges_adj _ He)) as (_ & _ & Hv & _).
        split; [done|]. by rewrite Hmid.
Qed.

Lemma genInv_layout g vs es :
  genInv g [] vs es →
  length (openCells g) = 199%nat ∧
  ∀ p, walkable g p = true → isSite p = true.
Proof.
  intros Inv. split.
  - rewrite (genInv_census _ _ _ Inv), length_app, length_fmap, rooms_count.
    pose proof (genInv_perfect _ _ _ Inv) as (_ & _ & _ & _ & _ & _ & ->).
    by rewrite rooms_count.
  - intros p Hp%elem_of_openCells. rewrite (genInv_census _ _ _ Inv) in Hp.
    apply elem_of_app in Hp as [Hp%elem_of_rooms|(e & -> & He)%list_elem_of_fmap].
    + by apply isRoom_site.
    + apply elem_of_connections in He as [He _].
      apply midpoint_site, (latticeEdges_adj _ He).
Qed.

Section Layout.
Context {R : RandomEngine} (laws : RandomEngineLaws R).

Lemma generateMaze_genInv (m m1 : Maze R) :
  gridOK (cells m) → generateMaze m = Some m1 →
  ∃ vs es, genInv (cells m1) [] vs es.
Proof.
  intros Hg. unfold generateMaze, generateMazeFuel.
  destruct (generate_initial_inv _ Hg)
    as (g0 & g1 & g2 & g3 & -> & H1 & H2 & H3 & Inv & Hcount).
  cbn [mbind option_bind]. rewrite H1. cbn [mbind option_bind].
  rewrite H2. cbn [mbind option_bind]. rewrite H3. cbn [mbind option_bind].
  destruct (carveLoop_correct laws LOOP_FUEL [V2 1 1] g3 (rng m) _ _ Inv)
    as (g' & r' & vs' & es' & -> & Inv').
  { pose proof CELL_COUNT_lt_LOOP_FUEL. cbn [length].
    assert (2 * CELL_COUNT ≤ LOOP_FUEL)%nat by (apply Nat.leb_le; by vm_compute).
    lia. }
  intros [= <-]. by exists vs', es'.
Qed.

(** A property of the set of open cells that every generated grid has holds
    in every state of a session. *)
Lemma reachableState_open (Φ : (Vector2i → bool) → Prop) :
  (∀ f f', (∀ p, f' p = f p) → Φ f → Φ f') →
  (∀ g vs es, genInv g [] vs es → Φ (walkable g)) →
  ∀ m : Maze R, reachableState m → Φ (walkable (cells m)).
Proof.
  intros Hext Hgen.
  assert (∀ m m' : Maze R, gridOK (cells m) → generateNewMaze m = Some m' →
            Φ (walkable (cells m'))) as Hnew.
  { intros m m' Hg Hrun. unfold generateNewMaze in Hrun.
    destruct (generateMaze_correct laws m Hg) as (m1 & Hrun1 & _ & Hperf).
    rewrite Hrun1 in Hrun. cbn [mbind option_bind] in Hrun.
    destruct (generateMaze_genInv m m1 Hg Hrun1) as (vs & es & Inv).
    destruct Hperf as (Hg1 & _ & _ & Hrooms & _).
    apply (Hext (walkable (cells m1))); [|by eapply Hgen].
    apply (reset_open m1 m' Hg1 Hrun); apply walkable_spec; (split; [done|]).
    - by rewrite (Hrooms (V2 1 1)).
    - by rewrite (Hrooms (V2 (MAZE_WIDTH - 2) (MAZE_HEIGHT - 2))). }
  induction 1 as [seed m Hrun|o m m' Hm IH Hstep].
  - rewrite newMaze_unfold in Hrun. eapply Hnew; [|exact Hrun].
    split; [done|]. by apply (bool_decide_unpack _).
  - pose proof (reachableState_WF laws m Hm) as Hwf.
    assert (o = OpGenerateNewMaze ∨ o ≠ OpGenerateNewMaze) as [->|Ho]
      by (destruct o; (by left) || (by right)).
    + eapply Hnew; [apply Hwf|exact Hstep].
    + apply (Hext (walkable (cells m))); [|done].
      apply (perform_open o m m' Hwf); [|done..].
      by apply reachableState_connected.
Qed.

End Layout.

(** X11: in every state of a session the open cells lie on the sites of
    the generator: the outer ring of the grid and the cells with two even
    coordinates are walls, whatever the player has done, and the player
    stands inside the ring. *)
Theorem open_cells_on_sites {R : RandomEngine} (laws : RandomEngineLaws R)
    (m : Maze R) :
  reachableState m →
  (∀ p, typeAt (cells m) p ≠ WALL → isSite p = true) ∧
  isSite (playerPos m) = true.
Proof.
  intros Hm.
  assert (∀ p, walkable (cells m) p = true → isSite p = true) as Hsites.
  { apply (reachableState_open laws
             (λ f, ∀ p, f p = true → isSite p = true)); [| |done].
    - intros f f' Hext Hf p. rewrite Hext. apply Hf.
    - intros g vs es Inv. by apply (genInv_layout _ _ _ Inv). }
  pose proof (reachableState_WF laws m Hm) as Hwf.
  split; [|by apply Hsites, WF_player_open].
  intros p Hp. apply Hsites, walkable_spec. split; [|done].
  eapply typeAt_not_WALL_valid; [apply Hwf|done].
Qed.

Lemma open_cells_on_sites_witness :
  (∀ p, typeAt (cells exampleArrived) p ≠ WALL → isSite p = true) ∧
  isSite (playerPos exampleArrived) = true.
Proof.
  exact (open_cells_on_sites LcgEngine_laws exampleArrived
           exampleArrived_reachable).
Defined.

(** X12: in every state of a session exactly 199 of the 441 cells are open:
    the hundred rooms and the ninety-nine cells that connect them. *)
Theorem open_cell_count {R : RandomEngine} (laws : RandomEngineLaws R)
    (m : Maze R) :
  reachableState m → length (openCells (cells m)) = 199%nat.
Proof.
  intros Hm.
  pose (Φ := λ f : Vector2i → bool,
          length (filter (λ p, f p = true) allPositions) = 199%nat).
  change (Φ (walkable (cells m))).
  apply (reachableState_open laws Φ); [| |done]; unfold Φ.
  - intros f f' Hext <-. f_equal. apply list_filter_iff. intros p.
    by rewrite Hext.
  - intros g vs es Inv. by apply (genInv_layout _ _ _ Inv).
Qed.

Lemma open_cell_count_witness :
  length (openCells (cells exampleArrived)) = 199%nat.
Proof.
  exact (open_cell_count LcgEngine_laws exampleArrived exampleArrived_reachable).
Defined.

(** ** Rendering *)

Lemma drawRow_spec g y xs calls :
  gridOK g → 0 ≤ y < MAZE_HEIGHT → (∀ x, x ∈ xs → 0 ≤ x < MAZE_WIDTH) →
  forEach (λ x, drawGridCell g x y) xs calls
  = Some (calls ++ ((λ x, DrawCell x y (cellColor (typeAt g (V2 x y)))) <$> xs)).
Proof.
  intros Hg Hy. revert calls.
  induction xs as [|x xs IH]; intros calls Hxs; [by rewrite app_nil_r|].
  destruct (cellAt_valid g x y Hg) as [c Hc].
  { apply isValidPosition_spec. split; [|done]. apply Hxs. by left. }
  assert (drawGridCell g x y calls
          = Some (calls ++ [DrawCell x y (cellColor (typeAt g (V2 x y)))]))
    as Hstep.
  { unfold drawGridCell. rewrite Hc.
    by destruct (cellAt_views g (V2 x y) c Hc) as [-> _]. }
  rewrite forEach_cons, Hstep. cbn [mbind option_bind].
  rewrite IH by (intros x' Hx'; apply Hxs; by right).
  by rewrite <- app_assoc.
Qed.

Lemma drawRows_spec g ys calls :
  gridOK g → (∀ y, y ∈ ys → 0 ≤ y < MAZE_HEIGHT) →
  forEach (λ y, forEach (λ x, drawGridCell g x y) (seqZ0 MAZE_WIDTH)) ys calls
  = Some (calls ++
          (ys ≫= λ y, (λ x, DrawCell x y (cellColor (typeAt g (V2 x y))))
                        <$> seqZ0 MAZE_WIDTH)).
Proof.
  intros Hg. revert calls.
  induction ys as [|y ys IH]; intros calls Hys; [by rewrite app_nil_r|].
  rewrite forEach_cons.
  rewrite drawRow_spec; [|done|apply Hys; by left|by intros x ?%elem_of_seqZ0].
  cbn [mbind option_bind].
  rewrite IH by (intros y' Hy'; apply Hys; by right).
  by rewrite <- app_assoc.
Qed.

Lemma fmap_positions {B} (f : Vector2i → B) ys xs :
  f <$> (ys ≫= λ y, xs ≫= λ x, [V2 x y])
  = ys ≫= λ y, (λ x, f (V2 x y)) <$> xs.
Proof.
  induction ys as [|y ys IH]; [done|].
  cbn [mbind list_bind]. rewrite fmap_app, IH. f_equal.
  clear. induction xs as [|x xs IH]; [done|].
  cbn [mbind list_bind fmap list_fmap app]. by rewrite <- IH.
Qed.

Lemma drawGrid_spec g :
  gridOK g →
  forEach (λ y, forEach (λ x, drawGridCell g x y) (seqZ0 MAZE_WIDTH))
          (seqZ0 MAZE_HEIGHT) [GlClear]
  = Some (GlClear :: gridCalls g).
Proof.
  intros Hg. rewrite drawRows_spec; [|done|by intros y ?%elem_of_seqZ0].
  unfold gridCalls, allPositions. by rewrite fmap_positions.
Qed.

Lemma drawOverlay_spec g l calls :
  gridOK g → Forall (λ p, walkable g p = true) l →
  forEach (drawOverlayCell g) l calls
  = Some (calls ++ overlayCalls (filter (λ p, typeAt g p = PATH) l)).
Proof.
  intros Hg Hl. revert calls.
  induction Hl as [|p l Hp Hl IH]; intros calls; [by rewrite app_nil_r|].
  apply walkable_spec in Hp as [Hv Hw].
  destruct (cellAt_valid g _ _ Hg Hv) as [c Hc].
  destruct (cellAt_views g p c Hc) as [Hty _].
  assert (drawOverlayCell g p calls
          = Some (if decide (typeAt g p = PATH)
                  then calls ++ [DrawPathCell (vx p) (vy p) pathColor]
                  else calls)) as Hstep.
  { unfold drawOverlayCell. rewrite Hc. cbn [mbind option_bind].
    rewrite <- Hty. by destruct (typeAt g p). }
  rewrite forEach_cons, Hstep. cbn [mbind option_bind]. rewrite IH.
  case_decide.
  - rewrite filter_cons_True by done. unfold overlayCalls.
    by rewrite fmap_cons, <- app_assoc.
  - by rewrite filter_cons_False by done.
Qed.

Section Rendering.
Context {R : RandomEngine}.

Lemma draw_run (m : Maze R) :
  gridOK (cells m) → pathOpen m →
  draw m = Some (GlClear :: gridCalls (cells m)
                   ++ overlayCalls (filter (λ p, typeAt (cells m) p = PATH)
                                           (shownPath m))
                   ++ [GlutSwapBuffers]).
Proof.
  intros Hg Hpath. unfold draw. rewrite (drawGrid_spec _ Hg).
  cbn [mbind option_bind]. unfold pathOpen, shownPath in *.
  destruct (pathFound m).
  - rewrite (drawOverlay_spec _ _ _ Hg Hpath). cbn [mbind option_bind].
    by rewrite <- app_assoc.
  - cbn [mbind option_bind filter list_filter overlayCalls fmap list_fmap].
    done.
Qed.

Lemma movePlayer_path dx dy (m m' : Maze R) b :
  movePlayer dx dy m = Some (b, m') →
  path m' = path m ∧ pathFound m' = pathFound m.
Proof.
  unfold movePlayer. destruct (isValidPosition _ _); [|by intros [= <- <-]].
  destruct (cellAt _ _ _) as [c|]; [|done]. cbn [mbind option_bind].
  destruct (negb _); [|by intros [= <- <-]].
  destruct (setType PATH _ _ _) as [g1|]; [|done]. cbn [mbind option_bind].
  destruct (setType PLAYER _ _ _) as [g2|]; [|done]. cbn [mbind option_bind].
  by intros [= <- <-].
Qed.

Lemma autoMoveStep_path (m m' : Maze R) b :
  autoMoveStep m = Some (b, m') →
  path m' = path m ∧ pathFound m' = pathFound m.
Proof.
  unfold autoMoveStep. destruct (negb _ || _); [by intros [= <- <-]|].
  destruct (if 0 <=? _ then _ else None) as [nextPos|]; [|done].
  cbn [mbind option_bind].
  destruct (setType PATH _ _ _) as [g1|]; [|done]. cbn [mbind option_bind].
  destruct (setType PLAYER _ _ _) as [g2|]; [|done]. cbn [mbind option_bind].
  intros [= <- <-]. by destruct (Vector2i_eqb _ _).
Qed.

Lemma findPathBFS_pathOpen (m m' : Maze R) :
  WF m → findPathBFS m = Some m' → pathOpen m'.
Proof.
  intros Hwf Hrun.
  destruct (findPathBFS_correct m) as (m1 & Hrun' & _ & _ & Hty & Hres);
    [apply Hwf..|].
  rewrite Hrun in Hrun'. injection Hrun' as <-.
  unfold pathOpen, shownPath. destruct (pathFound m'); [|constructor].
  destruct Hres as [[Htr _] _].
  eapply Forall_impl; [by eapply trail_open|].
  intros p Hp. unfold walkable in *. by rewrite Hty.
Qed.

Lemma pathOpen_keep (m m' : Maze R) :
  (∀ p, walkable (cells m') p = walkable (cells m) p) →
  path m' = path m → pathFound m' = pathFound m → pathOpen m → pathOpen m'.
Proof.
  unfold pathOpen, shownPath. intros Hopen -> ->.
  intros H. eapply Forall_impl; [exact H|]. intros p. by rewrite Hopen.
Qed.

Section WithLaws.
Context (laws : RandomEngineLaws R).

Lemma perform_pathOpen o (m m' : Maze R) :
  WF m → connectedMaze m → pathOpen m → perform o m = Some m' → pathOpen m'.
Proof.
  intros Hwf Hconn Hpath Hrun.
  assert (pathFound m' = false → pathOpen m') as Hoff.
  { unfold pathOpen, shownPath. intros ->. constructor. }
  destruct o; cbn [perform] in Hrun.
  - destruct (movePlayer dx dy m) as [[b m1]|] eqn:Hmove; [|done].
    injection Hrun as ->. destruct (movePlayer_path _ _ _ _ _ Hmove).
    apply (pathOpen_keep m); try done.
    apply (perform_open (OpMovePlayer dx dy) m m' Hwf Hconn); [done|].
    cbn [perform]. by rewrite Hmove.
  - by eapply findPathBFS_pathOpen.
  - unfold prepareAutoMove in Hrun.
    destruct (findPathBFS m) as [m1|] eqn:Hsearch; [|done].
    cbn [mbind option_bind] in Hrun.
    pose proof (findPathBFS_pathOpen _ _ Hwf Hsearch) as H1.
    destruct (pathFound m1) eqn:Hfound; injection Hrun as <-; [|done].
    unfold pathOpen, shownPath in *. fields. by rewrite Hfound in *.
  - destruct (autoMoveStep m) as [[b m1]|] eqn:Hstep; [|done].
    injection Hrun as ->. destruct (autoMoveStep_path _ _ _ Hstep).
    apply (pathOpen_keep m); try done.
    apply (perform_open OpAutoMoveStep m m' Hwf Hconn); [done|].
    cbn [perform]. by rewrite Hstep.
  - destruct (reset_run m (wf_grid _ Hwf)) as (g & Hrun' & _).
    rewrite Hrun in Hrun'. injection Hrun' as ->. by apply Hoff.
  - destruct (generateNewMaze_WF laws m (wf_grid _ Hwf))
      as (m1 & Hrun' & _ & _ & _ & _ & _ & Hfound & _).
    rewrite Hrun in Hrun'. injection Hrun' as <-. by apply Hoff.
Qed.

Lemma reachableState_pathOpen (m : Maze R) : reachableState m → pathOpen m.
Proof.
  induction 1 as [seed m Hrun|o m m' Hm IH Hstep].
  - rewrite newMaze_unfold in Hrun.
    destruct (generateNewMaze_WF laws
                (mkMaze (replicate (Z.to_nat MAZE_HEIGHT)
                           (replicate (Z.to_nat MAZE_WIDTH) defaultCell))
                        [] [] (V2 0 0) (V2 0 0) false false 0 seed))
      as (m1 & Hrun' & _ & _ & _ & _ & _ & Hfound & _).
    { split; [done|]. by apply (bool_decide_unpack _). }
    rewrite Hrun in Hrun'. injection Hrun' as <-.
    unfold pathOpen, shownPath. rewrite Hfound. constructor.
  - eapply perform_pathOpen; [| |exact IH|exact Hstep].
    + by apply reachableState_WF.
    + by apply reachableState_connected.
Qed.

End WithLaws.
End Rendering.

(** X13: in every state of a session [draw] runs without reading outside
    the grid and makes these calls, in this order: it clears the frame,
    paints each of the 441 cells row by row in the colour of its kind, lays
    the path colour over those cells of the shown path whose kind is [PATH]
    (never over a wall, the player or the target mark), and swaps the
    buffers. *)
Theorem draw_calls {R : RandomEngine} (laws : RandomEngineLaws R)
    (m : Maze R) :
  reachableState m →
  draw m = Some (GlClear :: gridCalls (cells m)
                   ++ overlayCalls (filter (λ p, typeAt (cells m) p = PATH)
                                           (shownPath m))
                   ++ [GlutSwapBuffers]).
Proof.
  intros Hm. apply draw_run.
  - apply (reachableState_WF laws m Hm).
  - by apply reachableState_pathOpen.
Qed.

Lemma draw_calls_witness :
  draw exampleArrived
  = Some (GlClear :: gridCalls (cells exampleArrived)
            ++ overlayCalls (filter (λ p, typeAt (cells exampleArrived) p = PATH)
                                    (shownPath exampleArrived))
            ++ [GlutSwapBuffers]).
Proof.
  exact (draw_calls LcgEngine_laws exampleArrived exampleArrived_reachable).
Defined.

Lemma filter_all {A} (P : A → Prop) `{!∀ x, Decision (P x)} (l : list A) :
  (∀ x, x ∈ l → P x) → filter P l = l.
Proof.
  induction l as [|x l IH]; [done|]. intros Hall.
  rewrite filter_cons_True by (apply Hall; by left).
  f_equal. apply IH. intros y Hy. apply Hall. by right.
Qed.

(** The cells of a simple path to the target whose kind is [PATH]: all of
    them, but for the target while it carries its mark. *)
Lemma filter_path_cells g player tgt l :
  NoDup (player :: l) → last (player :: l) = Some tgt →
  Forall (λ p, walkable g p = true) l →
  atMostOneAt PLAYER g player → atMostOneAt TARGET g tgt →
  filter (λ p, typeAt g p = PATH) l
  = if decide (typeAt g tgt = TARGET) then removelast l else l.
Proof.
  intros Hnd Hlast Hopen Hplayer Htarget.
  assert (l = [] ∨ ∃ l0 a, l = l0 ++ [a]) as [-> |(l0 & a & ->)]
    by (clear; destruct l as [|a l0 _] using rev_ind; eauto);
    [by case_decide|].
  rewrite app_comm_cons, last_snoc in Hlast. injection Hlast as ->.
  apply NoDup_cons in Hnd as [Hp Hnd]. apply NoDup_app in Hnd as (_ & Hdis & _).
  apply Forall_app in Hopen as [Hopen Ht]. rewrite Forall_singleton in Ht.
  apply walkable_spec in Ht as [_ Ht].
  rewrite filter_app, removelast_last.
  rewrite (filter_all _ l0).
  - assert (typeAt g tgt ≠ PLAYER) as Hnp.
    { intros Hc%Hplayer. apply Hp. rewrite Hc. apply elem_of_app. right. by left. }
    case_decide as Hmark.
    + rewrite filter_cons_False by congruence. by rewrite app_nil_r.
    + rewrite filter_cons_True; [done|]. by destruct (typeAt g tgt).
  - intros p Hin. rewrite Forall_forall in Hopen.
    pose proof (Hopen p Hin) as [_ Hw]%walkable_spec.
    assert (typeAt g p ≠ PLAYER) as Hnp.
    { intros Hc%Hplayer. apply Hp. rewrite <- Hc. apply elem_of_app. by left. }
    assert (typeAt g p ≠ TARGET) as Hnt.
    { intros Hc%Htarget. apply (Hdis p Hin). rewrite Hc. by left. }
    by destruct (typeAt g p).
Qed.

(** X14: what [draw] shows right after a search.  The path colour is laid
    over every cell of the path found, except that the target cell is left
    in its own colour as long as it still carries the [TARGET] mark; the
    player's cell is never covered. *)
Theorem draw_after_search {R : RandomEngine} (laws : RandomEngineLaws R)
    (m m' : Maze R) :
  reachableState m → findPathBFS m = Some m' →
  draw m' = Some (GlClear :: gridCalls (cells m')
                    ++ overlayCalls
                         (if decide (typeAt (cells m') (targetPos m') = TARGET)
                          then removelast (path m') else path m')
                    ++ [GlutSwapBuffers]).
Proof.
  intros Hm Hrun. pose proof (reachableState_WF laws m Hm) as Hwf.
  pose proof (findPathBFS_WF _ _ Hwf Hrun) as Hwf'.
  rewrite (draw_run m' (wf_grid _ Hwf') (findPathBFS_pathOpen _ _ Hwf Hrun)).
  assert (filter (λ p, typeAt (cells m') p = PATH) (shownPath m')
          = if decide (typeAt (cells m') (targetPos m') = TARGET)
            then removelast (path m') else path m') as ->; [|done].
  destruct (findPathBFS_correct m) as (m1 & Hrun' & Hm' & _ & Hty & Hres);
    [apply Hwf..|].
  rewrite Hrun in Hrun'. injection Hrun' as <-.
  assert (playerPos m' = playerPos m ∧ targetPos m' = targetPos m)
    as [Hp Ht] by (by rewrite Hm').
  unfold shownPath. destruct (pathFound m').
  - destruct Hres as [Hgeo _]. pose proof Hgeo as [Htr _].
    apply (filter_path_cells _ (playerPos m') (targetPos m')).
    + rewrite Hp. by eapply geodesic_NoDup.
    + rewrite Hp, Ht. by eapply trail_last.
    + eapply Forall_impl; [by eapply trail_open|].
      intros p Hopen. unfold walkable in *. by rewrite Hty.
    + apply Hwf'.
    + apply Hwf'.
  - destruct Hres as [-> _]. by case_decide.
Qed.

Lemma draw_after_search_witness :
  draw exampleSearched
  = Some (GlClear :: gridCalls (cells exampleSearched)
            ++ overlayCalls
                 (if decide (typeAt (cells exampleSearched)
                                    (targetPos exampleSearched) = TARGET)
                  then removelast (path exampleSearched)
                  else path exampleSearched)
            ++ [GlutSwapBuffers]).
Proof.
  exact (draw_after_search LcgEngine_laws exampleStart exampleSearched
           exampleStart_reachable exampleSearched_found).
Defined.

(** ** The event loop *)

Lemma stepsFrom_chain g p l :
  stepsFrom g p l →
  ∀ j a b, (p :: l) !! j = Some a → (p :: l) !! S j = Some b → adjacent a b.
Proof.
  revert p. induction l as [|q l IH]; intros p Hs j a b Ha Hb.
  - by destruct j.
  - destruct Hs as (Hadj & _ & Hs). destruct j as [|j].
    + cbn in Ha, Hb. by simplify_eq.
    + by apply (IH q Hs j).
Qed.

Section EventLoop.
Context {R : RandomEngine} {C : SteadyClock} (laws : RandomEngineLaws R).

(** One step of a running animation in which the player is on track. *)
Lemma autoMoveStep_onTrack (m : Maze R) :
  WF m → onTrack m → autoMoving m = true →
  ∃ b m', autoMoveStep m = Some (b, m') ∧ onTrack m' ∧
    (adjacent (playerPos m) (playerPos m') ∨
     playerPos m = targetPos m ∧ playerPos m' = playerPos m) ∧
    (autoMoving m' = false ↔ playerPos m' = targetPos m') ∧
    playerPos m' ∈ movePath m.
Proof.
  intros Hwf Htrack Hauto. pose proof Hwf as [Hg Hp _ _ _ _ _ [Hvalid Hlen] _].
  destruct (Htrack Hauto) as (i & Hidx & Hat & Hlast & Hchain).
  apply lookup_lt_Some in Hat as Hi.
  pose proof CELL_COUNT_small as Hsmall.
  unfold autoMoveStep. rewrite Hauto, Hidx. cbn [negb orb].
  rewrite !size_t_small by (unfold SIZE_MOD; lia).
  destruct (decide (S i = length (movePath m))) as [Hend|Hmid].
  - rewrite (proj2 (Z.leb_le _ _)) by lia.
    assert (playerPos m = targetPos m) as Heq.
    { rewrite last_lookup, <- Hend in Hlast. cbn [pred] in Hlast. congruence. }
    eexists _, _. split; [done|]. fields.
    split; [by intros ?|]. split; [by right|]. split; [done|].
    by eapply list_elem_of_lookup_2.
  - rewrite (proj2 (Z.leb_gt _ _)) by lia.
    unfold int_add. rewrite wrap_int_small
      by (unfold is_int, INT_MIN, INT_MAX; lia).
    rewrite (proj2 (Z.leb_le 0 (Z.of_nat i + 1))) by lia.
    replace (Z.to_nat (Z.of_nat i + 1)) with (S i) by lia.
    destruct (lookup_lt_is_Some_2 (movePath m) (S i)) as [nextPos Hnext]; [lia|].
    rewrite Hnext. cbn [mbind option_bind].
    assert (validPos nextPos) as Hnv.
    { rewrite Forall_lookup in Hvalid. by eapply Hvalid. }
    destruct (setType_defined PATH _ _ _ Hg Hp) as [g1 H1]. rewrite H1.
    cbn [mbind option_bind].
    destruct (setType_defined PLAYER g1 (vx nextPos) (vy nextPos)) as [g2 H2];
      [by eapply setType_gridOK|done|].
    rewrite H2. cbn [mbind option_bind]. fields. eexists _, _. split; [done|].
    destruct (Vector2i_eqb nextPos (targetPos m)) eqn:Htgt; fields.
    + apply Vector2i_eqb_eq in Htgt.
      split; [by intros ?|]. split; [left; by eapply Hchain|].
      split; [done|]. by eapply list_elem_of_lookup_2.
    + apply Vector2i_eqb_neq in Htgt.
      split; [|split; [left; by eapply Hchain|split]].
      * intros _. exists (S i). fields. split; [lia|]. done.
      * rewrite Hauto. split; [done|]. intros ?. done.
      * by eapply list_elem_of_lookup_2.
Qed.

Lemma prepareAutoMove_onTrack (m m' : Maze R) :
  WF m → onTrack m → prepareAutoMove m = Some m' → onTrack m'.
Proof.
  intros Hwf Htrack. unfold prepareAutoMove.
  destruct (findPathBFS_correct m) as (m1 & -> & Hm & _ & _ & Hres);
    [apply Hwf..|].
  cbn [mbind option_bind].
  assert (playerPos m1 = playerPos m ∧ targetPos m1 = targetPos m ∧
          autoMoving m1 = autoMoving m ∧ movePath m1 = movePath m ∧
          currentMoveIndex m1 = currentMoveIndex m) as (Hp & Ht & Ha & Hmp & Hi)
    by (by rewrite Hm).
  destruct (pathFound m1); intros [= <-].
  - destruct Hres as [[Htr _] _]. intros _. exists 0%nat. fields.
    split; [done|]. split; [done|]. rewrite Hp, Ht.
    split; [by eapply trail_last|].
    eapply stepsFrom_chain. by eapply trail_stepsFrom.
  - unfold onTrack. by rewrite Ha, Hmp, Hi, Hp, Ht.
Qed.

Lemma perform_onTrack o (m m' : Maze R) :
  WF m → onTrack m → guarded o m → perform o m = Some m' → onTrack m'.
Proof.
  intros Hwf Htrack Hguard Hrun.
  assert (autoMoving m' = false → onTrack m') as Hoff.
  { unfold onTrack. by intros ->. }
  destruct o; cbn [perform guarded] in *.
  - destruct (movePlayer_frame dx dy m Hwf) as (b & m1 & Hmove & Ha & _).
    rewrite Hmove in Hrun. injection Hrun as <-. apply Hoff. congruence.
  - destruct (findPathBFS_correct m) as (m1 & Hrun' & Hm & _); [apply Hwf..|].
    rewrite Hrun in Hrun'. injection Hrun' as <-.
    unfold onTrack in *. rewrite Hm. by fields.
  - by eapply prepareAutoMove_onTrack.
  - destruct (autoMoveStep_onTrack m Hwf Htrack Hguard)
      as (b & m1 & Hstep & Htrack1 & _).
    rewrite Hstep in Hrun. by injection Hrun as <-.
  - destruct (reset_run m (wf_grid _ Hwf)) as (g & Hrun' & _).
    rewrite Hrun in Hrun'. injection Hrun' as ->. by apply Hoff.
  - destruct (generateNewMaze_WF laws m (wf_grid _ Hwf))
      as (m1 & Hrun' & _ & _ & Ha & _).
    rewrite Hrun in Hrun'. injection Hrun' as <-. by apply Hoff.
Qed.

(** Every callback returns; it ends the program on ESC alone, and otherwise
    leaves the session as it was or as one guarded operation makes it. *)
Lemma dispatch_step e (a : App R C) m :
  instance a = Some m → WF m → pathOpen m →
  (∃ now, e = EvKeyboard 27 now ∧ dispatch e a = Some Exited) ∨
  ((∀ now, e ≠ EvKeyboard 27 now) ∧
   ∃ m' t out, dispatch e a = Some (Running (mkApp (Some m') t) out) ∧
               (m' = m ∨ ∃ o, guarded o m ∧ perform o m = Some m')).
Proof.
  intros Hinst Hwf Hpath.
  destruct a as [inst t0]. cbn [instance] in Hinst. subst inst.
  assert (∀ o, guarded o m →
            ∃ m', perform o m = Some m' ∧
                  (m' = m ∨ ∃ o, guarded o m ∧ perform o m = Some m')) as Hop.
  { intros o Ho. destruct (perform_defined_WF laws o m Hwf) as [m' Hrun].
    exists m'. split; [done|]. right. by exists o. }
  destruct e as [|key now|key|now]; cbn [dispatch].
  - right. split; [done|]. unfold display. cbn [instance lastAutoMoveTime].
    rewrite (draw_run m (wf_grid _ Hwf) Hpath). cbn [mbind option_bind].
    eexists _, _, _. split; [done|]. by left.
  - unfold keyboard. cbn [instance lastAutoMoveTime].
    destruct (key =? 32) eqn:K1.
    { right. split; [intros ? [= ? ?]; lia|].
      destruct (Hop OpFindPathBFS I) as (m' & Hrun & Hm'). cbn [perform] in Hrun.
      rewrite Hrun. cbn [mbind option_bind]. by eexists _, _, _. }
    destruct ((key =? 114) || (key =? 82)) eqn:K2.
    { right. split; [intros ? [= ? ?]; lia|].
      destruct (Hop OpReset I) as (m' & Hrun & Hm'). cbn [perform] in Hrun.
      rewrite Hrun. cbn [mbind option_bind]. by eexists _, _, _. }
    destruct ((key =? 110) || (key =? 78)) eqn:K3.
    { right. split; [intros ? [= ? ?]; lia|].
      destruct (Hop OpGenerateNewMaze I) as (m' & Hrun & Hm').
      cbn [perform] in Hrun.
      rewrite Hrun. cbn [mbind option_bind]. by eexists _, _, _. }
    destruct ((key =? 97) || (key =? 65)) eqn:K4.
    { right. split; [intros ? [= ? ?]; lia|].
      destruct (Hop OpPrepareAutoMove I) as (m' & Hrun & Hm').
      cbn [perform] in Hrun.
      rewrite Hrun. cbn [mbind option_bind]. by eexists _, _, _. }
    destruct (key =? 27) eqn:K5.
    { left. exists now. apply Z.eqb_eq in K5 as ->. by cbn [instance lastAutoMoveTime]. }
    right. split; [intros ? [= ? ?]; lia|].
    eexists _, _, _. split; [done|]. by left.
  - right. split; [done|]. unfold specialKeysCallback. cbn [instance lastAutoMoveTime].
    unfold isAutoMoving, specialKeys.
    destruct (autoMoving m) eqn:Hauto.
    { eexists _, _, _. split; [done|]. by left. }
    assert (∀ dx dy, ∃ m' t out,
              (m' ← snd <$> movePlayer dx dy m;
               Some (Running (mkApp (Some m') t0) [GlutPostRedisplay]))
              = Some (Running (mkApp (Some m') t) out) ∧
              (m' = m ∨ ∃ o, guarded o m ∧ perform o m = Some m')) as Hmove.
    { intros dx dy.
      destruct (Hop (OpMovePlayer dx dy) Hauto) as (m' & Hrun & Hm').
      cbn [perform] in Hrun. rewrite Hrun. cbn [mbind option_bind].
      by eexists _, _, _. }
    destruct key; [apply Hmove..|].
    cbn [mbind option_bind]. eexists _, _, _. split; [done|]. by left.
  - right. split; [done|]. unfold timer. cbn [instance lastAutoMoveTime]. unfold isAutoMoving.
    destruct (autoMoving m) eqn:Hauto;
      [|eexists _, _, _; split; [done|]; by left].
    destruct (intervalElapsed _ _);
      [|eexists _, _, _; split; [done|]; by left].
    destruct (autoMoveStep_defined m Hwf) as (b & m' & Hstep).
    rewrite Hstep. cbn [mbind option_bind]. eexists _, _, _. split; [done|].
    right. exists OpAutoMoveStep. split; [done|]. cbn [perform].
    by rewrite Hstep.
Qed.

Lemma main_run seed t0 :
  ∃ m out, main seed t0 = Some (Running (mkApp (Some m) t0) out) ∧
           newMaze seed = Some m.
Proof.
  unfold main. destruct (newMaze_WF laws seed) as (m & Hnew & _).
  rewrite Hnew. cbn [mbind option_bind]. exists m. eexists.
  split; reflexivity.
Qed.

(** In a running program the session is one that the operations can reach,
    and the player is on track. *)
Lemma appState_inv (a : App R C) :
  appState a → ∃ m, instance a = Some m ∧ reachableState m ∧ onTrack m.
Proof.
  induction 1 as [seed t0 a out Hmain|e a a' out Ha (m & Hinst & Hm & Htrack) Hev].
  - destruct (main_run seed t0) as (m & out' & Hrun & Hnew).
    rewrite Hmain in Hrun. injection Hrun as -> _. exists m.
    split; [done|]. split; [by eapply reachable_new|].
    rewrite newMaze_unfold in Hnew.
    destruct (generateNewMaze_WF laws
                (mkMaze (replicate (Z.to_nat MAZE_HEIGHT)
                           (replicate (Z.to_nat MAZE_WIDTH) defaultCell))
                        [] [] (V2 0 0) (V2 0 0) false false 0 seed))
      as (m1 & Hrun' & _ & _ & Hauto & _).
    { split; [done|]. by apply (bool_decide_unpack _). }
    rewrite Hnew in Hrun'. injection Hrun' as <-.
    unfold onTrack. by rewrite Hauto.
  - pose proof (reachableState_WF laws m Hm) as Hwf.
    destruct (dispatch_step e a m Hinst Hwf (reachableState_pathOpen laws m Hm))
      as [(now & _ & Hexit)|(_ & m' & t & out' & Hrun & Hm')];
      [congruence|].
    rewrite Hev in Hrun. injection Hrun as -> _. exists m'. split; [done|].
    destruct Hm' as [-> |(o & Hguard & Hperf)]; [done|].
    split; [by eapply reachable_perform|by eapply perform_onTrack].
Qed.

End EventLoop.

(** X15: the program never fails.  [main] builds its session for every
    seed, and in a running program every callback returns, whatever the
    event: no vector is indexed out of range and no loop runs on.  Only the
    ESC key ends the program. *)
Theorem event_loop_never_fails {R : RandomEngine} {C : SteadyClock}
    (laws : RandomEngineLaws R) :
  (∀ seed t0, ∃ a out, main seed t0 = Some (Running a out)) ∧
  (∀ (a : App R C) e, appState a →
     ∃ o, dispatch e a = Some o ∧
          (o = Exited ↔ ∃ now, e = EvKeyboard 27 now)).
Proof.
  split.
  - intros seed t0. destruct (main_run laws seed t0) as (m & out & Hrun & _).
    by eexists _, _.
  - intros a e (m & Hinst & Hm & _)%(appState_inv laws).
    pose proof (reachableState_WF laws m Hm) as Hwf.
    destruct (dispatch_step laws e a m Hinst Hwf
                (reachableState_pathOpen laws m Hm))
      as [(now & -> & Hexit)|(Hkey & m' & t & out & Hrun & _)].
    + exists Exited. split; [done|]. split; [by exists now|done].
    + eexists. split; [exact Hrun|]. split; [done|].
      intros [now ->]. by destruct (Hkey now).
Qed.

Lemma exampleApp_running : appState exampleApp.
Proof.
  apply (app_event (EvKeyboard 97 (0 : @TimePoint NanoClock))
           (mkApp (Some exampleStart) (0 : @TimePoint NanoClock))
           exampleApp
           [Cout "Start auto-solve"; GlutPostRedisplay]).
  - eapply (app_main (lcgSeed 42) (0 : @TimePoint NanoClock)).
    unfold main. rewrite exampleStart_new. reflexivity.
  - cbn [dispatch]. unfold keyboard. cbn [instance Z.eqb Pos.eqb orb].
    rewrite exampleSolving_prepared. reflexivity.
Qed.

Lemma event_loop_never_fails_witness :
  ∃ o, dispatch (EvTimer (25000000 : @TimePoint NanoClock)) exampleApp = Some o ∧
       (o = Exited ↔
        ∃ now, EvTimer (25000000 : @TimePoint NanoClock) = EvKeyboard 27 now).
Proof.
  exact (proj2 (event_loop_never_fails LcgEngine_laws) exampleApp
           (EvTimer (25000000 : @TimePoint NanoClock)) exampleApp_running).
Defined.

(** X16: in a running program the animation keeps the player on its path.
    When the timer fires during an animation and the interval has elapsed,
    the player moves to a neighbouring open cell, or stands on the target
    already and stays; and the animation stops exactly when the player is
    on the target. *)
Theorem animation_on_track {R : RandomEngine} {C : SteadyClock}
    (laws : RandomEngineLaws R) (a : App R C) (m : Maze R) (now : TimePoint) :
  appState a → instance a = Some m → autoMoving m = true →
  intervalElapsed (lastAutoMoveTime a) now = true →
  ∃ m' out,
    timer now a = Some (Running (mkApp (Some m') now) out) ∧
    (adjacent (playerPos m) (playerPos m') ∨
     playerPos m = targetPos m ∧ playerPos m' = playerPos m) ∧
    walkable (cells m) (playerPos m') = true ∧
    (autoMoving m' = false ↔ playerPos m' = targetPos m').
Proof.
  intros (m0 & Hinst0 & Hm & Htrack)%(appState_inv laws) Hinst Hauto Hdue.
  rewrite Hinst in Hinst0. injection Hinst0 as <-.
  pose proof (reachableState_WF laws m Hm) as Hwf.
  destruct (autoMoveStep_onTrack m Hwf Htrack Hauto)
    as (b & m' & Hstep & _ & Hmove & Hstop & Hin).
  exists m'. unfold timer, isAutoMoving. rewrite Hinst, Hauto, Hdue, Hstep.
  cbn [mbind option_bind]. eexists. split; [done|]. split; [done|].
  split; [|done].
  destruct (reachableState_connected laws m Hm) as (_ & _ & _ & _ & Hopen).
  rewrite Forall_forall in Hopen. by apply Hopen.
Qed.

Lemma animation_on_track_witness :
  ∃ m' out,
    timer (25000000 : @TimePoint NanoClock) exampleApp
      = Some (Running (mkApp (Some m') (25000000 : @TimePoint NanoClock)) out) ∧
    (adjacent (playerPos exampleSolving) (playerPos m') ∨
     playerPos exampleSolving = targetPos exampleSolving ∧
     playerPos m' = playerPos exampleSolving) ∧
    walkable (cells exampleSolving) (playerPos m') = true ∧
    (autoMoving m' = false ↔ playerPos m' = targetPos m').
Proof.
  apply (animation_on_track LcgEngine_laws exampleApp exampleSolving
           (25000000 : @TimePoint NanoClock)).
  - exact exampleApp_running.
  - reflexivity.
  - by vm_compute.
  - by vm_compute.
Defined.

(** ** Resetting undoes the moves *)

Lemma resetView_clear g x y : resetView (clearVisited g) x y = resetView g x y.
Proof.
  unfold resetView, clearVisited. rewrite cellAt_map.
  by destruct (cellAt g x y).
Qed.

Lemma resetView_idemp g g' :
  (∀ x y, cellAt g' x y = resetView g x y) →
  ∀ x y, resetView g' x y = resetView g x y.
Proof.
  intros H x y. unfold resetView at 1. rewrite H. unfold resetView.
  destruct (cellAt g x y) as [c|]; [|done].
  cbn [fmap option_fmap option_map cell_x cell_y type]. do 2 f_equal.
  unfold resetKind. repeat case_decide; try done. by destruct (type c).
Qed.

Lemma resetKind_PLAYER p t :
  t ≠ WALL → (t = TARGET → p = V2 (MAZE_WIDTH - 2) (MAZE_HEIGHT - 2)) →
  resetKind p PLAYER = resetKind p t.
Proof.
  intros Hw Ht. unfold resetKind. repeat case_decide; try done.
  destruct t; try done. by destruct Ht.
Qed.

Lemma resetKind_PATH p : resetKind p PATH = resetKind p PLAYER.
Proof. unfold resetKind. by repeat case_decide. Qed.

(** Moving the player mark onto an open cell does not show after a reset. *)
Lemma relocate_resetView (g g1 g2 : Grid) old dest :
  typeAt g old = PLAYER → typeAt g dest ≠ WALL →
  atMostOneAt TARGET g (V2 (MAZE_WIDTH - 2) (MAZE_HEIGHT - 2)) →
  setType PATH g (vx old) (vy old) = Some g1 →
  setType PLAYER g1 (vx dest) (vy dest) = Some g2 →
  ∀ x y, resetView g2 x y = resetView g x y.
Proof.
  intros Hold Hdest Htgt H1 H2 x y. unfold resetView.
  rewrite (cellAt_updCell _ _ _ _ _ x y H2), (cellAt_updCell _ _ _ _ _ x y H1).
  destruct (cellAt g x y) as [c|] eqn:Hc; [|by repeat case_decide].
  destruct (cellAt_views g (V2 x y) c Hc) as [Hty _].
  assert (type c = TARGET → V2 x y = V2 (MAZE_WIDTH - 2) (MAZE_HEIGHT - 2))
    as Hmark by (rewrite <- Hty; apply Htgt).
  destruct (decide ((x, y) = (vx dest, vy dest))) as [Hd|Hd].
  - assert (type c ≠ WALL) as Hw.
    { injection Hd as -> ->. rewrite <- Hty. by rewrite V2_eta. }
    assert (∀ o : option Cell, o = Some c ∨ o = withType PATH <$> Some c →
              (λ c, mkCell (cell_x c) (cell_y c)
                           (resetKind (V2 x y) (type c)) false)
                <$> (withType PLAYER <$> o)
              = Some (mkCell (cell_x c) (cell_y c)
                             (resetKind (V2 x y) (type c)) false)) as Hgoal.
    { intros o [-> | ->];
        cbn [fmap option_fmap option_map withType cell_x cell_y type];
        by rewrite (resetKind_PLAYER _ (type c)). }
    apply Hgoal. case_decide; auto.
  - destruct (decide ((x, y) = (vx old, vy old))) as [Ho|Ho]; [|done].
    assert (type c = PLAYER) as Hp.
    { injection Ho as -> ->. rewrite <- Hty. by rewrite V2_eta. }
    cbn [fmap option_fmap option_map withType cell_x cell_y type].
    by rewrite Hp, resetKind_PATH.
Qed.

Section ResetAbsorbs.
Context {R : RandomEngine} (laws : RandomEngineLaws R).

Lemma reset_congr (m1 m2 : Maze R) :
  gridOK (cells m1) → gridOK (cells m2) → rng m1 = rng m2 →
  (∀ x y, resetView (cells m1) x y = resetView (cells m2) x y) →
  ∃ r1 r2, reset m1 = Some r1 ∧ reset m2 = Some r2 ∧
           sessionCore r1 = sessionCore r2.
Proof.
  intros H1 H2 Hrng Hview.
  destruct (reset_run m1 H1) as (g1 & -> & Hg1 & Hc1).
  destruct (reset_run m2 H2) as (g2 & -> & Hg2 & Hc2).
  eexists _, _. do 2 (split; [done|]). unfold sessionCore. fields.
  rewrite Hrng. do 7 f_equal. apply grid_ext; [done..|]. intros x y.
  rewrite Hc1, Hc2. apply Hview.
Qed.

Lemma perform_resetView o (m m' : Maze R) :
  reachableState m → o ≠ OpGenerateNewMaze → perform o m = Some m' →
  rng m' = rng m ∧ ∀ x y, resetView (cells m') x y = resetView (cells m) x y.
Proof.
  intros Hm Ho Hrun. pose proof (reachableState_WF laws m Hm) as Hwf.
  pose proof Hwf as [Hg Hp Hpc Hpu Ht Htu Ha Hmp Hi].
  rewrite Ht in Htu.
  assert (∀ m1, findPathBFS m = Some m1 →
            rng m1 = rng m ∧
            ∀ x y, resetView (cells m1) x y = resetView (cells m) x y) as Hbfs.
  { intros m1 Hsearch.
    destruct (findPathBFSFuel_frame _ _ _ Hsearch) as [Hclear Hm1].
    split; [by rewrite Hm1|]. intros x y.
    by rewrite <- (resetView_clear (cells m1)), Hclear, resetView_clear. }
  destruct o; cbn [perform] in Hrun; try done.
  - unfold movePlayer in Hrun.
    destruct (isValidPosition _ _); [|by injection Hrun as <-].
    destruct (cellAt (cells m) _ _) as [c|] eqn:Hc; [|done].
    cbn [mbind option_bind] in Hrun.
    destruct (CellType_eqb (type c) WALL) eqn:Hw; cbn [negb] in Hrun;
      [by injection Hrun as <-|].
    destruct (setType PATH _ _ _) as [g1|] eqn:H1; [|done].
    cbn [mbind option_bind] in Hrun.
    destruct (setType PLAYER _ _ _) as [g2|] eqn:H2; [|done].
    cbn [mbind option_bind fmap option_fmap option_map snd] in Hrun.
    injection Hrun as <-. fields. split; [done|].
    apply (relocate_resetView _ g1 _ (playerPos m)
             (V2 (int_add (vx (playerPos m)) dx) (int_add (vy (playerPos m)) dy)));
      try done.
    destruct (cellAt_views _ (V2 _ _) c Hc) as [-> _].
    by apply CellType_eqb_neq.
  - by apply Hbfs.
  - unfold prepareAutoMove in Hrun.
    destruct (findPathBFS m) as [m1|] eqn:Hsearch; [|done].
    cbn [mbind option_bind] in Hrun. destruct (Hbfs m1 eq_refl) as [Hr Hv].
    destruct (pathFound m1); by injection Hrun as <-.
  - unfold autoMoveStep in Hrun.
    destruct (negb _ || _); [by injection Hrun as <-|].
    destruct (if 0 <=? _ then _ else None) as [nextPos|] eqn:Hnext; [|done].
    cbn [mbind option_bind] in Hrun.
    destruct (setType PATH _ _ _) as [g1|] eqn:H1; [|done].
    cbn [mbind option_bind] in Hrun.
    destruct (setType PLAYER _ _ _) as [g2|] eqn:H2; [|done].
    cbn [mbind option_bind fmap option_fmap option_map snd] in Hrun.
    assert (rng m' = rng m ∧ cells m' = g2) as [Hr ->].
    { injection Hrun as <-. by destruct (Vector2i_eqb _ _). }
    split; [done|].
    apply (relocate_resetView _ g1 _ (playerPos m) nextPos); try done.
    destruct (reachableState_connected laws m Hm) as (_ & _ & _ & _ & Hopen).
    rewrite Forall_forall in Hopen.
    assert (nextPos ∈ movePath m) as Hin.
    { destruct (0 <=? _); [|done]. by eapply list_elem_of_lookup_2. }
    by apply Hopen, walkable_spec in Hin as [_ ?].
  - destruct (reset_run m Hg) as (g & Hrun' & _ & Hcells).
    rewrite Hrun in Hrun'. injection Hrun' as ->. fields. split; [done|].
    by apply resetView_idemp.
Qed.

Lemma performAll_resetView ops :
  ∀ m m' : Maze R,
    reachableState m → OpGenerateNewMaze ∉ ops → performAll ops m = Some m' →
    reachableState m' ∧ rng m' = rng m ∧
    ∀ x y, resetView (cells m') x y = resetView (cells m) x y.
Proof.
  induction ops as [|o ops IH]; intros m m' Hm Hops Hrun.
  - by injection Hrun as <-.
  - cbn [performAll] in Hrun.
    destruct (perform o m) as [m1|] eqn:Hstep; [|done].
    cbn [mbind option_bind] in Hrun.
    apply not_elem_of_cons in Hops as [Ho Hops].
    destruct (perform_resetView o m m1 Hm) as [Hr1 Hv1]; [congruence|done|].
    destruct (IH m1 m') as (Hm' & Hr & Hv); [by eapply reachable_perform|done..|].
    split; [done|]. split; [congruence|]. intros x y. by rewrite Hv, Hv1.
Qed.

End ResetAbsorbs.

(** X17: a reset undoes everything but the generation of a maze.  After any
    sequence of moves, searches, animation steps and resets, [reset] leaves
    the very session that it would have left before them: the same grid,
    cell for cell, positions, flags and engine state; only the stale
    solution path may differ. *)
Theorem reset_absorbs {R : RandomEngine} (laws : RandomEngineLaws R)
    (ops : list Op) (m m' : Maze R) :
  reachableState m → OpGenerateNewMaze ∉ ops → performAll ops m = Some m' →
  ∃ r r', reset m = Some r ∧ reset m' = Some r' ∧
          sessionCore r' = sessionCore r.
Proof.
  intros Hm Hops Hrun.
  destruct (performAll_resetView laws ops m m' Hm Hops Hrun) as (Hm' & Hr & Hv).
  destruct (reset_congr m' m) as (r' & r & H1 & H2 & Hcore); try done.
  - apply (reachableState_WF laws m' Hm').
  - apply (reachableState_WF laws m Hm).
  - by exists r, r'.
Qed.

Lemma reset_absorbs_witness :
  ∃ r r', reset exampleSolving = Some r ∧ reset exampleArrived = Some r' ∧
          sessionCore r' = sessionCore r.
Proof.
  apply (reset_absorbs LcgEngine_laws (replicate 60 OpAutoMoveStep)).
  - exact exampleSolving_reachable.
  - by intros [? _]%elem_of_replicate.
  - exact exampleArrived_stepped.
Defined.

(** ** Simple paths in a tree *)

Section TreePaths.
Context {V : Type} `{!EqDecision V}.
Implicit Types (vs : list V) (es : list (V * V)).

Lemma spath_end E (a b : V) l : spath E a l b → l ≠ [] → b ∈ l.
Proof.
  induction 1 as [a|a x l b _ _ Hp IH]; [done|]. intros _.
  destruct l as [|y l]; [inversion Hp; subst; by left|].
  right. by apply IH.
Qed.

Lemma spath_loop E (a : V) l : spath E a l a → l = [].
Proof.
  intros Hp. destruct l as [|x l]; [done|].
  pose proof (spath_end _ _ _ _ Hp) as Hin.
  inversion Hp as [|? ? ? ? _ Hnin _]; subst. by destruct Hnin; apply Hin.
Qed.

Lemma linked_cons_inv es (u v x y : V) :
  linked ((u, v) :: es) x y →
  (x = u ∧ y = v) ∨ (x = v ∧ y = u) ∨ linked es x y.
Proof.
  unfold linked. rewrite !elem_of_cons.
  intros [[[= -> ->]|H]|[[= -> ->]|H]]; auto.
Qed.

Section Leaf.
Context vs es (u v : V).
Context (Htree : growsTree vs es) (Hu : u ∈ vs) (Hv : v ∉ vs).

Lemma leaf_link x : linked ((u, v) :: es) v x → x = u.
Proof.
  intros [[? ?]|[[_ ?]|Hl]]%linked_cons_inv; [congruence|done|].
  by destruct (linked_endpoints _ _ _ _ Htree Hl).
Qed.

Lemma leaf_link_back x : linked ((u, v) :: es) x v → x = u.
Proof.
  intros [[? ?]|[[? ?]|Hl]]%linked_cons_inv; [done|congruence|].
  by destruct (linked_endpoints _ _ _ _ Htree Hl).
Qed.

Lemma old_link x y :
  linked ((u, v) :: es) x y → x ≠ v → y ≠ v → linked es x y.
Proof. intros [[? ?]|[[? ?]|Hl]]%linked_cons_inv; done. Qed.

(** A simple path between two old nodes does not visit the new leaf. *)
Lemma spath_old a l b :
  spath (linked ((u, v) :: es)) a l b → a ≠ v → b ≠ v →
  spath (linked es) a l b.
Proof.
  induction 1 as [a|a x l b Hax Hnin Hp IH]; intros Ha Hb; [constructor|].
  destruct (decide (x = v)) as [->|Hx].
  - exfalso. inversion Hp as [|? y l' ? Hvy _ _]; subst; [done|].
    apply leaf_link in Hvy as ->. apply leaf_link_back in Hax as ->.
    apply Hnin. right. by left.
  - constructor; [by apply old_link|done|by apply IH].
Qed.

(** A simple path from an old node to the new leaf arrives through the
    node the leaf hangs on. *)
Lemma spath_to_leaf a l b :
  spath (linked ((u, v) :: es)) a l b → b = v → a ≠ v →
  ∃ l0, l = l0 ++ [v] ∧ spath (linked es) a l0 u.
Proof.
  induction 1 as [a|a x l b Hax Hnin Hp IH]; intros Hb Ha; [congruence|].
  subst b. destruct (decide (x = v)) as [->|Hx].
  - apply spath_loop in Hp as ->. apply leaf_link_back in Hax as ->.
    exists []. split; [done|constructor].
  - destruct (IH eq_refl Hx) as (l0 & -> & Hp0). exists (x :: l0).
    split; [done|]. constructor; [by apply old_link| |done].
    intros Hin. apply Hnin. rewrite app_comm_cons. apply elem_of_app. by left.
Qed.

End Leaf.

(** In a tree a simple path is determined by its two ends. *)
Lemma tree_unique_path vs es :
  growsTree vs es →
  ∀ a b l1 l2,
    spath (linked es) a l1 b → spath (linked es) a l2 b → l1 = l2.
Proof.
  induction 1 as [r|vs es u v Htree IH Hu Hv]; intros a b l1 l2 H1 H2.
  - assert (∀ l, spath (linked (V:=V) []) a l b → l = []) as Hnil.
    { intros l Hp. destruct Hp as [|? ? ? ? [Hl|Hl] _ _]; [done|..];
        by apply elem_of_nil in Hl. }
    by rewrite (Hnil l1), (Hnil l2).
  - destruct (decide (a = v)) as [->|Ha], (decide (b = v)) as [->|Hb].
    + by rewrite (spath_loop _ _ _ H1), (spath_loop _ _ _ H2).
    + inversion H1 as [|? x1 l1' ? Hl1 _ Hp1]; subst; [done|].
      inversion H2 as [|? x2 l2' ? Hl2 _ Hp2]; subst; [done|].
      apply (leaf_link vs es u v Htree) in Hl1 as ->; [|done].
      apply (leaf_link vs es u v Htree) in Hl2 as ->; [|done].
      assert (u ≠ v) as Huv by congruence.
      f_equal. apply (IH u b); by eapply spath_old.
    + destruct (spath_to_leaf vs es u v Htree Hv _ _ _ H1 eq_refl Ha)
        as (l0 & -> & Hp1).
      destruct (spath_to_leaf vs es u v Htree Hv _ _ _ H2 eq_refl Ha)
        as (l0' & -> & Hp2).
      f_equal. by apply (IH a u).
    + apply (IH a b); by eapply spath_old.
Qed.

End TreePaths.

(** ** The open cells of a maze form a tree *)

Lemma linked_sym {V} (es : list (V * V)) a b : linked es a b → linked es b a.
Proof. unfold linked. tauto. Qed.

Lemma room_parity p : isRoom p = true → ∃ k, vx p + vy p = 2 * k.
Proof.
  intros (i & j & -> & -> & _)%isRoom_coords. exists (i + j + 1). lia.
Qed.

Lemma midpoint_parity a b :
  latticeAdj a b → ∃ k, vx (midpoint a b) + vy (midpoint a b) = 2 * k + 1.
Proof.
  intros Hab. destruct (midpoint_spec _ _ Hab) as (_ & _ & _ & _ & Hx & Hy).
  apply latticeAdj_spec in Hab as (Ha & Hb & H).
  apply isRoom_coords in Ha as (i & j & Hax & Hay & _).
  destruct H as [[[H1|H1] H2]|[H1 [H2|H2]]].
  - exists (i + j + 1). lia.
  - exists (i + j). lia.
  - exists (i + j + 1). lia.
  - exists (i + j). lia.
Qed.

Lemma adjacent_parity p q k k' :
  adjacent p q → vx p + vy p = 2 * k + 1 → vx q + vy q = 2 * k' + 1 → False.
Proof. intros H%adjacent_cases. lia. Qed.

Lemma adjacent_parity_even p q k k' :
  adjacent p q → vx p + vy p = 2 * k → vx q + vy q = 2 * k' → False.
Proof. intros H%adjacent_cases. lia. Qed.

(** The rooms next to the cell between two neighbouring rooms are those
    two rooms. *)
Lemma midpoint_neighbour a b p :
  latticeAdj a b → isRoom p = true → adjacent p (midpoint a b) →
  p = a ∨ p = b.
Proof.
  intros Hab Hp Hadj.
  destruct (midpoint_spec _ _ Hab) as (_ & _ & _ & _ & Hx & Hy).
  apply adjacent_cases in Hadj.
  apply latticeAdj_spec in Hab as (Ha & Hb & H).
  apply isRoom_coords in Ha as (i & j & Hax & Hay & _).
  apply isRoom_coords in Hp as (i' & j' & Hpx & Hpy & _).
  destruct p as [px py], a as [ax ay], b as [bx byy].
  set (mid := midpoint _ _) in *. clearbody mid. cbn [vx vy] in *.
  assert ((px = ax ∧ py = ay) ∨ (px = bx ∧ py = byy)) as [[-> ->]|[-> ->]];
    [lia|by left|by right].
Qed.

Section CellTree.
Context (g : Grid) (vs : list Vector2i) (es : list (Vector2i * Vector2i)).
Context (Inv : genInv g [] vs es).

Lemma open_cell_kind p :
  walkable g p = true →
  isRoom p = true ∨ ∃ a b, (a, b) ∈ es ∧ p = midpoint a b.
Proof.
  intros [_ Hw]%walkable_spec.
  destruct (gen_open _ _ _ _ Inv p Hw) as [_ [[Hr _]|(a & b & [Hl|Hl] & ->)]].
  - by left.
  - right. by exists a, b.
  - right. exists b, a. split; [done|apply midpoint_sym].
Qed.

(** The tree of the rooms, with the cell of each connection put between
    the two rooms it connects. *)
Lemma expand_tree vs' es' :
  growsTree vs' es' →
  (∀ v, v ∈ vs' → isRoom v = true) →
  (∀ a b, (a, b) ∈ es' → latticeAdj a b) →
  ∃ cvs ces,
    growsTree cvs ces ∧
    (∀ p, p ∈ cvs → p ∈ vs' ∨ ∃ a b, (a, b) ∈ es' ∧ p = midpoint a b) ∧
    (∀ p, p ∈ vs' → p ∈ cvs) ∧
    (∀ a b, (a, b) ∈ es' →
       linked ces a (midpoint a b) ∧ linked ces (midpoint a b) b).
Proof.
  induction 1 as [r|vs' es' u v Htree IH Hu Hv]; intros Hrooms Hadj.
  - exists [r], []. split; [constructor|]. split; [by left|].
    split; [done|]. by intros a b ?%elem_of_nil.
  - destruct IH as (cvs & ces & Hct & Hchar & Hsub & Hlinks).
    { intros w Hw. apply Hrooms. by right. }
    { intros a b Hab. apply Hadj. by right. }
    pose proof (Hadj u v (list_elem_of_here _ _)) as Huv.
    destruct (midpoint_spec _ _ Huv) as (_ & _ & _ & Hmid & _).
    pose proof (Hrooms v (list_elem_of_here _ _)) as Hvroom.
    set (mid := midpoint u v) in *.
    assert (mid ∉ cvs) as Hfresh.
    { intros [Hin|(a & b & Hab & Heq)]%Hchar.
      - rewrite Hrooms in Hmid; [done|by right].
      - destruct (growsTree_endpoints _ _ _ _ Htree Hab) as [Ha Hb].
        destruct (midpoint_inj u v a b) as [[-> ->]|[-> ->]]; try done.
        apply Hadj. by right. }
    assert (v ∉ mid :: cvs) as Hfresh'.
    { intros [Heq|[Hin|(a & b & Hab & Heq)]%Hchar]%elem_of_cons.
      - congruence.
      - done.
      - assert (latticeAdj a b) as Hab' by (apply Hadj; by right).
        destruct (midpoint_spec _ _ Hab') as (_ & _ & _ & Hn & _). congruence. }
    exists (v :: mid :: cvs), ((mid, v) :: (u, mid) :: ces).
    split; [|split; [|split]].
    + constructor; [|by left|done]. constructor; [done|by apply Hsub|done].
    + intros p [->|[->|Hin]%elem_of_cons]%elem_of_cons.
      * left. by left.
      * right. exists u, v. split; [by left|done].
      * destruct (Hchar p Hin) as [?|(a & b & Hab & ->)]; [left; by right|].
        right. exists a, b. split; [by right|done].
    + intros p [->|Hin]%elem_of_cons; [by left|]. do 2 right. by apply Hsub.
    + intros a b [[= -> ->]|Hab]%elem_of_cons.
      * fold mid. split; [left; right; by left|left; by left].
      * destruct (Hlinks a b Hab) as [[H1|H1] [H2|H2]];
          (split; [(left; do 2 right; exact H1) || (right; do 2 right; exact H1)
                  |(left; do 2 right; exact H2) || (right; do 2 right; exact H2)]).
Qed.

Lemma genInv_uniquePaths : uniquePaths g.
Proof.
  destruct (expand_tree vs es) as (cvs & ces & Htree & _ & _ & Hlinks).
  { apply Inv. }
  { intros v Hv. by apply (gen_rooms _ _ _ _ Inv). }
  { intros a b Hab. by apply (gen_edges _ _ _ _ Inv). }
  assert (∀ a b, (a, b) ∈ es → latticeAdj a b) as Hadj.
  { intros a b Hab. by apply (gen_edges _ _ _ _ Inv). }
  assert (∀ p q, isRoom p = true → (∃ a b, (a, b) ∈ es ∧ q = midpoint a b) →
            adjacent p q → linked ces p q) as Hrm.
  { intros p q Hp (a & b & Hab & ->) Hpq.
    destruct (Hlinks a b Hab) as [H1 H2].
    destruct (midpoint_neighbour a b p (Hadj _ _ Hab) Hp Hpq) as [->| ->];
      [done|by apply linked_sym]. }
  assert (∀ p q, walkable g p = true → walkable g q = true → adjacent p q →
            linked ces p q) as Hcells.
  { intros p q Hp Hq Hpq.
    destruct (open_cell_kind p Hp) as [Hrp|Hmp],
             (open_cell_kind q Hq) as [Hrq|Hmq].
    - destruct (room_parity _ Hrp) as [k Hk], (room_parity _ Hrq) as [k' Hk'].
      by destruct (adjacent_parity_even p q k k').
    - by apply Hrm.
    - apply linked_sym, Hrm; [done..|by apply adjacent_sym].
    - destruct Hmp as (a & b & Hab & ->), Hmq as (a' & b' & Hab' & ->).
      destruct (midpoint_parity _ _ (Hadj _ _ Hab)) as [k Hk].
      destruct (midpoint_parity _ _ (Hadj _ _ Hab')) as [k' Hk'].
      by destruct (adjacent_parity _ _ k k' Hpq). }
  assert (∀ l a b, walkable g a = true → simpleTrail g a l b →
            spath (linked ces) a l b) as Hconv.
  { induction l as [|x l IH]; intros a b Ha (Hs & Hnd & Hlast).
    - injection Hlast as <-. constructor.
    - destruct Hs as (Hax & Hx & Hs). apply NoDup_cons in Hnd as [Hnin Hnd].
      constructor; [by apply Hcells|done|]. apply IH; [done|].
      split; [done|]. split; [done|]. by rewrite last_cons_cons in Hlast. }
  intros a b l1 l2 Ha H1 H2.
  apply (tree_unique_path _ _ Htree a b); by apply Hconv.
Qed.

End CellTree.

Section UniqueSolution.
Context {R : RandomEngine} (laws : RandomEngineLaws R).

Lemma reachableState_uniquePaths (m : Maze R) :
  reachableState m → uniquePaths (cells m).
Proof.
  intros Hm.
  pose (Φ := λ f : Vector2i → bool,
          ∀ g', (∀ p, walkable g' p = f p) → uniquePaths g').
  assert (Φ (walkable (cells m))) as HΦ; [|by apply HΦ].
  apply (reachableState_open laws Φ); [| |done]; unfold Φ.
  - intros f f' Hext Hf g' Hg'. apply Hf. intros p. by rewrite Hg'.
  - intros g vs es Inv g' Hg' a b l1 l2 Ha (Hs1 & Hn1 & Hl1) (Hs2 & Hn2 & Hl2).
    apply (genInv_uniquePaths g vs es Inv a b).
    + by rewrite <- Hg'.
    + split; [|done]. eapply stepsFrom_ext; [|exact Hs1]. intros p. by rewrite Hg'.
    + split; [|done]. eapply stepsFrom_ext; [|exact Hs2]. intros p. by rewrite Hg'.
Qed.

Lemma findPathBFS_geodesic (m m' : Maze R) :
  gridOK (cells m) → validPos (playerPos m) →
  findPathBFS m = Some m' → pathFound m' = true →
  geodesic (cells m) (playerPos m) (path m') (targetPos m).
Proof.
  intros Hg Hp Hrun Hfound.
  destruct (findPathBFS_correct m Hg Hp) as (m1 & Hrun' & _ & _ & _ & Hres).
  rewrite Hrun in Hrun'. injection Hrun' as <-. rewrite Hfound in Hres.
  apply Hres.
Qed.

End UniqueSolution.

(** X18: the maze has one solution.  In every state of a session, a path
    from the player to the target through open cells that visits no cell
    twice is the path that [findPathBFS] stores: there is no other way,
    longer or not. *)
Theorem solution_unique {R : RandomEngine} (laws : RandomEngineLaws R)
    (m m' : Maze R) (l : list Vector2i) :
  reachableState m → findPathBFS m = Some m' →
  trail (cells m) (playerPos m) l (targetPos m) →
  NoDup (playerPos m :: l) →
  l = path m'.
Proof.
  intros Hm Hrun Htr Hnd. pose proof (reachableState_WF laws m Hm) as Hwf.
  destruct (findPathBFS_correct m) as (m1 & Hrun' & _ & _ & _ & Hres);
    [apply Hwf..|].
  rewrite Hrun in Hrun'. injection Hrun' as <-.
  destruct (pathFound m').
  - destruct Hres as [Hgeo _]. pose proof Hgeo as [Htr' _].
    apply (reachableState_uniquePaths laws m Hm (playerPos m) (targetPos m)).
    + by apply WF_player_open.
    + split; [by eapply trail_stepsFrom|]. split; [done|by eapply trail_last].
    + split; [by eapply trail_stepsFrom|].
      split; [by eapply geodesic_NoDup|by eapply trail_last].
  - destruct Hres as [_ Hno]. destruct Hno. exists (length l).
    by apply trail_walk.
Qed.

Lemma solution_unique_witness : exampleSolution = path exampleSearched.
Proof.
  assert (exampleSolution = path exampleSearched) as Heq
    by (vm_compute; reflexivity).
  assert (geodesic (cells exampleStart) (playerPos exampleStart)
            (path exampleSearched) (targetPos exampleStart)) as Hgeo.
  { apply findPathBFS_geodesic.
    - exact exampleStart_gridOK.
    - by vm_compute.
    - exact exampleSearched_found.
    - by vm_compute. }
  apply (solution_unique LcgEngine_laws exampleStart exampleSearched).
  - exact exampleStart_reachable.
  - exact exampleSearched_found.
  - rewrite Heq. apply Hgeo.
  - rewrite Heq. by eapply geodesic_NoDup.
Defined.

(** ** The neighbours offered to the generator *)

Lemma collectNeighbors_run g x y dirs acc :
  gridOK g →
  forEach (pushIfUnvisited g x y) dirs acc
  = Some (acc ++ filter (λ p, isInterior p = true ∧ visitedAt g p = false)
                        (offset (V2 x y) <$> dirs)).
Proof.
  intros Hg. revert acc.
  induction dirs as [|d dirs IH]; intros acc; [by rewrite app_nil_r|].
  assert (pushIfUnvisited g x y d acc
          = Some (if decide (isInterior (offset (V2 x y) d) = true ∧
                             visitedAt g (offset (V2 x y) d) = false)
                  then acc ++ [offset (V2 x y) d] else acc)) as Hstep.
  { unfold pushIfUnvisited, isInterior, offset. cbn [vx vy].
    destruct ((1 <=? x + vx d) && (x + vx d <? MAZE_WIDTH - 1) &&
              (1 <=? y + vy d) && (y + vy d <? MAZE_HEIGHT - 1)) eqn:Hin.
    - destruct (cellAt_valid g (x + vx d) (y + vy d) Hg) as [c Hc].
      { apply isValidPosition_spec. unfold MAZE_WIDTH, MAZE_HEIGHT in *. lia. }
      rewrite Hc. cbn [mbind option_bind].
      destruct (cellAt_views g (V2 (x + vx d) (y + vy d)) c Hc) as [_ ->].
      destruct (visited c); cbn [negb]; case_decide; try done;
        by destruct H.
    - case_decide as H; [by destruct H|done]. }
  rewrite forEach_cons, Hstep. cbn [mbind option_bind]. rewrite IH.
  rewrite fmap_cons. case_decide.
  - rewrite filter_cons_True by done. by rewrite <- app_assoc.
  - by rewrite filter_cons_False by done.
Qed.

(** X19: [getUnvisitedNeighbors] is safe at every cell, on the grid or off
    it: the range test comes before the read, so no cell outside the grid
    is read.  What it shuffles are the cells two steps away in the order
    +x, -x, +y, -y that lie inside the outer ring and are not visited. *)
Theorem getUnvisitedNeighbors_safe {R : RandomEngine} (g : Grid) (x y : Z)
    (r : Rng) :
  gridOK g → INT_MIN + 2 ≤ x ≤ INT_MAX - 2 → INT_MIN + 2 ≤ y ≤ INT_MAX - 2 →
  getUnvisitedNeighbors g x y r
  = Some (shuffle (filter (λ p, isInterior p = true ∧ visitedAt g p = false)
                          (offset (V2 x y) <$> neighborDirs)) r).
Proof.
  intros Hg _ _. unfold getUnvisitedNeighbors.
  by rewrite (collectNeighbors_run g x y neighborDirs [] Hg).
Qed.

Lemma getUnvisitedNeighbors_safe_witness :
  getUnvisitedNeighbors (cells exampleStart) (-1) 40 (lcgSeed 7)
  = Some (@shuffle LcgEngine
            (filter (λ p, isInterior p = true ∧
                          visitedAt (cells exampleStart) p = false)
                    (offset (V2 (-1) 40) <$> neighborDirs)) (lcgSeed 7)).
Proof.
  apply (@getUnvisitedNeighbors_safe LcgEngine).
  - exact exampleStart_gridOK.
  - by vm_compute.
  - by vm_compute.
Defined.

(** ** A move and its way back *)

Section RoundTrip.
Context {R : RandomEngine}.

Lemma movePlayer_run dx dy (m : Maze R) :
  WF m → is_int dx → is_int dy →
  let dest := V2 (vx (playerPos m) + dx) (vy (playerPos m) + dy) in
  if walkable (cells m) dest then
    ∃ g, movePlayer dx dy m = Some (true, withCells g (withPlayerPos dest m)) ∧
         ∀ p, typeAt g p = if decide (p = dest) then PLAYER
                           else if decide (p = playerPos m) then PATH
                           else typeAt (cells m) p
  else movePlayer dx dy m = Some (false, m).
Proof.
  intros Hwf Hdx Hdy dest. pose proof Hwf as [Hg Hp Hpc Hpu Ht Htu _ _ _].
  destruct (movePlayer_target_valid m dx dy Hp Hdx Hdy) as [Hv Hsum].
  subst dest. unfold movePlayer, walkable. rewrite Hv. cbn [vx vy].
  destruct (isValidPosition (vx (playerPos m) + dx) (vy (playerPos m) + dy))
    eqn:Hvalid; cbn [andb]; [|done].
  destruct Hsum as [-> ->]; [by rewrite Hv|].
  destruct (cellAt_valid _ _ _ Hg Hvalid) as [c Hc]. rewrite Hc.
  cbn [mbind option_bind].
  destruct (cellAt_views _ (V2 _ _) c Hc) as [-> _].
  destruct (CellType_eqb (type c) WALL); cbn [negb]; [done|].
  destruct (setType_defined PATH _ _ _ Hg Hp) as [g1 H1]. rewrite H1.
  cbn [mbind option_bind].
  destruct (setType_defined PLAYER g1 (vx (playerPos m) + dx)
              (vy (playerPos m) + dy)) as [g2 H2];
    [by eapply setType_gridOK|done|].
  rewrite H2. cbn [mbind option_bind]. exists g2. split; [done|].
  by destruct (relocate_cells _ _ _ _ (V2 _ _) _ Hg Hpc Hpu Htu H1 H2)
    as (_ & _ & _ & _ & ?).
Qed.

(** X20: a successful move can be taken back.  After [movePlayer dx dy] has
    succeeded, [movePlayer (-dx) (-dy)] succeeds too and puts the player
    where it was; the grid is as before the two moves, except that the cell
    stepped on and left again is now [PATH], whatever it was: a [TARGET]
    mark stepped on is gone. *)
Theorem movePlayer_round_trip dx dy (m m1 : Maze R) :
  WF m → is_int dx → is_int dy →
  movePlayer dx dy m = Some (true, m1) →
  ∃ m2, movePlayer (- dx) (- dy) m1 = Some (true, m2) ∧
        m2 = withCells (cells m2) m ∧
        ∀ p, typeAt (cells m2) p =
             if decide (p = playerPos m1 ∧ p ≠ playerPos m) then PATH
             else typeAt (cells m) p.
Proof.
  intros Hwf Hdx Hdy Hrun.
  pose proof (movePlayer_WF _ _ _ _ _ Hwf Hrun) as Hwf1.
  pose proof (movePlayer_run dx dy m Hwf Hdx Hdy) as Hfirst. cbn zeta in Hfirst.
  destruct (walkable (cells m) _) eqn:Hopen; [|congruence].
  destruct Hfirst as (g1 & Hrun1 & Hty1). rewrite Hrun in Hrun1.
  injection Hrun1 as ->.
  apply walkable_spec in Hopen as [Hvalid _].
  apply isValidPosition_spec in Hvalid. cbn [vx vy] in Hvalid.
  pose proof (wf_player _ Hwf) as Hp. apply isValidPosition_spec in Hp.
  unfold MAZE_WIDTH, MAZE_HEIGHT in *.
  assert (is_int (- dx) ∧ is_int (- dy)) as [Hdx' Hdy']
    by (unfold is_int, INT_MIN, INT_MAX in *; lia).
  pose proof (movePlayer_run (- dx) (- dy) _ Hwf1 Hdx' Hdy') as Hback.
  cbn zeta in Hback. fields. cbn [vx vy] in Hback.
  replace (V2 (vx (playerPos m) + dx + - dx) (vy (playerPos m) + dy + - dy))
    with (playerPos m) in Hback by (destruct (playerPos m); cbn; f_equal; lia).
  assert (walkable g1 (playerPos m) = true) as Hold.
  { apply walkable_spec. split; [apply Hwf|]. rewrite Hty1.
    repeat case_decide; done || by rewrite (wf_player_cell _ Hwf). }
  rewrite Hold in Hback. destruct Hback as (g2 & Hrun2 & Hty2).
  eexists. split; [exact Hrun2|]. fields. split.
  { destruct m. cbn. done. }
  intros p. rewrite Hty2, Hty1.
  repeat case_decide; try done; try (by destruct_and?; simplify_eq).
  - subst. by rewrite (wf_player_cell _ Hwf).
  - exfalso. tauto.
Qed.

End RoundTrip.

Lemma movePlayer_round_trip_witness :
  ∃ m2, movePlayer (- 0) (- 1) exampleMoved = Some (true, m2) ∧
        m2 = withCells (cells m2) exampleSolving ∧
        ∀ p, typeAt (cells m2) p =
             if decide (p = playerPos exampleMoved ∧ p ≠ playerPos exampleSolving)
             then PATH else typeAt (cells exampleSolving) p.
Proof.
  apply (movePlayer_round_trip 0 1 exampleSolving exampleMoved).
  - exact (reachableState_WF LcgEngine_laws _ exampleSolving_reachable).
  - by vm_compute.
  - by vm_compute.
  - exact exampleMoved_moved.
Defined.

(** ** The search returns the first of the shortest paths *)

Lemma lexLt_trans s t u : lexLt s t → lexLt t u → lexLt s u.
Proof.
  revert t u. induction s as [|a s IH]; intros [|b t] [|c u]; try done.
  cbn [lexLt]. intros [?|[-> ?]] [?|[-> ?]]; [left; lia..|right].
  split; [done|]. by eapply IH.
Qed.

Lemma lexLt_app s t x y : lexLt s t → lexLt (s ++ x) (t ++ y).
Proof.
  revert t. induction s as [|a s IH]; intros [|b t]; try done.
  cbn [lexLt app]. intros [?|[-> ?]]; [by left|right]. split; [done|by apply IH].
Qed.

Lemma lexLt_snoc s a b : (a < b)%nat → lexLt (s ++ [a]) (s ++ [b]).
Proof.
  intros Hab. induction s as [|c s IH]; cbn [lexLt app]; [by left|by right].
Qed.

Lemma ranks_snoc p l v :
  ranks p (l ++ [v]) = ranks p l ++ [stepRank (default p (last l)) v].
Proof.
  revert p. induction l as [|q l IH]; intros p; [done|].
  rewrite <- app_comm_cons. cbn [ranks]. rewrite IH, last_cons.
  by destruct (last l).
Qed.

Lemma trail_ranks_snoc g src l c v :
  trail g src l c → ranks src (l ++ [v]) = ranks src l ++ [stepRank c v].
Proof.
  intros Htr%trail_last. rewrite ranks_snoc. do 3 f_equal.
  destruct l as [|q l]; cbn in Htr; [by injection Htr|]. by rewrite Htr.
Qed.

Lemma stepRank_offset p k d :
  directions !! k = Some d → stepRank p (offset p d) = k.
Proof.
  unfold stepRank, directions, offset.
  destruct k as [|[|[|[|k]]]]; intros [= <-]; cbn [rankIn vx vy];
    repeat case_decide; try done; unfold offset in *; cbn [vx vy] in *;
    simplify_eq; lia.
Qed.

Lemma bfsOrd_next g0 src A B cur k g pm tp :
  bfsOrd g0 src A B (Some cur) k g pm tp →
  bfsOrd g0 src A B (Some cur) (S k) g pm tp.
Proof.
  intros [H1 H2 H3 H4 H5 H6 H7 H8 H9]. split; try done.
  intros b Hb. destruct (H9 b Hb) as (par & Hv & Htp & HA & Hc).
  exists par. do 3 (split; [done|]). intros c Hcur.
  destruct (Hc c Hcur) as [[-> ?]|?]; [left; split; [done|lia]|by right].
Qed.

Lemma bfsOrd_close g0 src A B cur k g pm tp :
  bfsOrd g0 src A B cur k g pm tp → bfsOrd g0 src A B None 0 g pm tp.
Proof.
  intros [H1 H2 H3 H4 H5 H6 H7 H8 H9]. split; try done.
  intros b Hb. destruct (H9 b Hb) as (par & Hv & Htp & HA & Hc).
  exists par. by do 3 (split; [done|]).
Qed.

Lemma bfsOrd_relevel g0 src B k g pm tp :
  bfsOrd g0 src [] B None k g pm tp → bfsOrd g0 src B [] None 0 g pm tp.
Proof.
  intros [H1 H2 H3 H4 H5 H6 H7 H8 H9]. split; try done.
  intros b Hb. by apply elem_of_nil in Hb.
Qed.

Lemma bfsOrd_dequeue g0 src cur A B k g pm tp :
  bfsOrd g0 src (cur :: A) B None k g pm tp →
  bfsOrd g0 src A B (Some cur) 0 g pm tp.
Proof.
  intros [H1 H2 H3 H4 H5 H6 H7 H8 H9]. split; try done.
  - intros i j a b Hij Ha Hb. by apply (H6 (S i) (S j)); [lia|..].
  - intros c a [= <-] [j Hj]%list_elem_of_lookup_1.
    by apply (H6 0%nat (S j)); [lia|..].
  - intros b Hb. destruct (H9 b Hb) as (par & Hv & Htp & HA & _).
    exists par. do 2 (split; [done|]). split.
    + intros a Ha. apply HA. by right.
    + intros c [= <-]. right. apply HA. by left.
Qed.

(** One direction of the expansion, with the order of discovery. *)
Lemma bfsVisit_ord g0 src tgt d A B cur g pm tp k dir :
  bfsInv g0 src tgt d A B (Some cur) g pm →
  bfsOrd g0 src A B (Some cur) k g pm tp →
  directions !! k = Some dir →
  ∃ g' B' pm' tp',
    bfsVisit cur dir (g, A ++ B, pm) = Some (g', A ++ B', pm') ∧
    bfsInv g0 src tgt d A B' (Some cur) g' pm' ∧
    bfsOrd g0 src A B' (Some cur) (S k) g' pm' tp'.
Proof.
  intros Inv Ord Hk.
  assert (dir ∈ directions) as Hdir by by eapply list_elem_of_lookup_2.
  destruct (bfsVisit_inv _ _ _ _ _ _ _ _ _ dir Inv Hdir)
    as (g1 & B1 & pm1 & Hstep & Inv1 & Hmono & _ & _).
  exists g1, B1, pm1.
  pose proof Inv as [Hg Hty Hsrc Hvis HA HB Hcur Hcl Hnear].
  destruct (Hcur cur eq_refl) as (Hcv & Hcd & Hct).
  assert (∀ tp', bfsOrd g0 src A B1 (Some cur) (S k) g1 pm1 tp' →
            ∃ tp', Some (g1, A ++ B1, pm1) = Some (g1, A ++ B1, pm1) ∧
                   bfsInv g0 src tgt d A B1 (Some cur) g1 pm1 ∧
                   bfsOrd g0 src A B1 (Some cur) (S k) g1 pm1 tp') as Hpack
    by (intros tp' H; by exists tp').
  rewrite Hstep. unfold bfsVisit in Hstep. set (q := offset cur dir) in *.
  change (vx cur + vx dir) with (vx q) in Hstep.
  change (vy cur + vy dir) with (vy q) in Hstep.
  assert (Some (g, A ++ B, pm) = Some (g1, A ++ B1, pm1) →
          bfsOrd g0 src A B1 (Some cur) (S k) g1 pm1 tp) as Hsame.
  { intros [= <- HB1%app_inv_head <-]. subst B1. by apply bfsOrd_next. }
  destruct (isValidPosition (vx q) (vy q)) eqn:Hvalid;
    [|by apply (Hpack tp), Hsame].
  destruct (cellAt_valid _ _ _ Hg Hvalid) as [c Hc]. rewrite Hc in Hstep.
  cbn [mbind option_bind] in Hstep.
  destruct (cellAt_views _ _ _ Hc) as [Htc Hvc].
  destruct (visited c) eqn:Hvisc; cbn [negb andb] in Hstep;
    [by apply (Hpack tp), Hsame|].
  destruct (CellType_eqb (type c) WALL) eqn:Hwall; cbn [negb] in Hstep;
    [by apply (Hpack tp), Hsame|].
  clear Hsame. apply CellType_eqb_neq in Hwall.
  change (V2 (vx q) (vy q)) with q in Hstep.
  destruct (setVisited true g (vx q) (vy q)) as [g'|] eqn:Hg'; [|done].
  cbn [mbind option_bind] in Hstep.
  injection Hstep as <- HB1 <-.
  rewrite <- app_assoc in HB1. apply app_inv_head in HB1. subst B1.
  pose proof (setVisited_visitedAt_pos _ _ _ _ Hg') as Hv'.
  assert (walkable g0 q = true) as Hwq.
  { apply walkable_spec. split; [done|]. by rewrite <- Hty, Htc. }
  assert (adjacent cur q) as Hadjq by by apply adjacent_offset.
  destruct (inv_B _ _ _ _ _ _ _ _ _ Inv1 q) as [_ Hqd];
    [apply elem_of_app; right; by left|].
  pose proof Ord as [O1 O2 O3 O4 O5 O6 O7 O8 O9].
  assert (length (tp cur) = d) as Hlc
    by (eapply distance_unique; [by apply O4|done]).
  set (tp' := λ p, if decide (p = q) then tp cur ++ [q] else tp p).
  assert (∀ x, visitedAt g x = true → tp' x = tp x) as Hkeep.
  { intros x Hx. unfold tp'. case_decide as Hxq; [|done]. subst x. congruence. }
  assert (tp' q = tp cur ++ [q]) as Hq' by (unfold tp'; by rewrite decide_True).
  assert (∀ x, visitedAt g' x = true → x = q ∨ visitedAt g x = true) as Hold.
  { intros x. rewrite Hv'. case_decide; [by left|by right]. }
  assert (stepRank cur q = k) as Hrk by exact (stepRank_offset cur k dir Hk).
  assert (ranks src (tp cur ++ [q]) = ranks src (tp cur) ++ [k]) as Hkq.
  { rewrite (trail_ranks_snoc g0 src _ cur) by by apply O3. by rewrite Hrk. }
  apply (Hpack tp'). split.
  - rewrite Hkeep; [done|apply Hsrc].
  - intros p Hp Hne. destruct (Hold p Hp) as [->|Hpg].
    + exists cur. rewrite lookup_insert_eq, Hq', (Hkeep cur Hcv).
      split; [done|]. split; [by apply Hmono|done].
    + destruct (O2 p Hpg Hne) as (par & Hlook & Hparv & Htp).
      exists par. rewrite (Hkeep p Hpg), (Hkeep par Hparv).
      split; [|split; [by apply Hmono|done]].
      rewrite lookup_insert_ne; [done|]. intros Hkey.
      apply (parentKey_inj q p) in Hkey; [congruence|done|].
      by eapply visitedAt_true_valid.
  - intros p Hp. destruct (Hold p Hp) as [->|Hpg].
    + rewrite Hq'. econstructor; [by apply O3|done..].
    + rewrite (Hkeep p Hpg). by apply O3.
  - intros p Hp. destruct (Hold p Hp) as [->|Hpg].
    + rewrite Hq', length_app, Hlc. cbn [length]. by rewrite Nat.add_1_r.
    + rewrite (Hkeep p Hpg). by apply O4.
  - intros p l Hp Htr Hlen. destruct (Hold p Hp) as [->|Hpg];
      [|rewrite (Hkeep p Hpg) in *; by apply O5].
    rewrite Hq' in *. rewrite length_app, Hlc in Hlen. cbn [length] in Hlen.
    inversion Htr as [Hl Hq|l0 u r Htr0 Hadj Hr Hl Hq].
    { subst l. cbn in Hlen. lia. }
    subst r. rewrite <- Hl in Hlen. rewrite length_app in Hlen.
    cbn [length] in Hlen. assert (length l0 = d) as Hl0 by lia. clear Hlen.
    pose proof (trail_walk _ _ _ _ Htr0) as Hw0. rewrite Hl0 in Hw0.
    assert (visitedAt g u = true) as Huv by (by eapply Hnear).
    assert (distance g0 src u d) as Hud.
    { split; [done|]. intros n Hn.
      destruct (decide (d ≤ n)%nat) as [|Hlt]; [done|]. exfalso.
      assert (visitedAt g q = true) as Hcontra; [|congruence].
      apply (Hnear q (S n)); [by econstructor|lia]. }
    assert (length (tp u) = d) as Hlu
      by (eapply distance_unique; [by apply O4|done]).
    assert (u = cur ∨ u ∈ A) as Hu.
    { destruct (decide (u = cur)) as [|Hnc]; [by left|right].
      destruct (decide (u ∈ A)) as [|HnA]; [done|exfalso].
      assert (u ∉ B) as HnB.
      { intros [_ HuB]%HB. pose proof (distance_unique _ _ _ _ _ Hud HuB). lia. }
      destruct (Hcl u Huv HnA HnB) as [Hclosed _]; [congruence|].
      assert (visitedAt g q = true) as Hcontra; [|congruence].
      apply (Hclosed q Hadj). rewrite <- Hwq. by apply walkable_ext. }
    rewrite Hkq, (trail_ranks_snoc g0 src l0 u q Htr0).
    destruct (O5 u l0 Huv Htr0) as [Heq|Hlt]; [congruence|..].
    + destruct Hu as [->|HuA]; [left; by rewrite Heq|right].
      apply lexLt_app. rewrite Heq. by apply (O8 cur u).
    + right. apply lexLt_app. destruct Hu as [->|HuA]; [done|].
      eapply lexLt_trans; [by apply (O8 cur u)|done].
  - intros i j a b Hij Ha Hb.
    rewrite (Hkeep a), (Hkeep b); [by apply (O6 i j)|..];
      eapply HA, list_elem_of_lookup_2; done.
  - intros i j a b Hij Ha Hb.
    assert (a ∈ B) as HaB.
    { apply lookup_lt_Some in Hb as Hj. rewrite length_app in Hj.
      cbn [length] in Hj. rewrite lookup_app_l in Ha by lia.
      by eapply list_elem_of_lookup_2. }
    destruct (HB a HaB) as [Hav _]. rewrite (Hkeep a Hav).
    destruct (decide (j < length B)%nat) as [Hj|Hj].
    + rewrite lookup_app_l in Ha, Hb by lia.
      assert (visitedAt g b = true) as Hbv
        by (eapply HB, list_elem_of_lookup_2; done).
      rewrite (Hkeep b Hbv). by apply (O7 i j).
    + rewrite lookup_app_r in Hb by lia.
      destruct (j - length B)%nat; [|by destruct n]. injection Hb as <-.
      rewrite Hq', Hkq.
      destruct (O9 a HaB) as (par & Hparv & Htpa & _ & Hpc).
      rewrite Htpa, (trail_ranks_snoc g0 src _ par) by by apply O3.
      destruct (Hpc cur eq_refl) as [[-> Hr]|Hlt];
        [by apply lexLt_snoc|by apply lexLt_app].
  - intros c' a [= <-] Ha. destruct (HA a Ha) as [Hav _].
    rewrite (Hkeep cur Hcv), (Hkeep a Hav). by apply (O8 cur a).
  - intros b [HbB| ->%list_elem_of_singleton]%elem_of_app.
    + destruct (O9 b HbB) as (par & Hparv & Htpb & HAp & Hpc).
      destruct (HB b HbB) as [Hbv _].
      exists par. rewrite (Hkeep b Hbv), (Hkeep par Hparv).
      split; [by apply Hmono|]. split; [done|]. split.
      * intros a Ha. destruct (HA a Ha) as [Hav _]. rewrite (Hkeep a Hav).
        by apply HAp.
      * intros c' [= <-]. rewrite (Hkeep cur Hcv).
        destruct (Hpc cur eq_refl) as [[-> ?]|?]; [left; split; [done|lia]|by right].
    + exists cur. rewrite Hq', (Hkeep cur Hcv).
      split; [by apply Hmono|]. split; [done|]. split.
      * intros a Ha. destruct (HA a Ha) as [Hav _]. rewrite (Hkeep a Hav).
        by apply (O8 cur a).
      * intros c' [= <-]. left. split; [done|]. rewrite Hrk. lia.
Qed.

Lemma bfsExpand_ord g0 src tgt d A cur dirs :
  ∀ k B g pm tp,
    (∀ i dir, dirs !! i = Some dir → directions !! (k + i)%nat = Some dir) →
    bfsInv g0 src tgt d A B (Some cur) g pm →
    bfsOrd g0 src A B (Some cur) k g pm tp →
    ∃ g' B' pm' tp',
      forEach (bfsVisit cur) dirs (g, A ++ B, pm) = Some (g', A ++ B', pm') ∧
      bfsOrd g0 src A B' (Some cur) (k + length dirs) g' pm' tp'.
Proof.
  induction dirs as [|dir dirs IH]; intros k B g pm tp Hdirs Inv Ord.
  - exists g, B, pm, tp. split; [done|]. by rewrite Nat.add_0_r.
  - destruct (bfsVisit_ord _ _ _ _ _ _ _ _ _ _ k dir Inv Ord)
      as (g1 & B1 & pm1 & tp1 & Hstep & Inv1 & Ord1).
    { specialize (Hdirs 0%nat dir eq_refl). by rewrite Nat.add_0_r in Hdirs. }
    destruct (IH (S k) B1 g1 pm1 tp1) as (g2 & B2 & pm2 & tp2 & Hrest & Ord2);
      [|done..|].
    { intros i dir' Hi. specialize (Hdirs (S i) dir' Hi).
      by rewrite Nat.add_succ_r in Hdirs. }
    exists g2, B2, pm2, tp2. rewrite forEach_cons, Hstep.
    cbn [mbind option_bind]. split; [done|].
    cbn [length]. by rewrite Nat.add_succ_r.
Qed.

(** Following the parents of a visited cell yields the path recorded for
    it. *)
Lemma reconstructLoop_tp g0 src A B cur k g pm tp :
  bfsOrd g0 src A B cur k g pm tp →
  ∀ n p acc fuel,
    visitedAt g p = true → length (tp p) = n → (n ≤ fuel)%nat →
    reconstructLoop fuel pm src p acc = Some (acc ++ reverse (tp p)).
Proof.
  intros Ord. induction n as [|n IH]; intros p acc fuel Hp Hlen Hfuel.
  - destruct (decide (p = src)) as [->|Hne].
    + rewrite (ord_src _ _ _ _ _ _ _ _ _ Ord).
      destruct fuel; cbn [reconstructLoop];
        by rewrite Vector2i_eqb_refl, app_nil_r.
    + destruct (ord_parent _ _ _ _ _ _ _ _ _ Ord p Hp Hne) as (par & _ & _ & Htp).
      rewrite Htp, length_app in Hlen. cbn [length] in Hlen. lia.
  - destruct (decide (p = src)) as [->|Hne].
    { by rewrite (ord_src _ _ _ _ _ _ _ _ _ Ord) in Hlen. }
    destruct (ord_parent _ _ _ _ _ _ _ _ _ Ord p Hp Hne)
      as (par & Hlook & Hparv & Htp).
    destruct fuel as [|fuel]; [lia|]. cbn [reconstructLoop].
    apply Vector2i_eqb_neq in Hne. rewrite Hne, Hlook. cbn [default id].
    unfold id.
    rewrite Htp, length_app in Hlen. cbn [length] in Hlen.
    rewrite (IH par (acc ++ [p]) fuel Hparv) by lia.
    by rewrite Htp, reverse_app, <- app_assoc.
Qed.

Section SearchOrder.
Context {R : RandomEngine}.

(** The loop of the search, with the order of discovery: when the target is
    found, the path stored is the least of the paths of its length. *)
Lemma bfsLoop_lex g0 fuel :
  ∀ (m : Maze R) queue pm tp k d A B,
    queue = A ++ B →
    bfsInv g0 (playerPos m) (targetPos m) d A B None (cells m) pm →
    bfsOrd g0 (playerPos m) A B None k (cells m) pm tp →
    (length queue + unvisitedCount (cells m) < fuel)%nat →
    path m = [] → pathFound m = false →
    ∃ m', bfsLoop fuel m queue pm = Some m' ∧
      (pathFound m' = true →
       ∀ l, trail g0 (playerPos m) l (targetPos m) →
            length l = length (path m') →
            l = path m' ∨
            lexLt (ranks (playerPos m) (path m')) (ranks (playerPos m) l)).
Proof.
  induction fuel as [|fuel IH];
    intros m queue pm tp k d A B Hq Inv Ord Hfuel Hpath Hfound; [lia|].
  destruct queue as [|cur rest].
  - exists m. split; [done|]. by rewrite Hfound.
  - assert (∃ d' A' B', rest = A' ++ B' ∧
        bfsInv g0 (playerPos m) (targetPos m) d' (cur :: A') B' None (cells m) pm ∧
        bfsOrd g0 (playerPos m) (cur :: A') B' None 0 (cells m) pm tp)
      as (d' & A' & B' & -> & Inv' & Ord').
    { destruct A as [|a A]; cbn [app] in Hq.
      - subst B. exists (S d), rest, []. rewrite app_nil_r. split; [done|].
        split; [by apply bfs_relevel|by eapply bfsOrd_relevel].
      - injection Hq as <- ->. exists d, A, B. split; [done|].
        split; [done|by eapply bfsOrd_close]. }
    clear Inv Ord Hq d A B k. rewrite bfsLoop_unfold.
    destruct (inv_A _ _ _ _ _ _ _ _ _ Inv' cur) as [Hcv Hcd]; [by left|].
    destruct (Vector2i_eqb cur (targetPos m)) eqn:Htgt.
    + apply Vector2i_eqb_eq in Htgt. subst cur.
      destruct (inv_visited _ _ _ _ _ _ _ _ _ Inv' _ Hcv) as (_ & n & Hn & Hlt & _).
      pose proof (ord_len _ _ _ _ _ _ _ _ _ Ord' _ Hcv) as Hlen.
      rewrite (distance_unique _ _ _ _ _ Hn Hlen) in Hlt.
      unfold reconstructPath. cbn [path playerPos targetPos withPathFound].
      rewrite Hpath.
      rewrite (reconstructLoop_tp _ _ _ _ _ _ _ _ _ Ord' _ (targetPos m) []
                 LOOP_FUEL Hcv eq_refl)
        by (pose proof CELL_COUNT_lt_LOOP_FUEL; lia).
      cbn [mbind option_bind]. eexists. split; [done|].
      cbn [path withPath]. rewrite app_nil_l, reverse_involutive.
      intros _ l Htr Hl. by apply (ord_min _ _ _ _ _ _ _ _ _ Ord').
    + apply Vector2i_eqb_neq in Htgt.
      pose proof (bfs_dequeue _ _ _ _ _ _ _ _ _ Htgt Inv') as InvC.
      pose proof (bfsOrd_dequeue _ _ _ _ _ _ _ _ _ Ord') as OrdC.
      destruct (bfsExpand_inv _ _ _ _ _ _ _ _ _ InvC)
        as (g' & B'' & pm' & Hrun & Inv'' & Hcount).
      destruct (bfsExpand_ord _ _ _ _ _ _ directions 0 _ _ _ _ (λ _ _ H, H)
                  InvC OrdC) as (g2 & B2 & pm2 & tp2 & Hrun2 & Ord2).
      rewrite Hrun in Hrun2. injection Hrun2 as <- HB2%app_inv_head <-.
      subst B2. rewrite Hrun. cbn [mbind option_bind].
      destruct (IH (withCells g' m) (A' ++ B'') pm' tp2 0%nat d' A' B'' eq_refl)
        as (m' & Hm' & Hres).
      * by destruct m.
      * destruct m. cbn in *. by eapply bfsOrd_close.
      * cbn [cells withCells]. cbn [length] in Hfuel.
        rewrite length_app in *. lia.
      * by destruct m.
      * by destruct m.
      * exists m'. split; [done|]. by destruct m.
Qed.

Lemma bfsOrd_initial (g0 g : Grid) src :
  gridOK g0 → validPos src →
  setVisited true (clearVisited g0) (vx src) (vy src) = Some g →
  bfsOrd g0 src [src] [] None 0 g ∅ (λ _, []).
Proof.
  intros Hg0 Hsrc Hset.
  pose proof (setVisited_visitedAt_pos _ _ _ _ Hset) as Hv.
  assert (∀ p, visitedAt g p = true → p = src) as Honly.
  { intros p. rewrite Hv. case_decide; [done|]. by rewrite clearVisited_visitedAt. }
  split; try done.
  - intros p ->%Honly Hne. done.
  - intros p ->%Honly. constructor.
  - intros p ->%Honly. apply distance_src.
  - intros p l _ _ Hl. left. by destruct l.
  - intros i j a b Hij Ha Hb. apply lookup_lt_Some in Hb. cbn in Hb. lia.
  - intros b Hb. by apply elem_of_nil in Hb.
Qed.

(** Among the paths from the player to the target that are as short as the
    one [findPathBFS] stores, the stored path is the least. *)
Lemma findPathBFS_lex (m m' : Maze R) :
  gridOK (cells m) → validPos (playerPos m) →
  findPathBFS m = Some m' → pathFound m' = true →
  ∀ l, trail (cells m) (playerPos m) l (targetPos m) →
       length l = length (path m') →
       l = path m' ∨
       lexLt (ranks (playerPos m) (path m')) (ranks (playerPos m) l).
Proof.
  intros Hg Hp Hrun Hfound. unfold findPathBFS, findPathBFSFuel in Hrun.
  destruct (setVisited_defined true (clearVisited (cells m)) _ _
              (clearVisited_gridOK _ Hg) Hp) as [g Hset].
  destruct (bfsLoop_initial_inv _ _ _ (targetPos m) Hg Hp Hset) as [Inv Hcount].
  pose proof (bfsOrd_initial _ _ _ Hg Hp Hset) as Ord.
  set (m1 := resetVisited m) in *.
  change (setVisited true (cells m1) (vx (playerPos m1)) (vy (playerPos m1))
          = Some g) in Hset.
  rewrite Hset in Hrun. cbn [mbind option_bind] in Hrun.
  destruct (bfsLoop_lex (cells m) LOOP_FUEL (withCells g m1) [playerPos m1] ∅
              (λ _, []) 0%nat 0%nat [playerPos m] [] eq_refl Inv Ord)
    as (m2 & Hrun2 & Hres); [|done|done|].
  { pose proof CELL_COUNT_lt_LOOP_FUEL. cbn [cells withCells length]. lia. }
  rewrite Hrun in Hrun2. injection Hrun2 as <-. by apply Hres.
Qed.

End SearchOrder.

Section SearchOrderClaim.
Context {R : RandomEngine}.

(** C10: [findPathBFS] is a function of the cell kinds, the player position
    and the target position alone: two sessions that agree on them (whatever
    their visited flags, stale paths, animation state and random engine) end
    with the same solution path, the same [pathFound] and the same grid.
    The directions are tried in the fixed order +x, -x, +y, -y, and that
    order decides which path is stored: the search returns, finds the target
    whenever it can be reached, and the path it stores is a shortest path
    and, read as the list of the ranks of its steps in that order, the
    least of the shortest paths. *)
Theorem findPathBFS_deterministic (m1 m2 : Maze R) :
  clearVisited (cells m1) = clearVisited (cells m2) →
  playerPos m1 = playerPos m2 → targetPos m1 = targetPos m2 →
  directions = [V2 1 0; V2 (-1) 0; V2 0 1; V2 0 (-1)] ∧
  searchOutcome <$> findPathBFS m1 = searchOutcome <$> findPathBFS m2 ∧
  (gridOK (cells m1) → validPos (playerPos m1) →
   ∃ r, findPathBFS m1 = Some r ∧
     (reachable (cells m1) (playerPos m1) (targetPos m1) → pathFound r = true) ∧
     (pathFound r = true →
      trail (cells m1) (playerPos m1) (path r) (targetPos m1) ∧
      ∀ l, trail (cells m1) (playerPos m1) l (targetPos m1) →
        (length (path r) ≤ length l)%nat ∧
        (length l = length (path r) →
         l = path r ∨
         lexLt (ranks (playerPos m1) (path r)) (ranks (playerPos m1) l)))).
Proof.
  intros Hc Hp Ht. split; [done|]. split; [by apply findPathBFSFuel_congr|].
  intros Hg Hv.
  destruct (findPathBFS_correct m1 Hg Hv) as (r & Hrun & _ & _ & _ & Hres).
  exists r. split; [done|]. split.
  - intros Hreach. destruct (pathFound r); [done|]. by destruct Hres as [_ Hno].
  - intros Hfound. pose proof (findPathBFS_lex m1 r Hg Hv Hrun Hfound) as Hlex.
    rewrite Hfound in Hres. destruct Hres as [Hgeo _].
    split; [apply Hgeo|]. intros l Htr. split; [|by apply Hlex].
    apply (geodesic_distance _ _ _ _ Hgeo). by apply trail_walk.
Qed.

End SearchOrderClaim.

Lemma exampleTie_found : findPathBFS exampleTie = Some exampleTieSearched.
Proof. apply default_Some. vm_compute. reflexivity. Qed.

Lemma exampleTie_gridOK : gridOK (cells exampleTie).
Proof. apply (bool_decide_unpack _). vm_compute. exact I. Qed.

(** On the grid with two shortest paths the search stores the one that
    starts towards +x; the other one, which starts towards +y, is greater. *)
Lemma findPathBFS_deterministic_witness :
  (path exampleTieSearched = [V2 2 1; V2 2 2] ∧
   trail (cells exampleTie) (V2 1 1) [V2 1 2; V2 2 2] (V2 2 2) ∧
   movePath exampleTie ≠ movePath exampleTieStale) ∧
  directions = [V2 1 0; V2 (-1) 0; V2 0 1; V2 0 (-1)] ∧
  searchOutcome <$> findPathBFS exampleTie
  = searchOutcome <$> findPathBFS exampleTieStale ∧
  ∃ r, findPathBFS exampleTie = Some r ∧
    (reachable (cells exampleTie) (playerPos exampleTie) (targetPos exampleTie) →
     pathFound r = true) ∧
    (pathFound r = true →
     trail (cells exampleTie) (playerPos exampleTie) (path r)
           (targetPos exampleTie) ∧
     ∀ l, trail (cells exampleTie) (playerPos exampleTie) l
                (targetPos exampleTie) →
       (length (path r) ≤ length l)%nat ∧
       (length l = length (path r) →
        l = path r ∨
        lexLt (ranks (playerPos exampleTie) (path r))
              (ranks (playerPos exampleTie) l))).
Proof.
  split.
  { split; [vm_compute; reflexivity|]. split; [|vm_compute; discriminate].
    apply (trail_snoc _ _ [V2 1 2] (V2 1 2) (V2 2 2)).
    - apply (trail_snoc _ _ [] (V2 1 1) (V2 1 2)); [constructor| |].
      + exists (V2 0 1). split; [|done]. apply elem_of_directions. tauto.
      + vm_compute. reflexivity.
    - exists (V2 1 0). split; [|done]. apply elem_of_directions. tauto.
    - vm_compute. reflexivity. }
  destruct (findPathBFS_deterministic exampleTie exampleTieStale)
    as (Hdirs & Hsame & Hlex).
  - vm_compute. reflexivity.
  - vm_compute. reflexivity.
  - vm_compute. reflexivity.
  - split; [exact Hdirs|]. split; [exact Hsame|].
    apply Hlex; [exact exampleTie_gridOK|vm_compute; reflexivity].
Defined.

(** ** A search that fails *)

(** A target whose four neighbours are walls cannot be reached from
    elsewhere. *)
Lemma sealed_unreachable g src tgt :
  src ≠ tgt →
  forallb (λ d, negb (walkable g (offset tgt d)) &&
                negb (Vector2i_eqb (offset tgt d) src)) directions = true →
  ¬ reachable g src tgt.
Proof.
  intros Hne Hsealed [n Hw]. rewrite forallb_forall in Hsealed.
  destruct Hw as [|n q r Hw Hadj _]; [done|].
  apply adjacent_sym in Hadj as (d & Hd & ->).
  specialize (Hsealed d). rewrite <- list_elem_of_In in Hsealed.
  apply Hsealed in Hd. apply andb_true_iff in Hd as [Hwall Hsrc].
  apply negb_true_iff in Hwall, Hsrc. apply Vector2i_eqb_neq in Hsrc.
  destruct (walk_end_open _ _ _ _ Hw); congruence.
Qed.

Lemma exampleWalled_gridOK : gridOK (cells exampleWalled).
Proof. apply (bool_decide_unpack _). vm_compute. exact I. Qed.

(** The walled-off maze still carries the flags, the path and the
    [pathFound] of the earlier search; the target cannot be reached; the
    search clears the stale state and ends without a path. *)
Lemma findPathBFS_no_path_witness :
  (pathFound exampleWalled = true ∧ path exampleWalled ≠ [] ∧
   visitedAt (cells exampleWalled) (V2 1 1) = true ∧
   ¬ reachable (cells exampleWalled) (playerPos exampleWalled)
               (targetPos exampleWalled)) ∧
  ((∀ p, visitedAt (cells (resetVisited exampleWalled)) p = false) ∧
   path (resetVisited exampleWalled) = [] ∧
   pathFound (resetVisited exampleWalled) = false ∧
   findPathBFS exampleWalled = findPathBFS (resetVisited exampleWalled)) ∧
  ∃ m', findPathBFS exampleWalled = Some m' ∧ pathFound m' = false ∧
        path m' = [].
Proof.
  assert (¬ reachable (cells exampleWalled) (playerPos exampleWalled)
                      (targetPos exampleWalled)) as Hno.
  { apply sealed_unreachable; [vm_compute; discriminate|].
    vm_compute. reflexivity. }
  split.
  { split; [vm_compute; reflexivity|]. split; [vm_compute; discriminate|].
    split; [vm_compute; reflexivity|exact Hno]. }
  destruct (findPathBFS_no_path exampleWalled) as [Hclear Hfail].
  - exact exampleWalled_gridOK.
  - vm_compute. reflexivity.
  - split; [exact Hclear|exact (Hfail Hno)].
Defined.

(** ** A move that stays in place *)

(** C3 as it is written fails for [dx = dy = 0]: the destination is the
    player's own cell, which is in bounds and not a wall, so the move
    succeeds; the one cell cannot end both [PATH], as the old cell, and
    [PLAYER], as the destination. *)
Lemma movePlayer_in_place :
  ¬ (∀ (m : Maze LcgEngine) dx dy,
       gridOK (cells m) → validPos (playerPos m) → is_int dx → is_int dy →
       ∃ b m', movePlayer dx dy m = Some (b, m') ∧
         (b = true ↔
          walkable (cells m)
            (V2 (vx (playerPos m) + dx) (vy (playerPos m) + dy)) = true) ∧
         (b = true →
          typeAt (cells m') (playerPos m) = PATH ∧
          typeAt (cells m')
            (V2 (vx (playerPos m) + dx) (vy (playerPos m) + dy)) = PLAYER) ∧
         (b = false → cells m' = cells m ∧ playerPos m' = playerPos m)).
Proof.
  intros H.
  destruct (H exampleStart 0 0) as (b & m' & _ & Hiff & Hswap & _).
  - exact exampleStart_gridOK.
  - vm_compute. reflexivity.
  - unfold is_int, INT_MIN, INT_MAX. lia.
  - unfold is_int, INT_MIN, INT_MAX. lia.
  - assert (b = true) as Hb by (apply Hiff; vm_compute; reflexivity).
    destruct (Hswap Hb) as [Hold Hdest].
    replace (V2 (vx (playerPos exampleStart) + 0)
                (vy (playerPos exampleStart) + 0))
      with (playerPos exampleStart) in Hdest by (vm_compute; reflexivity).
    rewrite Hold in Hdest. discriminate.
Qed.
